(** * Wheels of Fortune sketch: dispersal, restoration and the frame tick

    A shallow embedding of [src/sketch.js] (a p5.js sketch).  The sketch keeps
    three global arrays that matter here, [wheels], [dandelionParticles] and
    [blownAwayHistory]; they are passed explicitly as a [State].

    - JavaScript numbers are idealised as real numbers ([R]): the code uses
      [cos], [sin], [atan2] and [dist] (a square root) on them.
    - A wheel is identified by its index in [wheels]: the array is only ever
      rebuilt as a whole ([initializeArtwork]), never reordered, and every
      entry is a distinct object.  A history batch, an array of references to
      wheels, is therefore a list of indices.
    - [random] draws from an explicit source of uniform numbers in [0,1).
    - Drawing calls ([display], [background], connectors) have no effect on the
      three arrays and are left out. *)

From Stdlib Require Import Reals Lra Lia.
From stdpp Require Import base decidable option list strings.

Open Scope R_scope.

(** ** Numbers, comparisons and the p5.js helpers *)

#[global] Instance Rlt_decision : RelDecision Rlt := Rlt_dec.
#[global] Instance Rle_decision : RelDecision Rle := Rle_dec.

(** [TWO_PI] *)
Definition TWO_PI : R := 2 * PI.

(** p5 [lerp(start, stop, amt)] is [amt * (stop - start) + start]. *)
Definition lerp (start stop amt : R) : R := amt * (stop - start) + start.

(** p5 [map(n, start1, stop1, start2, stop2)]; named [p5map] since [map] is
    the list function. *)
Definition p5map (n start1 stop1 start2 stop2 : R) : R :=
  (n - start1) / (stop1 - start1) * (stop2 - start2) + start2.

(** p5 [dist(x1, y1, x2, y2)] *)
Definition dist (x1 y1 x2 y2 : R) : R :=
  sqrt ((x2 - x1) * (x2 - x1) + (y2 - y1) * (y2 - y1)).

(** [Math.atan2(y, x)] on real numbers (no signed zeros). *)
Definition atan2 (y x : R) : R :=
  if decide (0 < x) then atan (y / x)
  else if decide (x < 0) then
         (if decide (0 <= y) then atan (y / x) + PI else atan (y / x) - PI)
  else if decide (0 < y) then PI / 2
  else if decide (y < 0) then - (PI / 2)
  else 0.

(** ** The random source

    [Math.random()] is a stream of numbers; [pos] is how many were drawn. *)
Record Rng := mkRng { pos : nat; src : nat -> R }.

Definition uniform (g : Rng) : R * Rng :=
  (src g (pos g), mkRng (S (pos g)) (src g)).

(** p5 [random(min, max)]: the bounds are swapped when [min > max]. *)
Definition random2 (lo hi : R) (g : Rng) : R * Rng :=
  let (u, g') := uniform g in
  if decide (hi < lo) then (u * (lo - hi) + hi, g')
  else (u * (hi - lo) + lo, g').

(** p5 [random(max)] *)
Definition random1 (hi : R) (g : Rng) : R * Rng :=
  let (u, g') := uniform g in (u * hi, g').

(** Every draw of the source lies in [0,1), as [Math.random] promises. *)
Definition rng_ok (g : Rng) : Prop := forall n, 0 <= src g n < 1.

(** ** Wheel *)
Module Wheel.

Record t := mk {
  x : R;
  y : R;
  radius : R;
  colors : list string;
  stemAngle : R;
  isBlownAway : bool;
  innerAlpha : R;
  targetInnerAlpha : R;
  fadeSpeed : R
}.

Definition set_isBlownAway (b : bool) (w : t) : t :=
  mk (x w) (y w) (radius w) (colors w) (stemAngle w) b
     (innerAlpha w) (targetInnerAlpha w) (fadeSpeed w).

Definition set_innerAlpha (a : R) (w : t) : t :=
  mk (x w) (y w) (radius w) (colors w) (stemAngle w) (isBlownAway w)
     a (targetInnerAlpha w) (fadeSpeed w).

(** [constructor(x, y, radius, palette)] *)
Definition new (x0 y0 r : R) (palette : list string) (g : Rng) : t * Rng :=
  let (a, g') := random1 TWO_PI g in
  (mk x0 y0 r palette a false 0 255 5, g').

(** [updateAlpha()] *)
Definition updateAlpha (w : t) : t :=
  if isBlownAway w then set_innerAlpha 0 w
  else if decide (innerAlpha w < targetInnerAlpha w)
       then set_innerAlpha (Rmin (innerAlpha w + fadeSpeed w) (targetInnerAlpha w)) w
       else w.

(** [contains(px, py)] *)
Definition contains (w : t) (px py : R) : bool :=
  bool_decide (dist px py (x w) (y w) < radius w).

End Wheel.

(** ** p5.Vector, as far as the particles use it *)
Module Vector.

Record t := mk { x : R; y : R }.

(** [p5.Vector.fromAngle(angle)] *)
Definition fromAngle (angle : R) : t := mk (cos angle) (sin angle).

(** [v.mult(n)] *)
Definition mult (n : R) (v : t) : t := mk (x v * n) (y v * n).

(** [v.add(x, y)] *)
Definition add (dx dy : R) (v : t) : t := mk (x v + dx) (y v + dy).

End Vector.

(** ** DandelionParticle *)
Module DandelionParticle.

Record t := mk {
  x : R;
  y : R;
  type : string;
  color : option string;
  size : R;
  alpha : R;
  originalX : R;
  originalY : R;
  targetX : R;
  targetY : R;
  vel : Vector.t;
  rotation : R;
  rotationSpeed : R;
  windX : R;
  windY : R;
  isReturning : bool;
  returnSpeed : R
}.

(** [constructor(x, y, type, color, size, targetX, targetY, initialAngle = 0)];
    the five calls of [random] are made in the order of the source. *)
Definition new (x0 y0 : R) (ty : string) (col : option string) (sz tx ty' : R)
    (initialAngle : R) (g : Rng) : t * Rng :=
  let (a, g1) := random2 (PI + PI / 4) (PI + PI / 2) g in
  let (m, g2) := random2 1 3 g1 in
  let (rs, g3) := random2 (-0.05) 0.05 g2 in
  let (wx, g4) := random2 (-0.05) (-0.2) g3 in
  let (wy, g5) := random2 0.05 0.2 g4 in
  (mk x0 y0 ty col sz 255 x0 y0 tx ty'
      (Vector.mult m (Vector.fromAngle a)) initialAngle rs wx wy false 0.05,
   g5).

(** [update()] *)
Definition update (p : t) : t :=
  if isReturning p then
    let x1 := lerp (x p) (targetX p) (returnSpeed p) in
    let y1 := lerp (y p) (targetY p) (returnSpeed p) in
    let a1 := lerp (alpha p) 0 (returnSpeed p * 2) in
    let s1 := lerp (size p)
                (if String.eqb (type p) "spoke" then size p / 5 else size p)
                (returnSpeed p * 2) in
    let rs1 := lerp (rotationSpeed p) 0 0.05 in
    mk x1 y1 (type p) (color p) s1 a1 (originalX p) (originalY p)
       (targetX p) (targetY p) (vel p) (rotation p) rs1 (windX p) (windY p)
       (isReturning p) (returnSpeed p)
  else
    mk (x p + Vector.x (vel p)) (y p + Vector.y (vel p)) (type p) (color p)
       (size p * 0.99) (alpha p - 2) (originalX p) (originalY p)
       (targetX p) (targetY p) (Vector.add (windX p) (windY p) (vel p))
       (rotation p + rotationSpeed p) (rotationSpeed p) (windX p) (windY p)
       (isReturning p) (returnSpeed p).

(** The two assignments and the flag of the restoration loop:
    [p.isReturning = true; p.originalX = p.x; p.originalY = p.y]. *)
Definition startReturn (p : t) : t :=
  mk (x p) (y p) (type p) (color p) (size p) (alpha p) (x p) (y p)
     (targetX p) (targetY p) (vel p) (rotation p) (rotationSpeed p)
     (windX p) (windY p) true (returnSpeed p).

(** First removal test of [draw]: [p.alpha <= 0 && !p.isReturning]. *)
Definition faded (p : t) : bool :=
  bool_decide (alpha p <= 0) && negb (isReturning p).

(** Second removal test of [draw]:
    [p.isReturning && dist(p.x, p.y, p.targetX, p.targetY) < 1 && p.alpha <= 0]. *)
Definition arrived (p : t) : bool :=
  isReturning p
  && bool_decide (dist (x p) (y p) (targetX p) (targetY p) < 1)
  && bool_decide (alpha p <= 0).

End DandelionParticle.

Module P := DandelionParticle.

(** ** The three global arrays *)
Record State := mkState {
  wheels : list Wheel.t;
  dandelionParticles : list P.t;
  blownAwayHistory : list (list nat)
}.

(** ** draw *)

(** The particle loop of [draw], for [i] from [n - 1] down to [0]: the
    particle is updated in place, then each removal test may [splice(i, 1)]. *)
Fixpoint draw_particles (n : nat) (ps : list P.t) : list P.t :=
  match n with
  | O => ps
  | S i =>
      match ps !! i with
      | None => draw_particles i ps
      | Some p0 =>
          let p := P.update p0 in
          let ps1 := <[i := p]> ps in
          let ps2 := if P.faded p then delete i ps1 else ps1 in
          let ps3 := if P.arrived p then delete i ps2 else ps2 in
          draw_particles i ps3
      end
  end.

(** [draw()]: every wheel fades, then the particle loop runs. *)
Definition draw (s : State) : State :=
  mkState (Wheel.updateAlpha <$> wheels s)
          (draw_particles (length (dandelionParticles s)) (dandelionParticles s))
          (blownAwayHistory s).

(** ** mousePressed *)

(** Threading the random source through a loop that pushes one particle per
    index. *)
Fixpoint spawn (mk : nat -> Rng -> P.t * Rng) (js : list nat) (g : Rng)
    : list P.t * Rng :=
  match js with
  | [] => ([], g)
  | j :: js' =>
      let (p, g1) := mk j g in
      let (ps, g2) := spawn mk js' g1 in
      (p :: ps, g2)
  end.

Definition spokeCount : nat := 24.
Definition dotCount : nat := 40.

(** The body of the spoke loop for index [j]. *)
Definition spokeParticle (w : Wheel.t) (j : nat) (g : Rng) : P.t * Rng :=
  let outerRadius := Wheel.radius w * 0.8 in
  let spokeColor := Wheel.colors w !! 3%nat in
  let spokeSize := Wheel.radius w * 0.03 in
  let angle := p5map (INR j) 0 (INR spokeCount) 0 TWO_PI in
  let startX := Wheel.x w + cos angle * outerRadius in
  let startY := Wheel.y w + sin angle * outerRadius in
  let targetX := Wheel.x w + cos angle * outerRadius in
  let targetY := Wheel.y w + sin angle * outerRadius in
  P.new startX startY "spoke" spokeColor (spokeSize * 5) targetX targetY angle g.

(** The body of the outer-dot loop for index [j]. *)
Definition dotParticle (w : Wheel.t) (j : nat) (g : Rng) : P.t * Rng :=
  let dotRadius := Wheel.radius w * 0.9 in
  let dotColor := Wheel.colors w !! 1%nat in
  let dotSize := Wheel.radius w * 0.08 in
  let angle := p5map (INR j) 0 (INR dotCount) 0 TWO_PI in
  let dx := Wheel.x w + cos angle * dotRadius in
  let dy := Wheel.y w + sin angle * dotRadius in
  let targetX := Wheel.x w + cos angle * dotRadius in
  let targetY := Wheel.y w + sin angle * dotRadius in
  P.new dx dy "outerDot" dotColor dotSize targetX targetY 0 g.

(** The particles of one wheel: its spokes, then its outer dots. *)
Definition wheelParticles (w : Wheel.t) (g : Rng) : list P.t * Rng :=
  let (sp, g1) := spawn (spokeParticle w) (seq 0 spokeCount) g in
  let (dp, g2) := spawn (dotParticle w) (seq 0 dotCount) g1 in
  (sp ++ dp, g2).

(** [w.isBlownAway = true; w.innerAlpha = 0] *)
Definition blow (w : Wheel.t) : Wheel.t :=
  Wheel.set_innerAlpha 0 (Wheel.set_isBlownAway true w).

(** The body of [for (const w of wheelsToBlow)] for the wheel of index [i]. *)
Definition blowWheel (sg : State * Rng) (i : nat) : State * Rng :=
  let (s, g) := sg in
  match wheels s !! i with
  | None => (s, g)
  | Some w =>
      let w' := blow w in
      let (ps, g') := wheelParticles w' g in
      (mkState (<[i := w']> (wheels s)) (dandelionParticles s ++ ps)
               (blownAwayHistory s), g')
  end.

(** The test of [wheels.filter(...)]:
    [w.colors[0] === clickedWheelBaseColor && !w.isBlownAway]. *)
Definition toBlow (base : option string) (w : Wheel.t) : bool :=
  bool_decide (Wheel.colors w !! 0%nat = base) && negb (Wheel.isBlownAway w).

(** The indices, in array order, of the wheels that pass a test: what
    [wheels.filter(test)] returns, as references. *)
Definition indicesOf (test : Wheel.t -> bool) (ws : list Wheel.t) : list nat :=
  List.filter (fun i => match ws !! i with Some w => test w | None => false end)
              (seq 0 (length ws)).

(** What [mousePressed] does once the clicked wheel is found. *)
Definition disperse (s : State) (wheel : Wheel.t) (g : Rng) : State * Rng :=
  let clickedWheelBaseColor := Wheel.colors wheel !! 0%nat in
  let wheelsToBlow := indicesOf (toBlow clickedWheelBaseColor) (wheels s) in
  if decide (0 < length wheelsToBlow)%nat then
    let s1 := mkState (wheels s) (dandelionParticles s)
                      (blownAwayHistory s ++ [wheelsToBlow]) in
    foldl blowWheel (s1, g) wheelsToBlow
  else (s, g).

(** The loop of [mousePressed], for [i] from [n - 1] down to [0], with its
    [break]. *)
Fixpoint mousePressed_from (n : nat) (s : State) (mouseX mouseY : R) (g : Rng)
    : State * Rng :=
  match n with
  | O => (s, g)
  | S i =>
      match wheels s !! i with
      | None => mousePressed_from i s mouseX mouseY g
      | Some wheel =>
          if Wheel.contains wheel mouseX mouseY && negb (Wheel.isBlownAway wheel)
          then disperse s wheel g
          else mousePressed_from i s mouseX mouseY g
      end
  end.

Definition mousePressed (s : State) (mouseX mouseY : R) (g : Rng) : State * Rng :=
  mousePressed_from (length (wheels s)) s mouseX mouseY g.

(** ** keyPressed *)

(** [w.isBlownAway = false; w.innerAlpha = 0] *)
Definition restore (w : Wheel.t) : Wheel.t :=
  Wheel.set_innerAlpha 0 (Wheel.set_isBlownAway false w).

(** The test of [dandelionParticles.filter(...)] in [keyPressed]. *)
Definition returnsTo (w : Wheel.t) (p : P.t) : bool :=
  (String.eqb (P.type p) "spoke"
   && bool_decide
        (dist (P.targetX p) (P.targetY p)
              (Wheel.x w + cos (P.rotation p) * Wheel.radius w * 0.8)
              (Wheel.y w + sin (P.rotation p) * Wheel.radius w * 0.8) < 10))
  || (String.eqb (P.type p) "outerDot"
      && bool_decide
           (dist (P.targetX p) (P.targetY p)
                 (Wheel.x w
                  + cos (atan2 (P.targetY p - Wheel.y w) (P.targetX p - Wheel.x w))
                    * Wheel.radius w * 0.9)
                 (Wheel.y w
                  + sin (atan2 (P.targetY p - Wheel.y w) (P.targetX p - Wheel.x w))
                    * Wheel.radius w * 0.9) < 10)).

(** The body of [for (const w of wheelsToRestore)] for the wheel of index [i]. *)
Definition restoreWheel (s : State) (i : nat) : State :=
  match wheels s !! i with
  | None => s
  | Some w =>
      let w' := restore w in
      mkState (<[i := w']> (wheels s))
              ((fun p => if returnsTo w' p then P.startReturn p else p)
                 <$> dandelionParticles s)
              (blownAwayHistory s)
  end.

(** [Array.prototype.pop]: the last entry and the rest, if there is one. *)
Definition pop {A} (l : list A) : option (A * list A) :=
  match last l with
  | Some a => Some (a, removelast l)
  | None => None
  end.

Definition keyPressed (keyCode : Z) (s : State) : State :=
  if decide (keyCode = 32%Z) then
    match pop (blownAwayHistory s) with
    | Some (wheelsToRestore, rest) =>
        foldl restoreWheel
              (mkState (wheels s) (dandelionParticles s) rest)
              wheelsToRestore
    | None => s
    end
  else s.

(** ** Executions *)

(** What [initializeArtwork] leaves behind: wheels fresh from the constructor
    (their placement is the layout's business), no particle, no history. *)
Definition fresh (w : Wheel.t) : Prop :=
  Wheel.isBlownAway w = false /\ Wheel.innerAlpha w = 0
  /\ Wheel.targetInnerAlpha w = 255 /\ Wheel.fadeSpeed w = 5.

Definition initial (s : State) : Prop :=
  Forall fresh (wheels s) /\ dandelionParticles s = [] /\ blownAwayHistory s = [].

(** One event of the sketch: a frame, a click, a key, or a resize (which
    rebuilds everything). *)
Inductive step : State -> State -> Prop :=
| step_draw s : step s (draw s)
| step_mouse s mouseX mouseY g :
    rng_ok g -> step s (fst (mousePressed s mouseX mouseY g))
| step_key s keyCode : step s (keyPressed keyCode s)
| step_resize s s' : initial s' -> step s s'.

Inductive reachable : State -> Prop :=
| reach_init s : initial s -> reachable s
| reach_step s s' : reachable s -> step s s' -> reachable s'.

(** ** initializeArtwork *)

(** [colorPalettes] *)
Definition colorPalettes : list (list string) :=
  [ ["#45206A"; "#FFD700"; "#FF8C00"; "#B0E0E6"; "#8A2BE2"];
    ["#D90429"; "#F4D35E"; "#F7B267"; "#0A796F"; "#2E4057"];
    ["#A34A2A"; "#F2AF29"; "#E0A890"; "#3E8914"; "#D4327C"];
    ["#004C6D"; "#7FC2BF"; "#FFC94F"; "#D83A56"; "#5C88BF"];
    ["#C11F68"; "#F9E795"; "#F5EEF8"; "#2ECC71"; "#8E44AD"];
    ["#006D77"; "#FF8C00"; "#E29578"; "#83C5BE"; "#D64045"] ]%string.

(** p5 [random(array)]: the entry at [Math.floor(rand * array.length)], and
    [undefined] ([None]) where the array has no such entry. *)
Definition randomOf {A} (l : list A) (g : Rng) : option A * Rng :=
  let (u, g') := uniform g in
  let i := Int_part (u * INR (length l)) in
  (if decide (0 <= i)%Z then l !! Z.to_nat i else None, g').

Definition numWheels : nat := 25.
Definition maxAttempts : nat := 5000.

(** The loop [for (let other of wheels)] on a candidate, with its [break]:
    the two flags [isOverlappingTooMuch] and [hasNearbyWheel] at its end. *)
Fixpoint scanOthers (candidateX candidateY candidateRadius : R)
    (others : list Wheel.t) (hasNearbyWheel : bool) : bool * bool :=
  match others with
  | [] => (false, hasNearbyWheel)
  | other :: rest =>
      let d := dist candidateX candidateY (Wheel.x other) (Wheel.y other) in
      let combinedRadius := candidateRadius + Wheel.radius other in
      let overlapThreshold := Rmin candidateRadius (Wheel.radius other) * 0.4 in
      if decide (d < combinedRadius - overlapThreshold) then (true, hasNearbyWheel)
      else if decide (d < combinedRadius * 1.5)
           then scanOthers candidateX candidateY candidateRadius rest true
           else scanOthers candidateX candidateY candidateRadius rest hasNearbyWheel
  end.

(** The choice of a palette for a new wheel: a random one, drawn again among
    the others when it is the palette of the last wheel.  The palettes of the
    table differ in content, so that [===] on them is equality of lists. *)
Definition selectPalette (ws : list Wheel.t) (g : Rng)
    : option (list string) * Rng :=
  let (selectedPalette, g1) := randomOf colorPalettes g in
  match selectedPalette, last ws with
  | Some pal, Some lastWheel =>
      if decide (pal = Wheel.colors lastWheel)
      then randomOf (List.filter (fun q => negb (bool_decide (q = pal)))
                                 colorPalettes) g1
      else (selectedPalette, g1)
  | _, _ => (selectedPalette, g1)
  end.

(** One pass of the body of the [while] loop.  [None] stands for a wheel
    built with an [undefined] palette, for which the record of a wheel has no
    room; draws in [0,1) never lead there. *)
Definition tryPlace (width height : R) (ws : list Wheel.t) (g : Rng)
    : option (list Wheel.t) * Rng :=
  let minRadius := width * 0.04 in
  let maxRadius := width * 0.12 in
  let (candidateRadius, g1) := random2 minRadius maxRadius g in
  let (candidateX, g2) := random2 candidateRadius (width - candidateRadius) g1 in
  let (candidateY, g3) := random2 candidateRadius (height - candidateRadius) g2 in
  let (isOverlappingTooMuch, near) :=
    scanOthers candidateX candidateY candidateRadius ws false in
  let hasNearbyWheel := if decide (length ws = 0%nat) then true else near in
  if negb isOverlappingTooMuch && hasNearbyWheel then
    let (selectedPalette, g4) := selectPalette ws g3 in
    match selectedPalette with
    | Some pal =>
        let (w, g5) := Wheel.new candidateX candidateY candidateRadius pal g4 in
        (Some (ws ++ [w]), g5)
    | None => (None, g4)
    end
  else (Some ws, g3).

(** The [while] loop, by the number of attempts still allowed; with the
    wheels it returns the attempts left when it stops. *)
Fixpoint placeWheels (attemptsLeft : nat) (width height : R)
    (ws : list Wheel.t) (g : Rng) : option (list Wheel.t * nat) * Rng :=
  match attemptsLeft with
  | O => (Some (ws, O), g)
  | S n =>
      if decide (length ws < numWheels)%nat then
        match tryPlace width height ws g with
        | (Some ws', g') => placeWheels n width height ws' g'
        | (None, g') => (None, g')
        end
      else (Some (ws, attemptsLeft), g)
  end.

(** ** Connector *)
Module Connector.

(** [w1] and [w2] are references to wheels: indices in [wheels]. *)
Record t := mk {
  w1 : nat;
  w2 : nat;
  color : option string;
  angle : R;
  startPoint : Vector.t;
  endPoint : Vector.t
}.

(** [constructor(wheel1, wheel2, connectColor)] *)
Definition new (i j : nat) (wheel1 wheel2 : Wheel.t)
    (connectColor : option string) : t :=
  let angle := atan2 (Wheel.y wheel2 - Wheel.y wheel1)
                     (Wheel.x wheel2 - Wheel.x wheel1) in
  mk i j connectColor angle
     (Vector.mk (Wheel.x wheel1 + cos angle * Wheel.radius wheel1)
                (Wheel.y wheel1 + sin angle * Wheel.radius wheel1))
     (Vector.mk (Wheel.x wheel2 + cos (angle + PI) * Wheel.radius wheel2)
                (Wheel.y wheel2 + sin (angle + PI) * Wheel.radius wheel2)).

(** The centres of the chain links [display] draws along the connector:
    none unless [numLinks > 0], else one for each [i] from 0 to [numLinks]. *)
Definition linkCentres (c : t) : list (R * R) :=
  let distBetweenWheels :=
    dist (Vector.x (startPoint c)) (Vector.y (startPoint c))
         (Vector.x (endPoint c)) (Vector.y (endPoint c)) in
  let linkSize := 10 in
  let numLinks := Int_part (distBetweenWheels / (linkSize * 1.5)) in
  if decide (0 < numLinks)%Z then
    (fun i : nat =>
       let lerpAmount := p5map (INR i) 0 (IZR numLinks) 0 1 in
       (lerp (Vector.x (startPoint c)) (Vector.x (endPoint c)) lerpAmount,
        lerp (Vector.y (startPoint c)) (Vector.y (endPoint c)) lerpAmount))
    <$> seq 0 (S (Z.to_nat numLinks))
  else [].

End Connector.

(** The test of the connector loops on two wheels. *)
Definition closeEnough (w1 w2 : Wheel.t) : bool :=
  bool_decide (dist (Wheel.x w1) (Wheel.y w1) (Wheel.x w2) (Wheel.y w2)
               < (Wheel.radius w1 + Wheel.radius w2) * 1.3).

(** The body of the inner connector loop for the wheels of indices [i] and
    [j].  [None] is the [TypeError] of [random(colorPalettes)[0]] on an
    [undefined] palette. *)
Definition connectPair (ws : list Wheel.t)
    (acc : option (list Connector.t) * Rng) (ij : nat * nat)
    : option (list Connector.t) * Rng :=
  match acc with
  | (None, g) => (None, g)
  | (Some cs, g) =>
      match ws !! ij.1, ws !! ij.2 with
      | Some w1, Some w2 =>
          if closeEnough w1 w2 then
            let (pal, g') := randomOf colorPalettes g in
            match pal with
            | Some pal =>
                (Some (cs ++ [Connector.new ij.1 ij.2 w1 w2 (pal !! 0%nat)]), g')
            | None => (None, g')
            end
          else (Some cs, g)
      | _, _ => (Some cs, g)
      end
  end.

(** The pairs [(i, j)] the two loops go through, in their order. *)
Definition wheelPairs (n : nat) : list (nat * nat) :=
  flat_map (fun i => (fun j => (i, j)) <$> seq (S i) (n - S i)) (seq 0 n).

Definition connectWheels (ws : list Wheel.t) (g : Rng)
    : option (list Connector.t) * Rng :=
  foldl (connectPair ws) (Some [], g) (wheelPairs (length ws)).

(** What [initializeArtwork] builds: the three arrays, the connectors, and
    whether the message about the wheels that could not be placed is logged. *)
Record Artwork := mkArtwork {
  artState : State;
  connectors : list Connector.t;
  logged : bool
}.

(** [initializeArtwork()], on a canvas of the given size. *)
Definition initializeArtwork (width height : R) (g : Rng) : option Artwork * Rng :=
  match placeWheels maxAttempts width height [] g with
  | (Some (ws, attemptsLeft), g1) =>
      match connectWheels ws g1 with
      | (Some cs, g2) =>
          (Some (mkArtwork (mkState ws [] []) cs
                           (bool_decide (attemptsLeft = 0%nat))), g2)
      | (None, g2) => (None, g2)
      end
  | (None, g1) => (None, g1)
  end.

(** [windowResized()]: the canvas takes the size of the window and the
    artwork is built anew. *)
Definition windowResized (windowWidth windowHeight : R) (g : Rng)
    : option Artwork * Rng :=
  initializeArtwork windowWidth windowHeight g.

(** ** Drawing: the inner pattern of a wheel, and a particle *)








(** * Vocabulary of the statements *)

(** A particle survives the frame when neither removal test fires. *)
Definition survives (p : P.t) : bool := negb (P.faded p || P.arrived p).

(** A particle of wheel [w]: a spoke or an outer dot, built by the loop body
    at some index, with draws taken from the stream [f]. *)
Definition spawnedBy (f : nat -> R) (w : Wheel.t) (p : P.t) : Prop :=
  exists j g, src g = f
    /\ (((j < spokeCount)%nat /\ p = fst (spokeParticle w j g))
        \/ ((j < dotCount)%nat /\ p = fst (dotParticle w j g))).

(** The test of the loop of [mousePressed]. *)
Definition hit (mouseX mouseY : R) (w : Wheel.t) : bool :=
  Wheel.contains w mouseX mouseY && negb (Wheel.isBlownAway w).

(** The wheel a click selects: the last one of the array that passes the
    test, which the downward loop meets first. *)
Definition clicked (s : State) (mouseX mouseY : R) (i : nat) (wheel : Wheel.t)
    : Prop :=
  wheels s !! i = Some wheel
  /\ hit mouseX mouseY wheel = true
  /\ forall j w, (i < j)%nat -> wheels s !! j = Some w -> hit mouseX mouseY w = false.

(** The wheels blown together with [wheel]. *)
Definition affected (s : State) (wheel : Wheel.t) : list nat :=
  indicesOf (toBlow (Wheel.colors wheel !! 0%nat)) (wheels s).

(** Some wheel of the batch passes the test of the filter on [p]. *)
Definition matched (ws : list Wheel.t) (batch : list nat) (p : P.t) : bool :=
  existsb (fun k => match ws !! k with
                    | Some w => returnsTo w p
                    | None => false
                    end) batch.

(** What a restoration makes of a particle. *)
Definition recall (ws : list Wheel.t) (batch : list nat) (p : P.t) : P.t :=
  if matched ws batch p then P.startReturn p else p.

(** What holds of a wheel between events: the constants of the constructor,
    a fade level that is a multiple of the step between 0 and 255, and no
    fade at all while blown away. *)
Definition wheelInv (w : Wheel.t) : Prop :=
  Wheel.targetInnerAlpha w = 255
  /\ Wheel.fadeSpeed w = 5
  /\ (exists k : nat, (k <= 51)%nat /\ Wheel.innerAlpha w = 5 * INR k)
  /\ (Wheel.isBlownAway w = true -> Wheel.innerAlpha w = 0).

(** What holds of a live particle between events. *)
Definition particleInv (p : P.t) : Prop :=
  0 < P.alpha p <= 255 /\ P.returnSpeed p = 0.05.

(** What holds of the history between events: every wheel of every batch is
    blown away, no batch lists a wheel twice or is empty, and two batches at
    different places of the history share no wheel. *)
Definition historyInv (s : State) : Prop :=
  (forall b k, b ∈ blownAwayHistory s -> k ∈ b ->
     exists w, wheels s !! k = Some w /\ Wheel.isBlownAway w = true)
  /\ (forall b, b ∈ blownAwayHistory s -> NoDup b /\ b <> [])
  /\ (forall i j b1 b2 k,
        i <> j -> blownAwayHistory s !! i = Some b1 ->
        blownAwayHistory s !! j = Some b2 -> k ∈ b1 -> k ∉ b2).

(** The point of index [j] of [count] evenly spaced points on the ring of
    radius [fraction * radius] around the centre of [w]. *)
Definition ringPoint (w : Wheel.t) (fraction : R) (count j : nat) (px py : R)
    : Prop :=
  let angle := p5map (INR j) 0 (INR count) 0 TWO_PI in
  px = Wheel.x w + cos angle * (Wheel.radius w * fraction)
  /\ py = Wheel.y w + sin angle * (Wheel.radius w * fraction).

(** The initial velocity the constructor draws: a speed in [1,3) along a
    direction between [PI + PI/4] and [PI + PI/2], whatever the particle. *)
Definition windVelocity (v : Vector.t) : Prop :=
  exists theta m,
    PI + PI / 4 <= theta < PI + PI / 2 /\ 1 <= m < 3
    /\ v = Vector.mk (cos theta * m) (sin theta * m).

(** Spec wording: the initial velocity of a particle spawned from [w] is
    biased outward, that is, it points away from the centre of [w]. *)
Definition outwardBiased (w : Wheel.t) (p : P.t) : Prop :=
  0 < Vector.x (P.vel p) * (P.x p - Wheel.x w)
      + Vector.y (P.vel p) * (P.y p - Wheel.y w).

(** What a particle of wheel [w] looks like when it is spawned. *)
Definition spawnedShape (w : Wheel.t) (p : P.t) : Prop :=
  P.x p = P.targetX p /\ P.y p = P.targetY p
  /\ P.originalX p = P.targetX p /\ P.originalY p = P.targetY p
  /\ ((P.type p = "spoke"
       /\ exists j, (j < spokeCount)%nat
            /\ ringPoint w 0.8 spokeCount j (P.targetX p) (P.targetY p)
            /\ P.rotation p = p5map (INR j) 0 (INR spokeCount) 0 TWO_PI)
      \/ (P.type p = "outerDot"
          /\ exists j, (j < dotCount)%nat
               /\ ringPoint w 0.9 dotCount j (P.targetX p) (P.targetY p)
               /\ P.rotation p = 0))
  /\ windVelocity (P.vel p)
  /\ -0.05 <= P.rotationSpeed p < 0.05
  /\ -0.2 <= P.windX p < -0.05
  /\ 0.05 <= P.windY p < 0.2
  /\ P.alpha p = 255 /\ P.isReturning p = false.

(** What ties the history to the wheels between events: the batches list
    each blown wheel once, and no other wheel; no batch is empty. *)
Definition undoInv (s : State) : Prop :=
  NoDup (concat (blownAwayHistory s))
  /\ Forall (fun b => b <> []) (blownAwayHistory s)
  /\ (forall k, k ∈ concat (blownAwayHistory s)
         <-> exists w, wheels s !! k = Some w /\ Wheel.isBlownAway w = true).

(** The test of the connector loops on a pair of indices. *)
Definition closePair (ws : list Wheel.t) (ij : nat * nat) : bool :=
  match ws !! ij.1, ws !! ij.2 with
  | Some a, Some b => closeEnough a b
  | _, _ => false
  end.

(** A connector built by the constructor on the wheels it refers to, with
    the base colour of a palette of the table. *)
Definition connects (ws : list Wheel.t) (c : Connector.t) : Prop :=
  exists wa wb pal,
    ws !! Connector.w1 c = Some wa /\ ws !! Connector.w2 c = Some wb
    /\ pal ∈ colorPalettes
    /\ c = Connector.new (Connector.w1 c) (Connector.w2 c) wa wb (pal !! 0%nat).

(** No wheel overlaps an earlier one by more than 40% of the smaller radius. *)
Definition notTooClose (ws : list Wheel.t) : Prop :=
  forall i j wi wj,
    (i < j)%nat -> ws !! i = Some wi -> ws !! j = Some wj ->
    Wheel.radius wj + Wheel.radius wi
      - Rmin (Wheel.radius wj) (Wheel.radius wi) * 0.4
    <= dist (Wheel.x wj) (Wheel.y wj) (Wheel.x wi) (Wheel.y wi).

(** Every wheel but the first is within 1.5 times the combined radius of an
    earlier wheel. *)
Definition chained (ws : list Wheel.t) : Prop :=
  forall j wj,
    (0 < j)%nat -> ws !! j = Some wj ->
    exists i wi,
      (i < j)%nat /\ ws !! i = Some wi
      /\ dist (Wheel.x wj) (Wheel.y wj) (Wheel.x wi) (Wheel.y wi)
         < (Wheel.radius wj + Wheel.radius wi) * 1.5.

(** Every wheel has a palette of the table, and never the palette of the
    wheel before it. *)
Definition palettesAlternate (ws : list Wheel.t) : Prop :=
  Forall (fun w => Wheel.colors w ∈ colorPalettes) ws
  /\ forall j wj wj',
       ws !! j = Some wj -> ws !! S j = Some wj' ->
       Wheel.colors wj' <> Wheel.colors wj.

(** The radius and the position of a wheel on a canvas. *)
Definition inCanvas (width height : R) (w : Wheel.t) : Prop :=
  width * 0.04 <= Wheel.radius w < width * 0.12
  /\ Wheel.radius w <= Wheel.x w < width - Wheel.radius w
  /\ (width * 0.24 <= height ->
      Wheel.radius w <= Wheel.y w < height - Wheel.radius w).

(** Every batch of the history is a whole colour group: the wheels of one
    base colour, all of them. *)
Definition groupInv (s : State) : Prop :=
  forall b, b ∈ blownAwayHistory s ->
    exists c, forall k w, wheels s !! k = Some w ->
                (k ∈ b <-> Wheel.colors w !! 0%nat = c).

(** * Example states *)

Definition palette1 : list string :=
  ["#45206A"; "#FFD700"; "#FF8C00"; "#B0E0E6"; "#8A2BE2"]%string.
Definition palette2 : list string :=
  ["#D90429"; "#F4D35E"; "#F7B267"; "#0A796F"; "#2E4057"]%string.

(** Two overlapping wheels of different palettes, as the layout may place
    them: radius 50, centres 80 apart. *)
Definition wheelA : Wheel.t := Wheel.mk 100 100 50 palette1 0 false 0 255 5.
Definition wheelB : Wheel.t := Wheel.mk 180 100 50 palette2 0 false 0 255 5.

(** A random source whose every draw is 0. *)
Definition rng0 : Rng := mkRng 0 (fun _ => 0).

(** A random source whose draws are all 0 but the seventh, 0.1: on a canvas
    of 1000 by 800 the first attempt of the layout proposes a wheel of
    radius 40 at (40, 40) and the second one a wheel of radius 40 at
    (132, 40). *)
Definition rngPair : Rng := mkRng 0 (fun n => if Nat.eqb n 6 then 0.1 else 0).

(** The sketch right after [initializeArtwork] placed the two wheels. *)
Definition start : State := mkState [wheelA; wheelB] [] [].

(** One wheel blown away, recorded in the history, its particles gone. *)
Definition blownA : State := mkState [blow wheelA; wheelB] [] [[0%nat]].

(** The first particle the first click of the example spawns: the spoke of
    index 0 of [wheelB]. *)
Definition firstSpoke : P.t := fst (spokeParticle (blow wheelB) 0 rng0).

(** The first outer dot the first click of the example would spawn from
    [wheelB], were it the first particle drawn. *)
Definition firstDot : P.t := fst (dotParticle (blow wheelB) 0 rng0).

(** A connector whose line runs 30 to the right. *)
Definition shortConnector : Connector.t :=
  Connector.mk 0 1 None 0 (Vector.mk 0 0) (Vector.mk 30 0).

(** A random source whose draws are 0, but for the third one, which makes
    the first particle turn by [PI / 100] each frame. *)
Definition rngPi : Rng :=
  mkRng 0 (fun n => if Nat.eqb n 2 then PI / 10 + 1 / 2 else 0).

(** The first spoke of [wheelB] when the click draws from [rngPi]. *)
Definition turningSpoke : P.t := fst (spokeParticle (blow wheelB) 0 rngPi).

(** * Properties *)

(** ** Comparisons and distances *)

Lemma PI_pos : 0 < PI.
Proof. exact PI_RGT_0. Qed.

Lemma dist_nonneg x1 y1 x2 y2 : 0 <= dist x1 y1 x2 y2.
Proof. unfold dist. apply sqrt_pos. Qed.

Lemma dist_sqr x1 y1 x2 y2 :
  dist x1 y1 x2 y2 * dist x1 y1 x2 y2
  = (x2 - x1) * (x2 - x1) + (y2 - y1) * (y2 - y1).
Proof.
  unfold dist. apply sqrt_sqrt.
  pose proof (Rle_0_sqr (x2 - x1)). pose proof (Rle_0_sqr (y2 - y1)).
  unfold Rsqr in *. lra.
Qed.

(** Comparing a distance with a positive bound is comparing the squares. *)
Lemma dist_lt_iff x1 y1 x2 y2 r :
  0 < r ->
  dist x1 y1 x2 y2 < r
  <-> (x2 - x1) * (x2 - x1) + (y2 - y1) * (y2 - y1) < r * r.
Proof.
  intros Hr. pose proof (dist_nonneg x1 y1 x2 y2) as Hd.
  pose proof (dist_sqr x1 y1 x2 y2) as Hs. split; intros H; nra.
Qed.

(** ** Lists of indices *)

(** Membership in [i :: l], decided on the head first. *)
Lemma decide_elem_of_cons {B} (k i : nat) (l : list nat) (x y : B) :
  (if decide (k ∈ i :: l) then x else y)
  = (if decide (k = i) then x else if decide (k ∈ l) then x else y).
Proof.
  destruct (decide (k = i)) as [->|Hne].
  - apply decide_True. left.
  - destruct (decide (k ∈ l)) as [Hin|Hnin].
    + apply decide_True. right. exact Hin.
    + apply decide_False. intros H.
      apply elem_of_cons in H as [?|?]; contradiction.
Qed.

(** ** The random source *)

Lemma random2_src lo hi g : src (snd (random2 lo hi g)) = src g.
Proof. unfold random2, uniform. case_decide; reflexivity. Qed.

Lemma random2_ok lo hi g : rng_ok g -> rng_ok (snd (random2 lo hi g)).
Proof. unfold rng_ok. rewrite random2_src. trivial. Qed.

(** The particle a constructor call builds, with the five draws spelled out. *)
Lemma new_eq x0 y0 ty col sz tx ty' a g :
  P.new x0 y0 ty col sz tx ty' a g
  = (P.mk x0 y0 ty col sz 255 x0 y0 tx ty'
       (Vector.mult (src g (1 + pos g)%nat * (3 - 1) + 1)
          (Vector.fromAngle
             (src g (pos g) * ((PI + PI / 2) - (PI + PI / 4)) + (PI + PI / 4))))
       a
       (src g (2 + pos g)%nat * (0.05 - (-0.05)) + (-0.05))
       (src g (3 + pos g)%nat * ((-0.05) - (-0.2)) + (-0.2))
       (src g (4 + pos g)%nat * (0.2 - 0.05) + 0.05)
       false 0.05,
     mkRng (5 + pos g) (src g)).
Proof.
  pose proof PI_pos.
  unfold P.new, random2, uniform; simpl.
  repeat (case_decide; try lra). reflexivity.
Qed.

(** ** The particle loop of draw *)

Lemma faded_not_arrived p : P.faded p = true -> P.arrived p = false.
Proof.
  unfold P.faded, P.arrived. destruct (P.isReturning p); simpl.
  - rewrite andb_false_r. discriminate.
  - reflexivity.
Qed.

(** Going down from the end, the loop has updated and filtered the part it
    went through and left the rest alone. *)
Lemma draw_particles_app (l1 l2 : list P.t) :
  draw_particles (length l1) (l1 ++ l2)
  = List.filter survives (P.update <$> l1) ++ l2.
Proof.
  revert l2. induction l1 as [|p0 l IH] using rev_ind; intros l2.
  - reflexivity.
  - rewrite length_app, Nat.add_1_r. simpl.
    rewrite <- app_assoc. simpl.
    rewrite (list_lookup_middle l l2 p0 (length l) eq_refl).
    rewrite fmap_app, List.filter_app. simpl.
    replace (<[length l:=P.update p0]> (l ++ p0 :: l2))
      with (l ++ P.update p0 :: l2)
      by (rewrite insert_app_r_alt, Nat.sub_diag by lia; reflexivity).
    unfold survives at 2.
    destruct (P.faded (P.update p0)) eqn:Hf.
    + rewrite (faded_not_arrived _ Hf). simpl.
      rewrite delete_middle, IH, app_nil_r. reflexivity.
    + destruct (P.arrived (P.update p0)) eqn:Ha; simpl.
      * rewrite delete_middle, IH, app_nil_r. reflexivity.
      * rewrite IH, <- app_assoc. reflexivity.
Qed.

Lemma draw_particles_filter (ps : list P.t) :
  draw_particles (length ps) ps = List.filter survives (P.update <$> ps).
Proof.
  pose proof (draw_particles_app ps []) as H.
  rewrite !app_nil_r in H. exact H.
Qed.

Lemma elem_of_draw s q :
  q ∈ dandelionParticles (draw s)
  <-> exists p, p ∈ dandelionParticles s /\ q = P.update p /\ survives q = true.
Proof.
  unfold draw; simpl. rewrite draw_particles_filter.
  rewrite list_elem_of_In, List.filter_In, <- list_elem_of_In, list_elem_of_fmap.
  split.
  - intros [(p & -> & Hp) Hs]. eauto.
  - intros (p & Hp & -> & Hs). eauto.
Qed.

(** ** Spawning *)

Lemma spawn_length mk js g : length (fst (spawn mk js g)) = length js.
Proof.
  revert g. induction js as [|j js IH]; intros g; simpl; [reflexivity|].
  destruct (mk j g) as [p g1]. specialize (IH g1).
  destruct (spawn mk js g1) as [ps g2]. simpl in *. congruence.
Qed.

(** Every spawned particle is [mk j g'] for an index of the loop and a state
    of the random source with the same stream. *)
Lemma spawn_elem mk js g p :
  (forall j g0, src (snd (mk j g0)) = src g0) ->
  p ∈ fst (spawn mk js g) ->
  exists j g', j ∈ js /\ src g' = src g /\ p = fst (mk j g').
Proof.
  intros Hmk. revert g. induction js as [|j js IH]; intros g; simpl.
  - intros H. inversion H.
  - specialize (Hmk j g) as Hj. destruct (mk j g) as [q g1] eqn:E.
    specialize (IH g1). destruct (spawn mk js g1) as [ps g2]. simpl in *.
    intros H. apply elem_of_cons in H as [->|H].
    + exists j, g. rewrite E. split; [left|]. auto.
    + destruct (IH H) as (j' & g' & Hin & Hsrc & ->).
      exists j', g'. split; [right; exact Hin|]. split; congruence.
Qed.

Lemma spawn_src mk js g :
  (forall j g0, src (snd (mk j g0)) = src g0) ->
  src (snd (spawn mk js g)) = src g.
Proof.
  intros Hmk. revert g. induction js as [|j js IH]; intros g; simpl; [reflexivity|].
  specialize (Hmk j g). destruct (mk j g) as [q g1].
  specialize (IH g1). destruct (spawn mk js g1) as [ps g2]. simpl in *. congruence.
Qed.

Lemma new_src x0 y0 ty col sz tx ty' a g :
  src (snd (P.new x0 y0 ty col sz tx ty' a g)) = src g.
Proof. rewrite new_eq. reflexivity. Qed.

Lemma spokeParticle_src w j g : src (snd (spokeParticle w j g)) = src g.
Proof. apply new_src. Qed.

Lemma dotParticle_src w j g : src (snd (dotParticle w j g)) = src g.
Proof. apply new_src. Qed.

Lemma wheelParticles_length w g :
  length (fst (wheelParticles w g)) = (spokeCount + dotCount)%nat.
Proof.
  unfold wheelParticles.
  pose proof (spawn_length (spokeParticle w) (seq 0 spokeCount) g) as H1.
  destruct (spawn (spokeParticle w) (seq 0 spokeCount) g) as [sp g1].
  pose proof (spawn_length (dotParticle w) (seq 0 dotCount) g1) as H2.
  destruct (spawn (dotParticle w) (seq 0 dotCount) g1) as [dp g2].
  rewrite !length_seq in *. simpl in *. rewrite length_app, H1, H2. reflexivity.
Qed.

Lemma wheelParticles_src w g : src (snd (wheelParticles w g)) = src g.
Proof.
  unfold wheelParticles.
  pose proof (spawn_src (spokeParticle w) (seq 0 spokeCount) g
                (spokeParticle_src w)) as H1.
  destruct (spawn (spokeParticle w) (seq 0 spokeCount) g) as [sp g1].
  pose proof (spawn_src (dotParticle w) (seq 0 dotCount) g1
                (dotParticle_src w)) as H2.
  destruct (spawn (dotParticle w) (seq 0 dotCount) g1) as [dp g2].
  simpl in *. congruence.
Qed.

Lemma wheelParticles_spawnedBy w g p :
  p ∈ fst (wheelParticles w g) -> spawnedBy (src g) w p.
Proof.
  unfold wheelParticles.
  pose proof (spawn_elem (spokeParticle w) (seq 0 spokeCount) g p
                (spokeParticle_src w)) as H1.
  pose proof (spawn_src (spokeParticle w) (seq 0 spokeCount) g
                (spokeParticle_src w)) as S1.
  destruct (spawn (spokeParticle w) (seq 0 spokeCount) g) as [sp g1].
  pose proof (spawn_elem (dotParticle w) (seq 0 dotCount) g1 p
                (dotParticle_src w)) as H2.
  destruct (spawn (dotParticle w) (seq 0 dotCount) g1) as [dp g2].
  cbn [fst snd] in *. intros H. apply elem_of_app in H as [H|H].
  - destruct (H1 H) as (j & g' & Hj & Hs & ->). exists j, g'.
    split; [exact Hs|]. left. split; [|reflexivity].
    apply list_elem_of_In, in_seq in Hj. lia.
  - destruct (H2 H) as (j & g' & Hj & Hs & ->). exists j, g'.
    split; [congruence|]. right. split; [|reflexivity].
    apply list_elem_of_In, in_seq in Hj. lia.
Qed.

(** ** Dispersal *)

Lemma blow_blow w : blow (blow w) = blow w.
Proof. reflexivity. Qed.

Lemma blowWheel_eq s g i w :
  wheels s !! i = Some w ->
  blowWheel (s, g) i
  = (mkState (<[i := blow w]> (wheels s))
             (dandelionParticles s ++ fst (wheelParticles (blow w) g))
             (blownAwayHistory s),
     snd (wheelParticles (blow w) g)).
Proof.
  intros H. unfold blowWheel. rewrite H.
  destruct (wheelParticles (blow w) g); reflexivity.
Qed.

(** The loop over [wheelsToBlow]: each listed wheel is blown, the others are
    left alone, and each listed wheel adds its particles at the end. *)
Lemma foldl_blowWheel (aff : list nat) : forall s g,
  (forall k, k ∈ aff -> (k < length (wheels s))%nat) ->
  let r := foldl blowWheel (s, g) aff in
  blownAwayHistory (fst r) = blownAwayHistory s
  /\ src (snd r) = src g
  /\ (forall k, wheels (fst r) !! k
                = if decide (k ∈ aff) then blow <$> wheels s !! k
                  else wheels s !! k)
  /\ exists new,
       dandelionParticles (fst r) = dandelionParticles s ++ new
       /\ length new = (length aff * (spokeCount + dotCount))%nat
       /\ forall p, p ∈ new ->
            exists k w, k ∈ aff /\ wheels s !! k = Some w
                        /\ spawnedBy (src g) (blow w) p.
Proof.
  induction aff as [|i aff IH]; intros s g Hlt; cbn [foldl].
  - split; [reflexivity|]. split; [reflexivity|]. split.
    + intros k. case_decide as Hk; [inversion Hk|reflexivity].
    + exists []. rewrite app_nil_r. split; [reflexivity|].
      split; [reflexivity|]. intros p Hp. inversion Hp.
  - destruct (lookup_lt_is_Some_2 (wheels s) i) as [w Hw].
    { apply Hlt. left. }
    rewrite (blowWheel_eq _ _ _ _ Hw).
    set (s1 := mkState _ _ _). set (g1 := snd _).
    destruct (IH s1 g1) as (Hh & Hs & Hwh & new & Hps & Hlen & Hnew).
    { intros k Hk. unfold s1; simpl. rewrite length_insert.
      apply Hlt. right. exact Hk. }
    assert (Hsrc : src g1 = src g) by apply wheelParticles_src.
    assert (Hs1 : forall k, wheels s1 !! k
                   = if decide (k = i) then Some (blow w) else wheels s !! k).
    { intros k. unfold s1; simpl. case_decide as E.
      - subst k. apply list_lookup_insert_eq. eapply lookup_lt_Some, Hw.
      - apply list_lookup_insert_ne. congruence. }
    split; [exact Hh|]. split; [congruence|]. split.
    + intros k. rewrite Hwh, Hs1, decide_elem_of_cons.
      destruct (decide (k = i)) as [->|Hne]; [|reflexivity].
      rewrite Hw. case_decide; reflexivity.
    + exists (fst (wheelParticles (blow w) g) ++ new).
      split; [rewrite Hps; unfold s1; simpl; apply eq_sym, app_assoc|].
      split; [rewrite length_app, Hlen, wheelParticles_length;
             unfold spokeCount, dotCount; simpl length; lia|].
      intros p Hp. apply elem_of_app in Hp as [Hp|Hp].
      * exists i, w. split; [left|]. split; [exact Hw|].
        apply wheelParticles_spawnedBy, Hp.
      * destruct (Hnew p Hp) as (k & w1 & Hk & Hw1 & Hsp).
        rewrite Hs1 in Hw1. rewrite Hsrc in Hsp.
        destruct (decide (k = i)) as [->|Hne].
        -- exists i, w. split; [left|]. split; [exact Hw|].
           inversion Hw1; subst w1. exact Hsp.
        -- exists k, w1. split; [right; exact Hk|]. split; assumption.
Qed.

Lemma elem_of_indicesOf test ws k :
  k ∈ indicesOf test ws <-> exists w, ws !! k = Some w /\ test w = true.
Proof.
  unfold indicesOf. rewrite list_elem_of_In, List.filter_In, in_seq.
  split.
  - intros [_ H]. destruct (ws !! k) as [w|]; [eauto|discriminate].
  - intros (w & Hw & Ht). rewrite Hw. split; [|exact Ht].
    apply lookup_lt_Some in Hw. lia.
Qed.

Lemma NoDup_indicesOf test ws : NoDup (indicesOf test ws).
Proof.
  unfold indicesOf. apply NoDup_ListNoDup, List.NoDup_filter, List.seq_NoDup.
Qed.

Lemma elem_of_affected s wheel k :
  k ∈ affected s wheel
  <-> exists w, wheels s !! k = Some w
        /\ Wheel.colors w !! 0%nat = Wheel.colors wheel !! 0%nat
        /\ Wheel.isBlownAway w = false.
Proof.
  unfold affected. rewrite elem_of_indicesOf. unfold toBlow.
  split; intros (w & Hw & H); exists w; (split; [exact Hw|]).
  - apply andb_true_iff in H as [H1 H2]. apply bool_decide_eq_true in H1.
    apply negb_true_iff in H2. auto.
  - destruct H as [H1 H2]. apply andb_true_iff. split.
    + apply bool_decide_eq_true, H1.
    + apply negb_true_iff, H2.
Qed.

Lemma affected_lt s wheel k : k ∈ affected s wheel -> (k < length (wheels s))%nat.
Proof.
  intros H. apply elem_of_affected in H as (w & Hw & _).
  eapply lookup_lt_Some, Hw.
Qed.

Lemma mousePressed_from_cases n s mx my g :
  (mousePressed_from n s mx my g = (s, g)
   /\ forall i w, (i < n)%nat -> wheels s !! i = Some w -> hit mx my w = false)
  \/ exists i wheel,
       (i < n)%nat /\ wheels s !! i = Some wheel /\ hit mx my wheel = true
       /\ (forall j w, (i < j < n)%nat -> wheels s !! j = Some w ->
                       hit mx my w = false)
       /\ mousePressed_from n s mx my g = disperse s wheel g.
Proof.
  induction n as [|n IH]; simpl.
  - left. split; [reflexivity|]. intros; lia.
  - destruct (wheels s !! n) as [wheel|] eqn:Hn.
    + fold (hit mx my wheel). destruct (hit mx my wheel) eqn:Hh.
      * right. exists n, wheel. repeat split; auto. intros; lia.
      * destruct IH as [[E H]|(i & w0 & Hi & Hw & Hh0 & Hab & E)].
        -- left. split; [exact E|]. intros i w Hi Hw.
           destruct (decide (i = n)) as [->|]; [congruence|].
           apply (H i); [lia|exact Hw].
        -- right. exists i, w0. repeat split; auto.
           intros j w Hj Hw'. destruct (decide (j = n)) as [->|]; [congruence|].
           apply (Hab j); [lia|exact Hw'].
    + destruct IH as [[E H]|(i & w0 & Hi & Hw & Hh0 & Hab & E)].
      * left. split; [exact E|]. intros i w Hi Hw.
        destruct (decide (i = n)) as [->|]; [congruence|].
        apply (H i); [lia|exact Hw].
      * right. exists i, w0. repeat split; auto.
        intros j w Hj Hw'. destruct (decide (j = n)) as [->|]; [congruence|].
        apply (Hab j); [lia|exact Hw'].
Qed.

(** A click either selects no wheel, and then nothing happens, or it selects
    one and disperses its colour group. *)
Lemma mousePressed_cases s mx my g :
  (mousePressed s mx my g = (s, g)
   /\ forall w, w ∈ wheels s -> hit mx my w = false)
  \/ exists i wheel,
       clicked s mx my i wheel
       /\ mousePressed s mx my g = disperse s wheel g.
Proof.
  unfold mousePressed.
  destruct (mousePressed_from_cases (length (wheels s)) s mx my g)
    as [[E H]|(i & w0 & Hi & Hw & Hh0 & Hab & E)].
  - left. split; [exact E|]. intros w Hw.
    apply list_elem_of_lookup in Hw as [i Hi].
    apply (H i); [eapply lookup_lt_Some, Hi|exact Hi].
  - right. exists i, w0. split; [|exact E]. repeat split; auto.
    intros j w Hj Hw'. apply (Hab j); [|exact Hw'].
    split; [exact Hj|eapply lookup_lt_Some, Hw'].
Qed.

Lemma clicked_unique s mx my i wheel i' wheel' :
  clicked s mx my i wheel -> clicked s mx my i' wheel' -> i = i' /\ wheel = wheel'.
Proof.
  intros (Hw & Hh & Hab) (Hw' & Hh' & Hab').
  destruct (Nat.lt_trichotomy i i') as [Hlt|[->|Hlt]].
  - rewrite (Hab i' wheel' Hlt Hw') in Hh'. discriminate.
  - split; congruence.
  - rewrite (Hab' i wheel Hlt Hw) in Hh. discriminate.
Qed.

Lemma mousePressed_clicked s mx my g i wheel :
  clicked s mx my i wheel -> mousePressed s mx my g = disperse s wheel g.
Proof.
  intros Hc.
  destruct (mousePressed_cases s mx my g) as [[_ H]|(i' & w' & Hc' & E)].
  - destruct Hc as (Hw & Hh & _).
    rewrite (H wheel) in Hh; [discriminate|]. eapply list_elem_of_lookup_2, Hw.
  - destruct (clicked_unique _ _ _ _ _ _ _ Hc Hc') as [_ ->]. exact E.
Qed.

Lemma clicked_affected s mx my i wheel :
  clicked s mx my i wheel -> i ∈ affected s wheel.
Proof.
  intros (Hw & Hh & _). apply elem_of_affected. exists wheel.
  split; [exact Hw|]. split; [reflexivity|].
  unfold hit in Hh. apply andb_true_iff in Hh as [_ Hh].
  apply negb_true_iff, Hh.
Qed.

Lemma clicked_nonempty s mx my i wheel :
  clicked s mx my i wheel -> affected s wheel <> [].
Proof.
  intros Hc E. pose proof (clicked_affected _ _ _ _ _ Hc) as Hi.
  rewrite E in Hi. inversion Hi.
Qed.

(** What dispersing a non-empty group does to the three arrays. *)
Lemma disperse_spec s wheel g :
  affected s wheel <> [] ->
  let r := disperse s wheel g in
  blownAwayHistory (fst r) = blownAwayHistory s ++ [affected s wheel]
  /\ src (snd r) = src g
  /\ (forall k, wheels (fst r) !! k
                = if decide (k ∈ affected s wheel) then blow <$> wheels s !! k
                  else wheels s !! k)
  /\ exists new,
       dandelionParticles (fst r) = dandelionParticles s ++ new
       /\ length new = (length (affected s wheel) * (spokeCount + dotCount))%nat
       /\ forall p, p ∈ new ->
            exists k w, k ∈ affected s wheel /\ wheels s !! k = Some w
                        /\ spawnedBy (src g) (blow w) p.
Proof.
  intros Hne. unfold disperse. fold (affected s wheel).
  rewrite decide_True by (destruct (affected s wheel); [congruence|simpl; lia]).
  set (s1 := mkState _ _ _).
  destruct (foldl_blowWheel (affected s wheel) s1 g) as (Hh & Hs & Hw & Hp).
  { intros k Hk. apply (affected_lt s wheel k Hk). }
  simpl. auto.
Qed.

Lemma disperse_empty s wheel g :
  affected s wheel = [] -> disperse s wheel g = (s, g).
Proof.
  intros E. unfold disperse. fold (affected s wheel). rewrite E.
  rewrite decide_False by (simpl; lia). reflexivity.
Qed.

(** ** Restoration *)

Lemma restore_restore w : restore (restore w) = restore w.
Proof. reflexivity. Qed.

Lemma returnsTo_restore w p : returnsTo (restore w) p = returnsTo w p.
Proof. reflexivity. Qed.

Lemma returnsTo_startReturn w p : returnsTo w (P.startReturn p) = returnsTo w p.
Proof. reflexivity. Qed.

Lemma matched_startReturn ws batch p :
  matched ws batch (P.startReturn p) = matched ws batch p.
Proof. reflexivity. Qed.

Lemma matched_cons ws i batch p :
  matched ws (i :: batch) p
  = match ws !! i with Some w => returnsTo w p | None => false end
    || matched ws batch p.
Proof. reflexivity. Qed.

Lemma matched_insert ws batch p i w :
  ws !! i = Some w ->
  matched (<[i := restore w]> ws) batch p = matched ws batch p.
Proof.
  intros Hw. unfold matched. induction batch as [|k batch IH]; simpl; [reflexivity|].
  rewrite IH. f_equal.
  destruct (decide (k = i)) as [->|Hne].
  - rewrite list_lookup_insert_eq by (eapply lookup_lt_Some, Hw).
    rewrite Hw. reflexivity.
  - rewrite list_lookup_insert_ne by congruence. reflexivity.
Qed.

Lemma restoreWheel_eq s i w :
  wheels s !! i = Some w ->
  restoreWheel s i
  = mkState (<[i := restore w]> (wheels s))
            ((fun p => if returnsTo w p then P.startReturn p else p)
               <$> dandelionParticles s)
            (blownAwayHistory s).
Proof. intros H. unfold restoreWheel. rewrite H. reflexivity. Qed.

Lemma restoreWheel_None s i : wheels s !! i = None -> restoreWheel s i = s.
Proof. intros H. unfold restoreWheel. rewrite H. reflexivity. Qed.

(** The loop over [wheelsToRestore]: each listed wheel is restored, the others
    are left alone, and a particle is sent back when some listed wheel passes
    the test on it. *)
Lemma foldl_restoreWheel (batch : list nat) : forall s,
  let r := foldl restoreWheel s batch in
  blownAwayHistory r = blownAwayHistory s
  /\ (forall k, wheels r !! k
                = if decide (k ∈ batch) then restore <$> wheels s !! k
                  else wheels s !! k)
  /\ dandelionParticles r = recall (wheels s) batch <$> dandelionParticles s.
Proof.
  induction batch as [|i batch IH]; intros s; cbn [foldl].
  - split; [reflexivity|]. split.
    + intros k. case_decide as Hk; [inversion Hk|reflexivity].
    + unfold recall; simpl. symmetry. apply list_fmap_id.
  - destruct (wheels s !! i) as [w|] eqn:Hw.
    + rewrite (restoreWheel_eq _ _ _ Hw). set (s1 := mkState _ _ _).
      destruct (IH s1) as (Hh & Hwh & Hps).
      assert (Hs1 : forall k, wheels s1 !! k
                     = if decide (k = i) then Some (restore w) else wheels s !! k).
      { intros k. unfold s1; simpl. case_decide as E.
        - subst k. apply list_lookup_insert_eq. eapply lookup_lt_Some, Hw.
        - apply list_lookup_insert_ne. congruence. }
      split; [exact Hh|]. split.
      * intros k. rewrite Hwh, Hs1, decide_elem_of_cons.
        destruct (decide (k = i)) as [->|Hne]; [|reflexivity].
        rewrite Hw. case_decide; reflexivity.
      * rewrite Hps. unfold s1; simpl. rewrite <- list_fmap_compose.
        apply list_fmap_ext. intros n p _. simpl.
        unfold recall. rewrite (matched_insert _ _ _ _ _ Hw).
        rewrite matched_cons, Hw.
        destruct (returnsTo w p); simpl.
        -- rewrite matched_startReturn. destruct (matched _ _ p); reflexivity.
        -- reflexivity.
    + rewrite (restoreWheel_None _ _ Hw).
      destruct (IH s) as (Hh & Hwh & Hps).
      split; [exact Hh|]. split.
      * intros k. rewrite Hwh, decide_elem_of_cons.
        destruct (decide (k = i)) as [->|Hne]; [|reflexivity].
        rewrite Hw. case_decide; reflexivity.
      * rewrite Hps. apply list_fmap_ext. intros n p _.
        unfold recall. rewrite matched_cons, Hw. reflexivity.
Qed.

Lemma pop_snoc {A} (l : list A) (a : A) : pop (l ++ [a]) = Some (a, l).
Proof. unfold pop. rewrite last_snoc, removelast_last. reflexivity. Qed.

(** The space bar with no history changes nothing. *)
Lemma keyPressed_empty s : blownAwayHistory s = [] -> keyPressed 32 s = s.
Proof. intros H. unfold keyPressed. rewrite H. reflexivity. Qed.

(** Other keys change nothing. *)
Lemma keyPressed_other keyCode s : keyCode <> 32%Z -> keyPressed keyCode s = s.
Proof. intros H. unfold keyPressed. rewrite decide_False by exact H. reflexivity. Qed.

(** The space bar with a history pops the last batch and restores it. *)
Lemma keyPressed_spec s rest batch :
  blownAwayHistory s = rest ++ [batch] ->
  let r := keyPressed 32 s in
  blownAwayHistory r = rest
  /\ (forall k, wheels r !! k
                = if decide (k ∈ batch) then restore <$> wheels s !! k
                  else wheels s !! k)
  /\ dandelionParticles r = recall (wheels s) batch <$> dandelionParticles s.
Proof.
  intros H. unfold keyPressed. rewrite decide_True by reflexivity.
  rewrite H, pop_snoc.
  apply (foldl_restoreWheel batch (mkState (wheels s) (dandelionParticles s) rest)).
Qed.

Lemma list_snoc_cases {A} (l : list A) : l = [] \/ exists l' a, l = l' ++ [a].
Proof.
  induction l as [|a l _] using rev_ind; [left; reflexivity|right; eauto].
Qed.

(** ** Containment *)

Lemma contains_iff w px py :
  0 < Wheel.radius w ->
  Wheel.contains w px py = true
  <-> (Wheel.x w - px) * (Wheel.x w - px) + (Wheel.y w - py) * (Wheel.y w - py)
      < Wheel.radius w * Wheel.radius w.
Proof.
  intros Hr. unfold Wheel.contains. rewrite bool_decide_eq_true.
  apply dist_lt_iff, Hr.
Qed.

Lemma contains_false w px py :
  0 < Wheel.radius w ->
  Wheel.radius w * Wheel.radius w
  <= (Wheel.x w - px) * (Wheel.x w - px) + (Wheel.y w - py) * (Wheel.y w - py) ->
  Wheel.contains w px py = false.
Proof.
  intros Hr H. destruct (Wheel.contains w px py) eqn:E; [|reflexivity].
  apply contains_iff in E; [lra|exact Hr].
Qed.

(** ** The example states *)

Lemma rng0_ok : rng_ok rng0.
Proof. intros n. simpl. lra. Qed.

(** The constructor builds a fresh wheel. *)
Lemma new_fresh x0 y0 r palette g : fresh (fst (Wheel.new x0 y0 r palette g)).
Proof. unfold Wheel.new, random1, uniform. repeat split. Qed.

Lemma start_initial : initial start.
Proof.
  split; [|split; reflexivity].
  repeat constructor.
Qed.

Lemma clicked_start_A : clicked start 100 100 0 wheelA.
Proof.
  split; [reflexivity|]. split.
  - unfold hit. apply andb_true_iff. split; [|reflexivity].
    apply contains_iff; simpl; lra.
  - intros j w Hj Hw. destruct j as [|[|j]]; [lia| |discriminate].
    inversion Hw; subst w. unfold hit.
    rewrite contains_false; [reflexivity|simpl; lra|simpl; lra].
Qed.

Lemma clicked_start_B : clicked start 180 100 1 wheelB.
Proof.
  split; [reflexivity|]. split.
  - unfold hit. apply andb_true_iff. split; [|reflexivity].
    apply contains_iff; simpl; lra.
  - intros j w Hj Hw. destruct j as [|[|j]]; [lia|lia|discriminate].
Qed.

Lemma affected_start_A : affected start wheelA = [0%nat].
Proof. reflexivity. Qed.

Lemma affected_start_B : affected start wheelB = [1%nat].
Proof. reflexivity. Qed.

(** ** Dispersal: one batch, 64 particles per affected wheel *)

(** C2. A click that selects a wheel disperses the [N] wheels that are not
    blown away and share its base colour, the clicked one among them: one
    batch, that very list, is pushed on the history, exactly
    [N * (24 + 40) = N * 64] particles are appended to the live particles,
    and every affected wheel ends blown away with [innerAlpha = 0]. *)
Theorem dispersal_batch s mouseX mouseY g i wheel :
  clicked s mouseX mouseY i wheel ->
  let s' := fst (mousePressed s mouseX mouseY g) in
  let N := length (affected s wheel) in
  i ∈ affected s wheel
  /\ NoDup (affected s wheel)
  /\ (forall k, k ∈ affected s wheel
        <-> exists w, wheels s !! k = Some w
              /\ Wheel.colors w !! 0%nat = Wheel.colors wheel !! 0%nat
              /\ Wheel.isBlownAway w = false)
  /\ blownAwayHistory s' = blownAwayHistory s ++ [affected s wheel]
  /\ (exists new, dandelionParticles s' = dandelionParticles s ++ new
        /\ length new = (N * (spokeCount + dotCount))%nat
        /\ length new = (N * 64)%nat)
  /\ (forall k, k ∈ affected s wheel ->
        exists w', wheels s' !! k = Some w'
          /\ Wheel.isBlownAway w' = true /\ Wheel.innerAlpha w' = 0).
Proof.
  intros Hc s' N. subst s'.
  pose proof (clicked_affected _ _ _ _ _ Hc) as Hi.
  rewrite (mousePressed_clicked _ _ _ g _ _ Hc).
  destruct (disperse_spec s wheel g (clicked_nonempty _ _ _ _ _ Hc))
    as (Hh & _ & Hw & new & Hps & Hlen & _).
  split; [exact Hi|]. split; [apply NoDup_indicesOf|].
  split; [intros k; apply elem_of_affected|].
  split; [exact Hh|]. split.
  - exists new. split; [exact Hps|]. split; exact Hlen.
  - intros k Hk. rewrite Hw, decide_True by exact Hk.
    apply elem_of_affected in Hk as (w & Hk & _). rewrite Hk.
    exists (blow w). repeat split.
Qed.

(** C2 on a click at the centre of [wheelA] in the start state: one batch,
    64 particles. *)
Lemma dispersal_batch_witness :
  clicked start 100 100 0 wheelA
  /\ blownAwayHistory (fst (mousePressed start 100 100 rng0)) = [[0%nat]]
  /\ length (dandelionParticles (fst (mousePressed start 100 100 rng0))) = 64%nat.
Proof.
  split; [exact clicked_start_A|].
  destruct (dispersal_batch start 100 100 rng0 0 wheelA clicked_start_A)
    as (_ & _ & _ & Hh & (new & Hps & _ & Hlen) & _).
  split; [exact Hh|]. rewrite Hps. exact Hlen.
Defined.

(** ** Restoration: one batch popped, or nothing at all *)

(** C3. The space bar with a non-empty history pops exactly the most recent
    batch; every wheel of that batch ends with [isBlownAway = false] and
    [innerAlpha = 0], its other fields kept, and every wheel outside the
    batch is unchanged.  With an empty history the key changes nothing:
    no wheel, no particle, no history entry. *)
Theorem restoration_pops_one_batch s :
  (blownAwayHistory s = [] -> keyPressed 32 s = s)
  /\ (forall rest batch,
        blownAwayHistory s = rest ++ [batch] ->
        let s' := keyPressed 32 s in
        blownAwayHistory s' = rest
        /\ length (wheels s') = length (wheels s)
        /\ (forall k w, k ∈ batch -> wheels s !! k = Some w ->
              exists w', wheels s' !! k = Some w'
                /\ Wheel.isBlownAway w' = false /\ Wheel.innerAlpha w' = 0
                /\ w' = restore w)
        /\ (forall k, k ∉ batch -> wheels s' !! k = wheels s !! k)).
Proof.
  split; [apply keyPressed_empty|].
  intros rest batch H s'. subst s'.
  destruct (keyPressed_spec s rest batch H) as (Hh & Hw & _).
  split; [exact Hh|]. split.
  - apply Nat.le_antisymm.
    + apply Nat.nlt_ge. intros Hlt.
      destruct (lookup_lt_is_Some_2 _ _ Hlt) as [w Hk].
      rewrite Hw in Hk. rewrite lookup_ge_None_2 in Hk by lia.
      case_decide; discriminate.
    + apply Nat.nlt_ge. intros Hlt.
      destruct (lookup_lt_is_Some_2 _ _ Hlt) as [w Hk].
      pose proof (Hw (length (wheels (keyPressed 32 s)))) as E.
      rewrite lookup_ge_None_2 in E by lia. rewrite Hk in E.
      case_decide; discriminate.
  - split.
    + intros k w Hk Hkw. rewrite Hw, decide_True, Hkw by exact Hk.
      exists (restore w). repeat split.
    + intros k Hk. rewrite Hw, decide_False by exact Hk. reflexivity.
Qed.

(** C3 with an empty history and with a history of one batch. *)
Lemma restoration_pops_one_batch_witness :
  keyPressed 32 start = start
  /\ blownAwayHistory (keyPressed 32 blownA) = []
  /\ wheels (keyPressed 32 blownA) !! 0%nat = Some (restore wheelA).
Proof.
  split.
  - apply (proj1 (restoration_pops_one_batch start)). reflexivity.
  - destruct (proj2 (restoration_pops_one_batch blownA) [] [0%nat] eq_refl)
      as (Hh & _ & Hb & _).
    split; [exact Hh|].
    destruct (Hb 0%nat (blow wheelA)) as (w' & Hw' & _ & _ & ->);
      [left|reflexivity|exact Hw'].
Defined.

(** ** Clicks that select nothing *)

Lemma hit_false_iff mx my w :
  hit mx my w = false
  <-> (Wheel.contains w mx my = true -> Wheel.isBlownAway w = true).
Proof.
  unfold hit. destruct (Wheel.contains w mx my), (Wheel.isBlownAway w); simpl;
    split; auto; try discriminate. intros H. discriminate H. reflexivity.
Qed.

Lemma clicked_grows s mx my g i wheel :
  clicked s mx my i wheel ->
  blownAwayHistory (fst (mousePressed s mx my g))
  = blownAwayHistory s ++ [affected s wheel].
Proof.
  intros Hc. rewrite (mousePressed_clicked _ _ _ g _ _ Hc).
  apply (disperse_spec s wheel g (clicked_nonempty _ _ _ _ _ Hc)).
Qed.

(** The state after the first click of the example: [wheelB] is dispersed,
    [wheelA] is not. *)
Lemma after_click_B :
  let s := fst (mousePressed start 180 100 rng0) in
  wheels s !! 0%nat = Some wheelA
  /\ wheels s !! 1%nat = Some (blow wheelB)
  /\ (forall j, (1 < j)%nat -> wheels s !! j = None)
  /\ blownAwayHistory s = [[1%nat]]
  /\ length (dandelionParticles s) = 64%nat.
Proof.
  intros s. subst s. rewrite (mousePressed_clicked _ _ _ rng0 _ _ clicked_start_B).
  destruct (disperse_spec start wheelB rng0) as (Hh & _ & Hw & new & Hps & Hlen & _).
  { rewrite affected_start_B. discriminate. }
  rewrite affected_start_B in *.
  split; [rewrite Hw; reflexivity|]. split; [rewrite Hw; reflexivity|].
  split; [|split; [exact Hh|rewrite Hps; exact Hlen]].
  intros j Hj. rewrite Hw. destruct j as [|[|j]]; [lia|lia|].
  case_decide; reflexivity.
Qed.

Lemma clicked_after_click_B :
  clicked (fst (mousePressed start 180 100 rng0)) 140 100 0 wheelA.
Proof.
  destruct after_click_B as (H0 & H1 & H2 & _).
  split; [exact H0|]. split.
  - unfold hit. apply andb_true_iff. split; [|reflexivity].
    apply contains_iff; simpl; lra.
  - intros j w Hj Hw. destruct (decide (j = 1%nat)) as [->|Hne].
    + rewrite H1 in Hw. inversion Hw; subst w. unfold hit.
      apply andb_false_iff. right. reflexivity.
    + rewrite H2 in Hw by lia. discriminate.
Qed.

(** C4, as stated, fails: after a click has dispersed [wheelB], a click in
    the overlap of the two wheels hits [wheelB], the topmost wheel there and
    already dispersed, and yet the state changes, because the loop goes on
    to [wheelA] underneath. *)
Lemma click_on_dispersed_counterexample :
  let s := fst (mousePressed start 180 100 rng0) in
  reachable s
  /\ (exists w, wheels s !! 1%nat = Some w
        /\ (forall j, (1 < j)%nat -> wheels s !! j = None)
        /\ Wheel.contains w 140 100 = true
        /\ Wheel.isBlownAway w = true)
  /\ fst (mousePressed s 140 100 rng0) <> s.
Proof.
  intros s. split; [|split].
  - eapply reach_step; [apply reach_init, start_initial|].
    apply step_mouse, rng0_ok.
  - destruct after_click_B as (_ & H1 & H2 & _).
    exists (blow wheelB). split; [exact H1|]. split; [exact H2|].
    split; [|reflexivity]. apply contains_iff; simpl; lra.
  - intros E.
    pose proof (clicked_grows s 140 100 rng0 0 wheelA clicked_after_click_B) as Hh.
    fold s in Hh. rewrite E in Hh. apply (f_equal length) in Hh.
    rewrite length_app in Hh. simpl in Hh. lia.
Qed.

(** C4, amended.  A click at a point where every wheel that contains the
    point is already blown away (in particular where no wheel contains it)
    leaves the wheels, the particles and the history unchanged, and draws
    nothing from the random source.  At any other point there is a topmost
    wheel that contains the point and is not blown away, every wheel above
    it that contains the point being blown away; the click skips those and
    disperses the colour group of that wheel: the one batch pushed lists the
    wheels not blown away that share its base colour, itself among them,
    these wheels and no other are blown, and 64 particles are appended for
    each of them. *)
Theorem click_without_target s mouseX mouseY g :
  ((forall w, w ∈ wheels s -> Wheel.contains w mouseX mouseY = true ->
              Wheel.isBlownAway w = true) ->
   mousePressed s mouseX mouseY g = (s, g))
  /\ ((exists w, w ∈ wheels s /\ Wheel.contains w mouseX mouseY = true
                 /\ Wheel.isBlownAway w = false) ->
      exists i wheel,
        wheels s !! i = Some wheel
        /\ Wheel.contains wheel mouseX mouseY = true
        /\ Wheel.isBlownAway wheel = false
        /\ (forall j w, (i < j)%nat -> wheels s !! j = Some w ->
              Wheel.contains w mouseX mouseY = true ->
              Wheel.isBlownAway w = true))
  /\ (forall i wheel,
        wheels s !! i = Some wheel ->
        Wheel.contains wheel mouseX mouseY = true ->
        Wheel.isBlownAway wheel = false ->
        (forall j w, (i < j)%nat -> wheels s !! j = Some w ->
           Wheel.contains w mouseX mouseY = true ->
           Wheel.isBlownAway w = true) ->
        let s' := fst (mousePressed s mouseX mouseY g) in
        blownAwayHistory s' = blownAwayHistory s ++ [affected s wheel]
        /\ i ∈ affected s wheel
        /\ (forall k, k ∈ affected s wheel
              <-> exists w, wheels s !! k = Some w
                    /\ Wheel.colors w !! 0%nat = Wheel.colors wheel !! 0%nat
                    /\ Wheel.isBlownAway w = false)
        /\ (forall k, wheels s' !! k
                      = if decide (k ∈ affected s wheel)
                        then blow <$> wheels s !! k
                        else wheels s !! k)
        /\ exists new,
             dandelionParticles s' = dandelionParticles s ++ new
             /\ length new = (length (affected s wheel) * 64)%nat).
Proof.
  split; [|split].
  - intros H.
    destruct (mousePressed_cases s mouseX mouseY g) as [[E _]|(i & w & Hc & _)];
      [exact E|].
    destruct Hc as (Hw & Hh & _). apply list_elem_of_lookup_2 in Hw.
    assert (hit mouseX mouseY w = false) as Hf by (apply hit_false_iff, H, Hw).
    congruence.
  - intros (w & Hw & Hc & Hb).
    destruct (mousePressed_cases s mouseX mouseY g)
      as [[_ H]|(i & wheel & (Hi & Hh & Hab) & _)].
    + specialize (H w Hw). apply hit_false_iff in H; [congruence|exact Hc].
    + exists i, wheel. unfold hit in Hh. apply andb_true_iff in Hh as [Hh1 Hh2].
      apply negb_true_iff in Hh2. split; [exact Hi|]. split; [exact Hh1|].
      split; [exact Hh2|]. intros j w' Hj Hw' Hc'.
      apply (proj1 (hit_false_iff mouseX mouseY w') (Hab j w' Hj Hw') Hc').
  - intros i wheel Hi Hcon Hnb Hab s'.
    assert (Hc : clicked s mouseX mouseY i wheel).
    { split; [exact Hi|]. split.
      - unfold hit. rewrite Hcon, Hnb. reflexivity.
      - intros j w Hj Hw. apply hit_false_iff, (Hab j w Hj Hw). }
    subst s'. rewrite (mousePressed_clicked _ _ _ g _ _ Hc).
    destruct (disperse_spec s wheel g (clicked_nonempty _ _ _ _ _ Hc))
      as (Hh & _ & Hw & new & Hps & Hlen & _).
    split; [exact Hh|]. split; [apply (clicked_affected _ _ _ _ _ Hc)|].
    split; [intros k; apply elem_of_affected|]. split; [exact Hw|].
    exists new. split; [exact Hps|exact Hlen].
Qed.

(** C4, amended, on a click outside both wheels of the example and, after
    a first click has dispersed [wheelB], on a click in the overlap of the
    two wheels: the batch pushed is the group of [wheelA] underneath. *)
Lemma click_without_target_witness :
  mousePressed start 0 0 rng0 = (start, rng0)
  /\ let s := fst (mousePressed start 180 100 rng0) in
     let s' := fst (mousePressed s 140 100 rng0) in
     exists batch,
       blownAwayHistory s' = [[1%nat]; batch]
       /\ 0%nat ∈ batch /\ ~ (1%nat ∈ batch)
       /\ wheels s' !! 0%nat = Some (blow wheelA)
       /\ wheels s' !! 1%nat = Some (blow wheelB).
Proof.
  split.
  - apply (proj1 (click_without_target start 0 0 rng0)).
    intros w Hw Hc. exfalso.
    apply elem_of_cons in Hw as [->|Hw];
      [|apply list_elem_of_singleton in Hw; subst w];
      apply contains_iff in Hc; simpl in *; lra.
  - intros s s'. destruct after_click_B as (H0 & H1 & H2 & Hh & _).
    fold s in H0, H1, H2, Hh.
    destruct (proj2 (proj2 (click_without_target s 140 100 rng0)) 0%nat wheelA)
      as (Hh' & Hin & Hiff & Hw & _).
    + exact H0.
    + apply contains_iff; simpl; lra.
    + reflexivity.
    + intros j w Hj Hw _. destruct (decide (j = 1%nat)) as [->|Hne].
      * rewrite H1 in Hw. inversion Hw. reflexivity.
      * rewrite H2 in Hw by lia. discriminate.
    + fold s' in Hh', Hw. exists (affected s wheelA).
      assert (Hnot : ~ (1%nat ∈ affected s wheelA)).
      { intros Hk. apply Hiff in Hk as (w & Hk & _ & Hb).
        rewrite H1 in Hk. inversion Hk; subst w. discriminate. }
      split; [rewrite Hh', Hh; reflexivity|]. split; [exact Hin|].
      split; [exact Hnot|]. split.
      * rewrite Hw, decide_True by exact Hin. rewrite H0. reflexivity.
      * rewrite Hw, decide_False by exact Hnot. exact H1.
Defined.

(** ** How each event changes wheels and particles *)

Lemma draw_wheels s k :
  wheels (draw s) !! k = Wheel.updateAlpha <$> wheels s !! k.
Proof. unfold draw; simpl. apply list_lookup_fmap. Qed.

Lemma mousePressed_wheels s mx my g k :
  wheels (fst (mousePressed s mx my g)) !! k = wheels s !! k
  \/ wheels (fst (mousePressed s mx my g)) !! k = blow <$> wheels s !! k.
Proof.
  destruct (mousePressed_cases s mx my g) as [[E _]|(i & w & Hc & E)]; rewrite E.
  - left. reflexivity.
  - destruct (disperse_spec s w g (clicked_nonempty _ _ _ _ _ Hc))
      as (_ & _ & Hw & _).
    rewrite Hw. case_decide; auto.
Qed.

Lemma keyPressed_cases keyCode s :
  keyPressed keyCode s = s
  \/ exists rest batch,
       blownAwayHistory s = rest ++ [batch]
       /\ keyPressed keyCode s = keyPressed 32 s.
Proof.
  destruct (decide (keyCode = 32%Z)) as [->|Hne].
  - destruct (list_snoc_cases (blownAwayHistory s)) as [E|(rest & batch & E)].
    + left. apply keyPressed_empty, E.
    + right. eauto.
  - left. apply keyPressed_other, Hne.
Qed.

Lemma keyPressed_wheels keyCode s k :
  wheels (keyPressed keyCode s) !! k = wheels s !! k
  \/ wheels (keyPressed keyCode s) !! k = restore <$> wheels s !! k.
Proof.
  destruct (keyPressed_cases keyCode s) as [E|(rest & batch & H & E)]; rewrite E.
  - left. reflexivity.
  - destruct (keyPressed_spec s rest batch H) as (_ & Hw & _).
    rewrite Hw. case_decide; auto.
Qed.

(** A property of wheels that holds of fresh wheels and that [updateAlpha],
    [blow] and [restore] keep holds of every wheel of every reachable state. *)
Lemma reachable_wheels (Q : Wheel.t -> Prop) :
  (forall w, fresh w -> Q w) ->
  (forall w, Q w -> Q (Wheel.updateAlpha w)) ->
  (forall w, Q w -> Q (blow w)) ->
  (forall w, Q w -> Q (restore w)) ->
  forall s, reachable s -> Forall Q (wheels s).
Proof.
  intros Hf Hu Hb Hr s Hs. induction Hs as [s [Hi _]|s s' _ IH Hst].
  - eapply Forall_impl; [exact Hi|exact Hf].
  - rewrite Forall_lookup in IH. apply Forall_lookup. intros k w' Hk.
    destruct Hst as [s|s mx my g _|s keyCode|s s' [Hi _]].
    + rewrite draw_wheels in Hk. destruct (wheels s !! k) as [w|] eqn:E;
        [|discriminate]. inversion Hk; subst w'. apply Hu, (IH k), E.
    + destruct (mousePressed_wheels s mx my g k) as [E|E]; rewrite E in Hk.
      * apply (IH k), Hk.
      * destruct (wheels s !! k) as [w|] eqn:E'; [|discriminate].
        inversion Hk; subst w'. apply Hb, (IH k), E'.
    + destruct (keyPressed_wheels keyCode s k) as [E|E]; rewrite E in Hk.
      * apply (IH k), Hk.
      * destruct (wheels s !! k) as [w|] eqn:E'; [|discriminate].
        inversion Hk; subst w'. apply Hr, (IH k), E'.
    + rewrite Forall_lookup in Hi. apply Hf, (Hi k), Hk.
Qed.

(** ** The fade of a wheel *)

Lemma wheelInv_zero w :
  Wheel.targetInnerAlpha w = 255 -> Wheel.fadeSpeed w = 5 ->
  Wheel.innerAlpha w = 0 -> wheelInv w.
Proof.
  intros Ht Hf Ha. split; [exact Ht|]. split; [exact Hf|]. split; [|auto].
  exists 0%nat. split; [lia|]. simpl. lra.
Qed.

Lemma wheelInv_fresh w : fresh w -> wheelInv w.
Proof. intros (_ & Ha & Ht & Hf). apply wheelInv_zero; assumption. Qed.

Lemma wheelInv_blow w : wheelInv w -> wheelInv (blow w).
Proof. intros (Ht & Hf & _). apply wheelInv_zero; simpl; auto. Qed.

Lemma wheelInv_restore w : wheelInv w -> wheelInv (restore w).
Proof. intros (Ht & Hf & _). apply wheelInv_zero; simpl; auto. Qed.

(** One step of the fade of a wheel that is not blown away. *)
Lemma updateAlpha_step w :
  wheelInv w -> Wheel.isBlownAway w = false ->
  Wheel.innerAlpha (Wheel.updateAlpha w) = Rmin (Wheel.innerAlpha w + 5) 255
  /\ (Wheel.innerAlpha w < 255 ->
      Wheel.innerAlpha (Wheel.updateAlpha w) = Wheel.innerAlpha w + 5)
  /\ (Wheel.innerAlpha w = 255 -> Wheel.innerAlpha (Wheel.updateAlpha w) = 255).
Proof.
  intros (Ht & Hf & (k & Hk & Ha) & _) Hb.
  unfold Wheel.updateAlpha. rewrite Hb, Ht, Hf.
  assert (Hk' : (k <= 50)%nat \/ k = 51%nat) by lia.
  destruct Hk' as [Hk' | ->].
  - apply le_INR in Hk'.
    assert (INR 50 = 50) as E50 by (rewrite INR_IZR_INZ; reflexivity).
    rewrite E50 in Hk'.
    rewrite decide_True by lra. simpl.
    rewrite Rmin_left by lra. repeat split; auto; lra.
  - assert (INR 51 = 51) as E51 by (rewrite INR_IZR_INZ; reflexivity).
    rewrite E51 in Ha.
    rewrite decide_False by lra. rewrite Ha.
    rewrite Rmin_right by lra. repeat split; intros; lra.
Qed.

Lemma wheelInv_updateAlpha w : wheelInv w -> wheelInv (Wheel.updateAlpha w).
Proof.
  intros Hw. destruct (Wheel.isBlownAway w) eqn:Hb.
  - destruct Hw as (Ht & Hf & _). unfold Wheel.updateAlpha. rewrite Hb.
    apply wheelInv_zero; simpl; auto.
  - destruct (updateAlpha_step w Hw Hb) as (_ & Hlt & Heq).
    destruct Hw as (Ht & Hf & (k & Hk & Ha) & Hz).
    assert (Hfields : Wheel.targetInnerAlpha (Wheel.updateAlpha w) = 255
                      /\ Wheel.fadeSpeed (Wheel.updateAlpha w) = 5
                      /\ Wheel.isBlownAway (Wheel.updateAlpha w) = false).
    { unfold Wheel.updateAlpha. rewrite Hb. case_decide; simpl; auto. }
    destruct Hfields as (Ht' & Hf' & Hb').
    split; [exact Ht'|]. split; [exact Hf'|]. split; [|congruence].
    assert (Hk' : (k <= 50)%nat \/ k = 51%nat) by lia.
    assert (INR 51 = 51) as E51 by (rewrite INR_IZR_INZ; reflexivity).
    destruct Hk' as [Hk' | ->].
    + exists (S k). split; [lia|]. rewrite Hlt.
      * rewrite S_INR. lra.
      * apply le_INR in Hk'.
        assert (INR 50 = 50) as E50 by (rewrite INR_IZR_INZ; reflexivity). lra.
    + exists 51%nat. split; [lia|]. rewrite Heq; lra.
Qed.

Lemma reachable_wheelInv s : reachable s -> Forall wheelInv (wheels s).
Proof.
  apply reachable_wheels.
  - apply wheelInv_fresh.
  - apply wheelInv_updateAlpha.
  - apply wheelInv_blow.
  - apply wheelInv_restore.
Qed.

(** C1. Between events, every wheel has [innerAlpha] in [0,255], and exactly
    0 while it is blown away (where [updateAlpha] keeps it).  While it is not
    blown away, a step of [updateAlpha] adds the fixed [fadeSpeed = 5], capped
    at 255: it never decreases the fade and never exceeds 255. *)
Theorem innerAlpha_range s w :
  reachable s -> w ∈ wheels s ->
  0 <= Wheel.innerAlpha w <= 255
  /\ (Wheel.isBlownAway w = true ->
      Wheel.innerAlpha w = 0 /\ Wheel.innerAlpha (Wheel.updateAlpha w) = 0)
  /\ (Wheel.isBlownAway w = false ->
      Wheel.fadeSpeed w = 5
      /\ Wheel.innerAlpha (Wheel.updateAlpha w)
         = Rmin (Wheel.innerAlpha w + Wheel.fadeSpeed w) 255
      /\ (Wheel.innerAlpha w < 255 ->
          Wheel.innerAlpha (Wheel.updateAlpha w)
          = Wheel.innerAlpha w + Wheel.fadeSpeed w)
      /\ Wheel.innerAlpha w <= Wheel.innerAlpha (Wheel.updateAlpha w) <= 255).
Proof.
  intros Hs Hw.
  pose proof (reachable_wheelInv s Hs) as Hall.
  rewrite Forall_forall in Hall. specialize (Hall w Hw).
  pose proof Hall as (Ht & Hf & (k & Hk & Ha) & Hz).
  assert (Hrange : 0 <= Wheel.innerAlpha w <= 255).
  { rewrite Ha. pose proof (pos_INR k). apply le_INR in Hk.
    assert (INR 51 = 51) as E51 by (rewrite INR_IZR_INZ; reflexivity). lra. }
  split; [exact Hrange|]. split.
  - intros Hb. split; [auto|]. unfold Wheel.updateAlpha. rewrite Hb. reflexivity.
  - intros Hb. destruct (updateAlpha_step w Hall Hb) as (Hmin & Hlt & Heq).
    rewrite Hf. split; [reflexivity|]. split; [exact Hmin|]. split; [exact Hlt|].
    rewrite Hmin. unfold Rmin. destruct (Rle_dec _ _); lra.
Qed.

(** C1 on [wheelA] in the start state: the first step of the fade. *)
Lemma innerAlpha_range_witness :
  reachable start /\ wheelA ∈ wheels start
  /\ Wheel.innerAlpha (Wheel.updateAlpha wheelA) = 0 + 5.
Proof.
  assert (Hr : reachable start) by apply reach_init, start_initial.
  assert (Hin : wheelA ∈ wheels start) by left.
  split; [exact Hr|]. split; [exact Hin|].
  destruct (innerAlpha_range start wheelA Hr Hin) as (_ & _ & H).
  destruct (H eq_refl) as (_ & _ & Hlt & _).
  apply Hlt. simpl. lra.
Defined.

(** ** Particles across events *)

Lemma spokeParticle_eq w j g :
  let angle := p5map (INR j) 0 (INR spokeCount) 0 TWO_PI in
  let px := Wheel.x w + cos angle * (Wheel.radius w * 0.8) in
  let py := Wheel.y w + sin angle * (Wheel.radius w * 0.8) in
  fst (spokeParticle w j g)
  = P.mk px py "spoke" (Wheel.colors w !! 3%nat) (Wheel.radius w * 0.03 * 5) 255
         px py px py
         (Vector.mult (src g (1 + pos g)%nat * (3 - 1) + 1)
            (Vector.fromAngle
               (src g (pos g) * ((PI + PI / 2) - (PI + PI / 4)) + (PI + PI / 4))))
         angle
         (src g (2 + pos g)%nat * (0.05 - (-0.05)) + (-0.05))
         (src g (3 + pos g)%nat * ((-0.05) - (-0.2)) + (-0.2))
         (src g (4 + pos g)%nat * (0.2 - 0.05) + 0.05)
         false 0.05.
Proof. intros. unfold spokeParticle. rewrite new_eq. reflexivity. Qed.

Lemma dotParticle_eq w j g :
  let angle := p5map (INR j) 0 (INR dotCount) 0 TWO_PI in
  let px := Wheel.x w + cos angle * (Wheel.radius w * 0.9) in
  let py := Wheel.y w + sin angle * (Wheel.radius w * 0.9) in
  fst (dotParticle w j g)
  = P.mk px py "outerDot" (Wheel.colors w !! 1%nat) (Wheel.radius w * 0.08) 255
         px py px py
         (Vector.mult (src g (1 + pos g)%nat * (3 - 1) + 1)
            (Vector.fromAngle
               (src g (pos g) * ((PI + PI / 2) - (PI + PI / 4)) + (PI + PI / 4))))
         0
         (src g (2 + pos g)%nat * (0.05 - (-0.05)) + (-0.05))
         (src g (3 + pos g)%nat * ((-0.05) - (-0.2)) + (-0.2))
         (src g (4 + pos g)%nat * (0.2 - 0.05) + 0.05)
         false 0.05.
Proof. intros. unfold dotParticle. rewrite new_eq. reflexivity. Qed.

(** A new particle is opaque, drifting, and has the constructor's
    [returnSpeed]. *)
Lemma spawnedBy_fields f w p :
  spawnedBy f w p ->
  P.alpha p = 255 /\ P.isReturning p = false /\ P.returnSpeed p = 0.05.
Proof.
  intros (j & g & _ & [[_ ->]|[_ ->]]).
  - rewrite spokeParticle_eq. repeat split.
  - rewrite dotParticle_eq. repeat split.
Qed.

Lemma mousePressed_particles s mx my g :
  exists new,
    dandelionParticles (fst (mousePressed s mx my g)) = dandelionParticles s ++ new
    /\ forall p, p ∈ new -> exists w, spawnedBy (src g) w p.
Proof.
  destruct (mousePressed_cases s mx my g) as [[E _]|(i & w & Hc & E)]; rewrite E.
  - exists []. rewrite app_nil_r. split; [reflexivity|]. intros p Hp. inversion Hp.
  - destruct (disperse_spec s w g (clicked_nonempty _ _ _ _ _ Hc))
      as (_ & _ & _ & new & Hps & _ & Hnew).
    exists new. split; [exact Hps|]. intros p Hp.
    destruct (Hnew p Hp) as (k & w' & _ & _ & H). eauto.
Qed.

Lemma recall_nil ws p : recall ws [] p = p.
Proof. reflexivity. Qed.

Lemma keyPressed_particles keyCode s :
  exists batch,
    dandelionParticles (keyPressed keyCode s)
    = recall (wheels s) batch <$> dandelionParticles s.
Proof.
  destruct (keyPressed_cases keyCode s) as [E|(rest & batch & H & E)]; rewrite E.
  - exists []. symmetry. apply list_fmap_id.
  - exists batch. apply (keyPressed_spec s rest batch H).
Qed.

(** A property of particles that holds of new particles, that [update] keeps
    on the particles that survive the frame and that [startReturn] keeps,
    holds of every live particle of every reachable state. *)
Lemma reachable_particles (Q : P.t -> Prop) :
  (forall f w p, (forall n, 0 <= f n < 1) -> spawnedBy f w p -> Q p) ->
  (forall p, Q p -> survives (P.update p) = true -> Q (P.update p)) ->
  (forall p, Q p -> Q (P.startReturn p)) ->
  forall s, reachable s -> Forall Q (dandelionParticles s).
Proof.
  intros Hn Hu Hr s Hs. induction Hs as [s (_ & Hi & _)|s s' _ IH Hst].
  - rewrite Hi. constructor.
  - destruct Hst as [s|s mx my g Hg|s keyCode|s s' (_ & Hi & _)].
    + apply Forall_forall. intros q Hq.
      apply elem_of_draw in Hq as (p & Hp & -> & Hsv).
      rewrite Forall_forall in IH. apply Hu; [apply IH, Hp|exact Hsv].
    + destruct (mousePressed_particles s mx my g) as (new & -> & Hnew).
      apply Forall_app. split; [exact IH|].
      apply Forall_forall. intros p Hp. destruct (Hnew p Hp) as [w Hw].
      apply (Hn (src g) w p Hg Hw).
    + destruct (keyPressed_particles keyCode s) as (batch & ->).
      apply Forall_fmap. eapply Forall_impl; [exact IH|].
      intros p Hp. simpl. unfold recall. destruct (matched _ _ _); auto.
    + rewrite Hi. constructor.
Qed.

(** ** The opacity of a particle *)

Lemma update_drift p :
  P.isReturning p = false ->
  P.update p
  = P.mk (P.x p + Vector.x (P.vel p)) (P.y p + Vector.y (P.vel p)) (P.type p)
         (P.color p) (P.size p * 0.99) (P.alpha p - 2) (P.originalX p)
         (P.originalY p) (P.targetX p) (P.targetY p)
         (Vector.add (P.windX p) (P.windY p) (P.vel p))
         (P.rotation p + P.rotationSpeed p) (P.rotationSpeed p) (P.windX p)
         (P.windY p) false (P.returnSpeed p).
Proof. intros H. unfold P.update. rewrite H. reflexivity. Qed.

Lemma update_isReturning p : P.isReturning (P.update p) = P.isReturning p.
Proof. unfold P.update. destruct (P.isReturning p) eqn:E; simpl; auto. Qed.

Lemma update_returnSpeed p : P.returnSpeed (P.update p) = P.returnSpeed p.
Proof. unfold P.update. destruct (P.isReturning p); reflexivity. Qed.

Lemma update_alpha_return p :
  P.isReturning p = true -> P.returnSpeed p = 0.05 ->
  P.alpha (P.update p) = 0.9 * P.alpha p.
Proof.
  intros H Hr. unfold P.update. rewrite H. simpl. rewrite Hr. unfold lerp. lra.
Qed.

(** [n] frames of drift. *)
Lemma iter_update_drift n p :
  P.isReturning p = false ->
  let q := Nat.iter n P.update p in
  P.isReturning q = false
  /\ P.alpha q = P.alpha p - 2 * INR n
  /\ P.rotation q = P.rotation p + INR n * P.rotationSpeed p
  /\ P.rotationSpeed q = P.rotationSpeed p
  /\ P.targetX q = P.targetX p /\ P.targetY q = P.targetY p
  /\ P.type q = P.type p.
Proof.
  intros H. induction n as [|n IH].
  - simpl. repeat split; auto; lra.
  - destruct IH as (Hr & Ha & Hrot & Hrs & Hx & Hy & Ht).
    rewrite Nat.iter_succ.
    rewrite (update_drift _ Hr). cbn [P.isReturning P.alpha P.rotation
      P.rotationSpeed P.targetX P.targetY P.type].
    rewrite S_INR, Ha, Hrot, Hrs. repeat split; auto; lra.
Qed.

Lemma survives_drift_pos q :
  P.isReturning q = false -> survives q = true -> 0 < P.alpha q.
Proof.
  unfold survives, P.faded. intros Hr H. rewrite Hr in H. simpl in H.
  apply negb_true_iff, orb_false_iff in H as [H _].
  rewrite andb_true_r in H. apply bool_decide_eq_false in H. lra.
Qed.

Lemma particleInv_update p :
  particleInv p -> survives (P.update p) = true -> particleInv (P.update p).
Proof.
  intros [Ha Hr] Hs. split; [|rewrite update_returnSpeed; exact Hr].
  destruct (P.isReturning p) eqn:E.
  - rewrite (update_alpha_return p E Hr). lra.
  - pose proof (survives_drift_pos (P.update p)) as Hpos.
    rewrite update_isReturning in Hpos. specialize (Hpos E Hs).
    rewrite (update_drift p E) in *. simpl in *. lra.
Qed.

(** C5, amended.  Between events every live particle has [alpha] in (0,255].
    [update] itself does not clamp: while [isReturning] is false it subtracts
    exactly 2, so the result is strictly smaller and may be negative (above
    -2); while [isReturning] is true it multiplies by 0.9, so the result
    stays in (0,255] and is no larger than before. *)
Theorem alpha_range s p :
  reachable s -> p ∈ dandelionParticles s ->
  0 < P.alpha p <= 255
  /\ (P.isReturning p = false ->
      P.alpha (P.update p) = P.alpha p - 2
      /\ P.alpha (P.update p) < P.alpha p
      /\ -2 < P.alpha (P.update p) <= 255)
  /\ (P.isReturning p = true ->
      P.alpha (P.update p) = 0.9 * P.alpha p
      /\ 0 < P.alpha (P.update p) <= P.alpha p).
Proof.
  intros Hs Hp.
  assert (Hall : Forall particleInv (dandelionParticles s)).
  { clear Hp. revert s Hs. apply reachable_particles.
    - intros f w q _ Hq. destruct (spawnedBy_fields f w q Hq) as (Ha & _ & Hr).
      split; [rewrite Ha; lra|exact Hr].
    - apply particleInv_update.
    - intros q [Ha Hr]. split; assumption. }
  rewrite Forall_forall in Hall. destruct (Hall p Hp) as [Ha Hr].
  split; [exact Ha|]. split; intros E.
  - rewrite (update_drift p E). simpl. repeat split; lra.
  - rewrite (update_alpha_return p E Hr). repeat split; lra.
Qed.

Lemma filter_all {A} (f : A -> bool) (l : list A) :
  (forall x, x ∈ l -> f x = true) -> List.filter f l = l.
Proof.
  induction l as [|a l IH]; intros H; simpl; [reflexivity|].
  rewrite (H a) by left. f_equal. apply IH. intros x Hx. apply H. right. exact Hx.
Qed.

Lemma reachable_iter_draw n s : reachable s -> reachable (Nat.iter n draw s).
Proof.
  intros H. induction n as [|n IH]; [exact H|].
  simpl. eapply reach_step; [exact IH|apply step_draw].
Qed.

(** While every particle is drifting and opaque enough, [n] frames update
    every particle [n] times and remove none. *)
Lemma iter_draw_drifting n s :
  (forall p, p ∈ dandelionParticles s ->
             P.isReturning p = false /\ 2 * INR n < P.alpha p) ->
  dandelionParticles (Nat.iter n draw s)
  = Nat.iter n P.update <$> dandelionParticles s.
Proof.
  induction n as [|n IH]; intros H.
  - simpl. symmetry. apply list_fmap_id.
  - rewrite Nat.iter_succ.
    unfold draw at 1; simpl. rewrite draw_particles_filter.
    rewrite IH.
    + rewrite <- list_fmap_compose. apply filter_all.
      intros q Hq. apply list_elem_of_fmap in Hq as (p & -> & Hp).
      destruct (H p Hp) as [Hr Ha].
      destruct (iter_update_drift (S n) p Hr) as (Hr' & Ha' & _).
      change ((P.update ∘ Nat.iter n P.update) p)
        with (Nat.iter (S n) P.update p).
      unfold survives, P.faded, P.arrived. rewrite Hr'. cbn [negb andb].
      rewrite andb_true_r, orb_false_r. apply negb_true_iff, bool_decide_eq_false.
      rewrite Ha'. lra.
    + intros p Hp. destruct (H p Hp) as [Hr Ha]. split; [exact Hr|].
      rewrite S_INR in Ha. lra.
Qed.

Lemma wheelParticles_head w g :
  exists ps, fst (wheelParticles w g) = fst (spokeParticle w 0 g) :: ps.
Proof.
  unfold wheelParticles. change (seq 0 spokeCount) with (0%nat :: seq 1 23).
  cbn [spawn]. destruct (spokeParticle w 0 g) as [p g1].
  destruct (spawn (spokeParticle w) (seq 1 23) g1) as [sp g2].
  destruct (spawn (dotParticle w) (seq 0 dotCount) g2) as [dp g3].
  exists (sp ++ dp). reflexivity.
Qed.

Lemma disperse_single s wheel g k w :
  affected s wheel = [k] -> wheels s !! k = Some w ->
  dandelionParticles (fst (disperse s wheel g))
  = dandelionParticles s ++ fst (wheelParticles (blow w) g).
Proof.
  intros E Hk. unfold disperse. fold (affected s wheel). rewrite E.
  rewrite decide_True by (simpl; lia). cbn [foldl].
  rewrite (blowWheel_eq _ _ _ w) by exact Hk. reflexivity.
Qed.

Lemma firstSpoke_spawned :
  exists ps,
    dandelionParticles (fst (mousePressed start 180 100 rng0)) = firstSpoke :: ps.
Proof.
  rewrite (mousePressed_clicked _ _ _ rng0 _ _ clicked_start_B).
  rewrite (disperse_single start wheelB rng0 1 wheelB affected_start_B eq_refl).
  apply wheelParticles_head.
Qed.

Lemma reachable_after_click_B : reachable (fst (mousePressed start 180 100 rng0)).
Proof.
  eapply reach_step; [apply reach_init, start_initial|].
  apply step_mouse, rng0_ok.
Qed.

(** C5, amended, on the first particle of the first click. *)
Lemma alpha_range_witness :
  reachable (fst (mousePressed start 180 100 rng0))
  /\ firstSpoke ∈ dandelionParticles (fst (mousePressed start 180 100 rng0))
  /\ P.alpha (P.update firstSpoke) = P.alpha firstSpoke - 2.
Proof.
  assert (Hin : firstSpoke ∈ dandelionParticles (fst (mousePressed start 180 100 rng0))).
  { destruct firstSpoke_spawned as [ps ->]. left. }
  split; [exact reachable_after_click_B|]. split; [exact Hin|].
  destruct (alpha_range _ _ reachable_after_click_B Hin) as (_ & H & _).
  apply H. unfold firstSpoke. rewrite spokeParticle_eq. reflexivity.
Defined.

(** C5, as stated, fails: 127 frames after the first click of the example,
    the particles it spawned are still live and drifting with [alpha = 1];
    the next [update] leaves [alpha = -1], outside [0,255]. *)
Lemma alpha_below_zero_counterexample :
  let s := Nat.iter 127 draw (fst (mousePressed start 180 100 rng0)) in
  let p := Nat.iter 127 P.update firstSpoke in
  reachable s
  /\ p ∈ dandelionParticles s
  /\ P.isReturning p = false
  /\ P.alpha p = 1
  /\ P.alpha (P.update p) = -1
  /\ ~ (0 <= P.alpha (P.update p) <= 255).
Proof.
  intros s p.
  assert (E127 : INR 127 = 127) by (rewrite INR_IZR_INZ; reflexivity).
  assert (Hfirst : P.isReturning firstSpoke = false /\ P.alpha firstSpoke = 255).
  { unfold firstSpoke. rewrite spokeParticle_eq. split; reflexivity. }
  destruct Hfirst as [Hr0 Ha0].
  assert (Hin : p ∈ dandelionParticles s).
  { unfold s, p. rewrite iter_draw_drifting.
    - destruct firstSpoke_spawned as [ps ->]. rewrite fmap_cons.
      apply list_elem_of_here.
    - intros q Hq.
      destruct (mousePressed_particles start 180 100 rng0) as (new & Hps & Hnew).
      rewrite Hps in Hq. rewrite app_nil_l in Hq.
      destruct (Hnew q Hq) as [w Hw].
      destruct (spawnedBy_fields _ _ _ Hw) as (Hqa & Hqr & _).
      split; [exact Hqr|]. rewrite Hqa, E127. lra. }
  destruct (iter_update_drift 127 firstSpoke Hr0) as (Hr & Ha & _).
  fold p in Hr, Ha. rewrite Ha0, E127 in Ha.
  split; [apply reachable_iter_draw, reachable_after_click_B|].
  split; [exact Hin|]. clear Hin. clearbody p s.
  assert (Hup : P.alpha (P.update p) = -1).
  { rewrite (update_drift p Hr). cbn [P.alpha]. lra. }
  split; [exact Hr|]. split; [lra|]. split; [exact Hup|]. lra.
Qed.

(** ** The undo history *)

Lemma updateAlpha_isBlownAway w :
  Wheel.isBlownAway (Wheel.updateAlpha w) = Wheel.isBlownAway w.
Proof.
  unfold Wheel.updateAlpha. destruct (Wheel.isBlownAway w) eqn:E; simpl; auto.
  case_decide; simpl; auto.
Qed.

Lemma historyInv_initial s : initial s -> historyInv s.
Proof.
  intros (_ & _ & H). unfold historyInv. rewrite H.
  split; [|split].
  - intros b k Hb. inversion Hb.
  - intros b Hb. inversion Hb.
  - intros i j b1 b2 k _ Hi. rewrite lookup_nil in Hi. discriminate.
Qed.

Lemma historyInv_draw s : historyInv s -> historyInv (draw s).
Proof.
  intros (H1 & H2 & H3). split; [|split; [exact H2|exact H3]].
  intros b k Hb Hk. destruct (H1 b k Hb Hk) as (w & Hw & Hbl).
  exists (Wheel.updateAlpha w). rewrite draw_wheels, Hw.
  split; [reflexivity|]. rewrite updateAlpha_isBlownAway. exact Hbl.
Qed.

Lemma historyInv_mousePressed s mx my g :
  historyInv s -> historyInv (fst (mousePressed s mx my g)).
Proof.
  intros (H1 & H2 & H3).
  destruct (mousePressed_cases s mx my g) as [[E _]|(i & wheel & Hc & E)]; rewrite E.
  - split; [exact H1|split; [exact H2|exact H3]].
  - pose proof (clicked_nonempty _ _ _ _ _ Hc) as Hne.
    destruct (disperse_spec s wheel g Hne) as (Hh & _ & Hw & _).
    assert (Hold : forall b k, b ∈ blownAwayHistory s -> k ∈ b ->
                               k ∉ affected s wheel).
    { intros b k Hb Hk Hin. destruct (H1 b k Hb Hk) as (w & Hkw & Hbl).
      apply elem_of_affected in Hin as (w' & Hkw' & _ & Hnb). congruence. }
    split; [|split].
    + intros b k Hb Hk. rewrite Hh in Hb. rewrite Hw.
      apply elem_of_app in Hb as [Hb|Hb].
      * destruct (H1 b k Hb Hk) as (w & Hkw & Hbl). rewrite Hkw.
        case_decide; [exists (blow w)|exists w]; auto.
      * apply list_elem_of_singleton in Hb. subst b.
        rewrite decide_True by exact Hk.
        apply elem_of_affected in Hk as (w & Hkw & _). rewrite Hkw.
        exists (blow w). auto.
    + intros b Hb. rewrite Hh in Hb. apply elem_of_app in Hb as [Hb|Hb].
      * apply H2, Hb.
      * apply list_elem_of_singleton in Hb. subst b.
        split; [apply NoDup_indicesOf|exact Hne].
    + intros a b b1 b2 k Hab Ha Hb Hk1 Hk2. rewrite Hh in Ha, Hb.
      apply lookup_app_Some in Ha as [Ha|[Hla Ha]];
        apply lookup_app_Some in Hb as [Hb|[Hlb Hb]].
      * apply (H3 a b b1 b2 k Hab Ha Hb Hk1 Hk2).
      * apply list_lookup_singleton_Some in Hb as [_ <-].
        apply (Hold b1 k); [eapply list_elem_of_lookup_2, Ha|exact Hk1|exact Hk2].
      * apply list_lookup_singleton_Some in Ha as [_ <-].
        apply (Hold b2 k); [eapply list_elem_of_lookup_2, Hb|exact Hk2|exact Hk1].
      * apply list_lookup_singleton_Some in Ha as [Ha _].
        apply list_lookup_singleton_Some in Hb as [Hb _]. lia.
Qed.

Lemma historyInv_keyPressed keyCode s :
  historyInv s -> historyInv (keyPressed keyCode s).
Proof.
  intros (H1 & H2 & H3).
  destruct (keyPressed_cases keyCode s) as [E|(rest & batch & H & E)]; rewrite E.
  - split; [exact H1|split; [exact H2|exact H3]].
  - destruct (keyPressed_spec s rest batch H) as (Hh & Hw & _).
    assert (Hlast : blownAwayHistory s !! length rest = Some batch).
    { rewrite H. apply list_lookup_middle. reflexivity. }
    assert (Hrest : forall a b, rest !! a = Some b ->
                      blownAwayHistory s !! a = Some b /\ a <> length rest).
    { intros a b Ha. split.
      - rewrite H. apply lookup_app_l_Some, Ha.
      - apply lookup_lt_Some in Ha. lia. }
    split; [|split].
    + intros b k Hb Hk. rewrite Hh in Hb.
      apply list_elem_of_lookup in Hb as [a Ha].
      destruct (Hrest a b Ha) as [Ha' Hne].
      rewrite Hw, decide_False.
      * apply (H1 b k); [eapply list_elem_of_lookup_2, Ha'|exact Hk].
      * apply (H3 a (length rest) b batch k Hne Ha' Hlast Hk).
    + intros b Hb. rewrite Hh in Hb. apply H2. rewrite H.
      apply elem_of_app. left. exact Hb.
    + intros a b b1 b2 k Hab Ha Hb. rewrite Hh in Ha, Hb.
      destruct (Hrest a b1 Ha) as [Ha' _]. destruct (Hrest b b2 Hb) as [Hb' _].
      apply (H3 a b b1 b2 k Hab Ha' Hb').
Qed.

(** C10. In every reachable state, every wheel listed in a batch of the
    history is blown away, and the batches of the history are pairwise
    disjoint (each of them a non-empty list without repetition). *)
Theorem history_batches_dispersed_disjoint s :
  reachable s ->
  (forall b k, b ∈ blownAwayHistory s -> k ∈ b ->
     exists w, wheels s !! k = Some w /\ Wheel.isBlownAway w = true)
  /\ (forall i j b1 b2 k,
        i <> j -> blownAwayHistory s !! i = Some b1 ->
        blownAwayHistory s !! j = Some b2 -> k ∈ b1 -> k ∉ b2)
  /\ (forall b, b ∈ blownAwayHistory s -> NoDup b /\ b <> []).
Proof.
  intros Hs.
  assert (Hinv : historyInv s).
  { induction Hs as [s Hi|s s' _ IH Hst].
    - apply historyInv_initial, Hi.
    - destruct Hst as [s|s mx my g _|s keyCode|s s' Hi].
      + apply historyInv_draw, IH.
      + apply historyInv_mousePressed, IH.
      + apply historyInv_keyPressed, IH.
      + apply historyInv_initial, Hi. }
  destruct Hinv as (H1 & H2 & H3).
  split; [exact H1|]. split; [exact H3|exact H2].
Qed.

(** C10 after the first click: the wheel of the only batch is blown away. *)
Lemma history_batches_dispersed_disjoint_witness :
  reachable (fst (mousePressed start 180 100 rng0))
  /\ exists w, wheels (fst (mousePressed start 180 100 rng0)) !! 1%nat = Some w
               /\ Wheel.isBlownAway w = true.
Proof.
  split; [exact reachable_after_click_B|].
  destruct (history_batches_dispersed_disjoint _ reachable_after_click_B)
    as (H & _).
  apply (H [1%nat] 1%nat).
  - destruct after_click_B as (_ & _ & _ & -> & _). left.
  - left.
Defined.

(** ** Returning is permanent *)

Lemma recall_isReturning ws batch p :
  (P.isReturning p = true -> P.isReturning (recall ws batch p) = true)
  /\ (P.isReturning (recall ws batch p) = true ->
      P.isReturning p = true \/ matched ws batch p = true).
Proof.
  unfold recall. destruct (matched ws batch p); simpl; auto.
Qed.

(** C8. [isReturning] is false in every particle the constructor builds;
    [update] never changes it; a frame keeps it in every particle that stays
    live; a click leaves the live particles as they are and only appends
    particles with the flag false; and a key press never turns a true flag
    to false: it turns a false flag to true only for key 32 and a particle
    matched by a wheel of the popped batch. *)
Theorem returning_never_reset :
  (forall x0 y0 ty col sz tx ty' a g,
     P.isReturning (fst (P.new x0 y0 ty col sz tx ty' a g)) = false)
  /\ (forall p, P.isReturning (P.update p) = P.isReturning p)
  /\ (forall s q, q ∈ dandelionParticles (draw s) ->
        exists p, p ∈ dandelionParticles s /\ q = P.update p
                  /\ P.isReturning q = P.isReturning p)
  /\ (forall s mouseX mouseY g,
        exists new,
          dandelionParticles (fst (mousePressed s mouseX mouseY g))
          = dandelionParticles s ++ new
          /\ forall p, p ∈ new -> P.isReturning p = false)
  /\ (forall keyCode s,
        exists batch,
          dandelionParticles (keyPressed keyCode s)
          = recall (wheels s) batch <$> dandelionParticles s
          /\ (keyCode <> 32%Z -> batch = [])
          /\ forall p,
               (P.isReturning p = true ->
                P.isReturning (recall (wheels s) batch p) = true)
               /\ (P.isReturning (recall (wheels s) batch p) = true ->
                   P.isReturning p = true \/ matched (wheels s) batch p = true)).
Proof.
  split; [|split; [|split; [|split]]].
  - intros. rewrite new_eq. reflexivity.
  - apply update_isReturning.
  - intros s q Hq. apply elem_of_draw in Hq as (p & Hp & -> & _).
    exists p. split; [exact Hp|]. split; [reflexivity|apply update_isReturning].
  - intros s mx my g.
    destruct (mousePressed_particles s mx my g) as (new & Hps & Hnew).
    exists new. split; [exact Hps|]. intros p Hp.
    destruct (Hnew p Hp) as [w Hw]. apply (spawnedBy_fields _ _ _ Hw).
  - intros keyCode s.
    destruct (decide (keyCode = 32%Z)) as [->|Hne].
    + destruct (keyPressed_particles 32 s) as [batch Hb].
      exists batch. split; [exact Hb|]. split; [congruence|].
      intros p. apply recall_isReturning.
    + exists []. split.
      * rewrite (keyPressed_other _ _ Hne). symmetry. apply list_fmap_id.
      * split; [reflexivity|]. intros p. apply recall_isReturning.
Qed.

(** ** A returning particle keeps a positive opacity *)

Lemma update_return_fields p :
  P.isReturning p = true -> P.returnSpeed p = 0.05 ->
  P.isReturning (P.update p) = true
  /\ P.returnSpeed (P.update p) = 0.05
  /\ P.alpha (P.update p) = (1 - 2 * P.returnSpeed p) * P.alpha p.
Proof.
  intros H Hr. rewrite update_isReturning, update_returnSpeed.
  split; [exact H|]. split; [exact Hr|].
  rewrite (update_alpha_return p H Hr), Hr. lra.
Qed.

(** [n] frames of return. *)
Lemma iter_update_return n p :
  P.isReturning p = true -> P.returnSpeed p = 0.05 ->
  let q := Nat.iter n P.update p in
  P.isReturning q = true
  /\ P.returnSpeed q = 0.05
  /\ P.alpha q = (1 - 2 * P.returnSpeed p) ^ n * P.alpha p.
Proof.
  intros H Hr. induction n as [|n IH].
  - simpl. repeat split; auto; lra.
  - destruct IH as (Hq & Hqr & Hqa).
    rewrite Nat.iter_succ.
    destruct (update_return_fields _ Hq Hqr) as (H1 & H2 & H3).
    split; [exact H1|]. split; [exact H2|].
    rewrite H3, Hqa, Hqr, Hr. simpl. lra.
Qed.

Lemma arrived_false_pos q : 0 < P.alpha q -> P.arrived q = false.
Proof.
  intros H. unfold P.arrived. apply andb_false_iff. right.
  apply bool_decide_eq_false. lra.
Qed.

Lemma faded_false_returning q : P.isReturning q = true -> P.faded q = false.
Proof. intros H. unfold P.faded. rewrite H. apply andb_false_r. Qed.

(** C9. With exact arithmetic, an [update] of a returning particle
    multiplies [alpha] by [1 - 2 * returnSpeed = 0.9].  So a particle that is
    returning with a positive [alpha] has, after any number of updates, a
    positive [alpha]; the removal test for returning particles
    ([alpha <= 0] and distance to the target below 1) never holds of it, nor
    does the other test; and it is still live after any number of frames. *)
Theorem returning_particle_never_reaped s p n :
  P.isReturning p = true -> P.returnSpeed p = 0.05 -> 0 < P.alpha p ->
  p ∈ dandelionParticles s ->
  let q := Nat.iter n P.update p in
  1 - 2 * P.returnSpeed p = 0.9
  /\ P.alpha (P.update p) = (1 - 2 * P.returnSpeed p) * P.alpha p
  /\ P.alpha q = 0.9 ^ n * P.alpha p
  /\ 0 < P.alpha q
  /\ P.isReturning q = true
  /\ P.arrived q = false
  /\ P.faded q = false
  /\ q ∈ dandelionParticles (Nat.iter n draw s).
Proof.
  intros H Hr Ha Hin q.
  assert (Hpos : forall m, 0 < P.alpha (Nat.iter m P.update p)).
  { intros m. destruct (iter_update_return m p H Hr) as (_ & _ & ->).
    apply Rmult_lt_0_compat; [|exact Ha]. apply pow_lt. rewrite Hr. lra. }
  destruct (iter_update_return n p H Hr) as (Hq & Hqr & Hqa).
  fold q in Hq, Hqr, Hqa.
  split; [rewrite Hr; lra|].
  split; [apply (update_return_fields p H Hr)|].
  split; [rewrite Hqa, Hr; f_equal; f_equal; lra|].
  split; [apply Hpos|]. split; [exact Hq|].
  split; [apply arrived_false_pos, Hpos|].
  split; [apply faded_false_returning, Hq|].
  clear Hq Hqr Hqa. subst q. induction n as [|n IH]; [exact Hin|].
  rewrite !Nat.iter_succ.
  apply elem_of_draw. exists (Nat.iter n P.update p).
  split; [exact IH|]. split; [reflexivity|].
  destruct (iter_update_return (S n) p H Hr) as (Hq & _).
  rewrite Nat.iter_succ in Hq.
  pose proof (Hpos (S n)) as Hp'. rewrite Nat.iter_succ in Hp'.
  unfold survives. rewrite (faded_false_returning _ Hq).
  rewrite (arrived_false_pos _ Hp'). reflexivity.
Qed.

(** C8 on the first particle, sent back or not. *)
Lemma returning_never_reset_witness :
  P.isReturning (P.update (P.startReturn firstSpoke)) = true
  /\ P.isReturning (P.update firstSpoke) = P.isReturning firstSpoke.
Proof.
  destruct returning_never_reset as (_ & H & _).
  split; [rewrite H; reflexivity|apply H].
Defined.

(** C9 on the first particle once sent back, over three frames. *)
Lemma returning_particle_never_reaped_witness :
  let p := P.startReturn firstSpoke in
  let s := mkState [restore wheelB] [p] [] in
  0 < P.alpha (Nat.iter 3 P.update p)
  /\ Nat.iter 3 P.update p ∈ dandelionParticles (Nat.iter 3 draw s).
Proof.
  intros p s.
  assert (H1 : P.isReturning p = true) by reflexivity.
  assert (H2 : P.returnSpeed p = 0.05).
  { unfold p, firstSpoke. rewrite spokeParticle_eq. reflexivity. }
  assert (H3 : 0 < P.alpha p).
  { unfold p, firstSpoke. rewrite spokeParticle_eq. simpl. lra. }
  assert (H4 : p ∈ dandelionParticles s) by left.
  destruct (returning_particle_never_reaped s p 3 H1 H2 H3 H4)
    as (_ & _ & _ & Hpos & _ & _ & _ & Hin).
  split; [exact Hpos|exact Hin].
Defined.

(** ** The shape of a spawned particle *)

Lemma ringPoint_on_ring w fraction count j px py :
  ringPoint w fraction count j px py ->
  (px - Wheel.x w) * (px - Wheel.x w) + (py - Wheel.y w) * (py - Wheel.y w)
  = (fraction * Wheel.radius w) * (fraction * Wheel.radius w).
Proof.
  intros [-> ->]. set (a := p5map _ _ _ _ _).
  pose proof (sin2_cos2 a) as H. unfold Rsqr in H.
  replace (Wheel.x w + cos a * (Wheel.radius w * fraction) - Wheel.x w)
    with (cos a * (Wheel.radius w * fraction)) by ring.
  replace (Wheel.y w + sin a * (Wheel.radius w * fraction) - Wheel.y w)
    with (sin a * (Wheel.radius w * fraction)) by ring.
  transitivity ((sin a * sin a + cos a * cos a)
                * (fraction * Wheel.radius w * (fraction * Wheel.radius w)));
    [ring|rewrite H; ring].
Qed.

Lemma windVelocity_direction v :
  windVelocity v -> Vector.x v < 0 /\ Vector.y v < 0.
Proof.
  intros (theta & m & [Hlo Hhi] & [Hm _] & ->). simpl.
  pose proof PI_pos.
  assert (cos theta < 0) by (apply cos_lt_0; lra).
  assert (sin theta < 0) by (apply sin_lt_0; lra).
  split; nra.
Qed.

Lemma new_velocity f g :
  (forall n, 0 <= f n < 1) -> src g = f ->
  windVelocity
    (Vector.mult (src g (1 + pos g)%nat * (3 - 1) + 1)
       (Vector.fromAngle
          (src g (pos g) * ((PI + PI / 2) - (PI + PI / 4)) + (PI + PI / 4)))).
Proof.
  intros Hf ->. pose proof PI_pos.
  pose proof (Hf (pos g)). pose proof (Hf (1 + pos g)%nat).
  eexists _, _. split; [|split; [|reflexivity]]; split; nra.
Qed.

Lemma new_wind f g :
  (forall n, 0 <= f n < 1) -> src g = f ->
  -0.05 <= src g (2 + pos g)%nat * (0.05 - (-0.05)) + (-0.05) < 0.05
  /\ -0.2 <= src g (3 + pos g)%nat * ((-0.05) - (-0.2)) + (-0.2) < -0.05
  /\ 0.05 <= src g (4 + pos g)%nat * (0.2 - 0.05) + 0.05 < 0.2.
Proof.
  intros Hf ->.
  pose proof (Hf (2 + pos g)%nat). pose proof (Hf (3 + pos g)%nat).
  pose proof (Hf (4 + pos g)%nat). repeat split; lra.
Qed.

Lemma spawnedBy_shape f w p :
  (forall n, 0 <= f n < 1) -> spawnedBy f (blow w) p -> spawnedShape w p.
Proof.
  intros Hf (j & g & Hg & [[Hj ->]|[Hj ->]]);
    [rewrite spokeParticle_eq|rewrite dotParticle_eq];
    destruct (new_wind f g Hf Hg) as (Hrs & Hwx & Hwy);
    pose proof (new_velocity f g Hf Hg) as Hv;
    unfold spawnedShape; cbn [P.x P.y P.originalX P.originalY P.targetX
      P.targetY P.type P.rotation P.vel P.rotationSpeed P.windX P.windY
      P.alpha P.isReturning];
    (split; [reflexivity|]); (split; [reflexivity|]);
    (split; [reflexivity|]); (split; [reflexivity|]);
    (split; [|repeat split; solve [apply Hrs|apply Hwx|apply Hwy|exact Hv]]).
  - left. split; [reflexivity|]. exists j. split; [exact Hj|].
    split; [split; reflexivity|reflexivity].
  - right. split; [reflexivity|]. exists j. split; [exact Hj|].
    split; [split; reflexivity|reflexivity].
Qed.

(** C6, amended.  Every particle a click spawns belongs to an affected wheel
    [w]; its position, its origin and its return target are the same point,
    which lies on the ring of [w] at radius fraction 0.8 (a spoke, which
    carries its spawn angle as [rotation]) or 0.9 (an outer dot, with
    [rotation = 0]); its initial velocity has a random speed in [1,3) along a
    random direction between [PI + PI/4] and [PI + PI/2], the same range for
    every particle wherever it sits on the ring, so both components are
    negative; and its wind components are random constants, [windX] in
    [-0.2,-0.05) and [windY] in [0.05,0.2). *)
Theorem spawned_particles_shape s mouseX mouseY g i wheel :
  rng_ok g -> clicked s mouseX mouseY i wheel ->
  exists new,
    dandelionParticles (fst (mousePressed s mouseX mouseY g))
    = dandelionParticles s ++ new
    /\ forall p, p ∈ new ->
         exists k w,
           k ∈ affected s wheel /\ wheels s !! k = Some w
           /\ spawnedShape w p
           /\ ((P.targetX p - Wheel.x w) * (P.targetX p - Wheel.x w)
               + (P.targetY p - Wheel.y w) * (P.targetY p - Wheel.y w)
               = (if String.eqb (P.type p) "spoke" then 0.8 else 0.9)
                 * Wheel.radius w
                 * ((if String.eqb (P.type p) "spoke" then 0.8 else 0.9)
                    * Wheel.radius w))
           /\ Vector.x (P.vel p) < 0 /\ Vector.y (P.vel p) < 0.
Proof.
  intros Hg Hc. rewrite (mousePressed_clicked _ _ _ g _ _ Hc).
  destruct (disperse_spec s wheel g (clicked_nonempty _ _ _ _ _ Hc))
    as (_ & _ & _ & new & Hps & _ & Hnew).
  exists new. split; [exact Hps|]. intros p Hp.
  destruct (Hnew p Hp) as (k & w & Hk & Hw & Hsp).
  exists k, w. split; [exact Hk|]. split; [exact Hw|].
  pose proof (spawnedBy_shape _ _ _ Hg Hsp) as Hshape.
  split; [exact Hshape|].
  destruct Hshape as (_ & _ & _ & _ & Hring & Hv & _).
  split; [|apply windVelocity_direction, Hv].
  destruct Hring as [(-> & j & _ & Hr & _)|(-> & j & _ & Hr & _)]; simpl;
    apply (ringPoint_on_ring _ _ _ _ _ _ Hr).
Qed.

(** C6, amended, on the first click of the example. *)
Lemma spawned_particles_shape_witness :
  rng_ok rng0 /\ clicked start 180 100 1 wheelB
  /\ exists new,
       dandelionParticles (fst (mousePressed start 180 100 rng0)) = new
       /\ forall p, p ∈ new -> Vector.x (P.vel p) < 0.
Proof.
  split; [exact rng0_ok|]. split; [exact clicked_start_B|].
  destruct (spawned_particles_shape start 180 100 rng0 1 wheelB rng0_ok
              clicked_start_B) as (new & Hps & Hnew).
  exists new. split; [exact Hps|]. intros p Hp.
  destruct (Hnew p Hp) as (k & w & _ & _ & _ & _ & Hx & _). exact Hx.
Defined.

Lemma firstSpoke_eq :
  P.x firstSpoke = 220 /\ P.y firstSpoke = 100
  /\ P.vel firstSpoke = Vector.mk (cos (PI + PI / 4) * 1) (sin (PI + PI / 4) * 1).
Proof.
  unfold firstSpoke. rewrite spokeParticle_eq.
  cbn [P.x P.y P.vel Wheel.x Wheel.y Wheel.radius blow wheelB
       Wheel.set_innerAlpha Wheel.set_isBlownAway rng0 src pos].
  assert (E : p5map (INR 0) 0 (INR spokeCount) 0 TWO_PI = 0).
  { unfold p5map. simpl INR at 1. unfold Rdiv. ring. }
  rewrite E, cos_0, sin_0. unfold Vector.mult, Vector.fromAngle. simpl.
  split; [lra|]. split; [lra|]. f_equal; f_equal; f_equal; lra.
Qed.

(** C6, as stated, fails on the velocity: the first particle the first click
    of the example spawns sits at (220, 100), on the right of the centre
    (180, 100) of its wheel, and its velocity points to the left, towards the
    inside of the wheel, not outward. *)
Lemma velocity_not_outward_counterexample :
  rng_ok rng0
  /\ clicked start 180 100 1 wheelB
  /\ firstSpoke ∈ dandelionParticles (fst (mousePressed start 180 100 rng0))
  /\ P.x firstSpoke - Wheel.x wheelB = 40
  /\ P.y firstSpoke - Wheel.y wheelB = 0
  /\ Vector.x (P.vel firstSpoke) < 0
  /\ ~ outwardBiased wheelB firstSpoke.
Proof.
  destruct firstSpoke_eq as (Hx & Hy & Hv).
  assert (Hcos : cos (PI + PI / 4) < 0).
  { pose proof PI_pos. apply cos_lt_0; lra. }
  split; [exact rng0_ok|]. split; [exact clicked_start_B|].
  split; [destruct firstSpoke_spawned as [ps ->]; left|].
  unfold outwardBiased. rewrite Hx, Hy, Hv. simpl.
  split; [lra|]. split; [lra|]. split; [lra|]. lra.
Qed.

(** ** Restoration and the particles of the restored wheels *)

Lemma iter_draw_history n s :
  blownAwayHistory (Nat.iter n draw s) = blownAwayHistory s.
Proof. induction n as [|n IH]; [reflexivity|exact IH]. Qed.

Lemma updateAlpha_place w :
  Wheel.x (Wheel.updateAlpha w) = Wheel.x w
  /\ Wheel.y (Wheel.updateAlpha w) = Wheel.y w
  /\ Wheel.radius (Wheel.updateAlpha w) = Wheel.radius w.
Proof.
  unfold Wheel.updateAlpha. destruct (Wheel.isBlownAway w); [repeat split|].
  case_decide; repeat split.
Qed.

(** Frames move no wheel. *)
Lemma iter_draw_place n s k w :
  wheels s !! k = Some w ->
  exists w', wheels (Nat.iter n draw s) !! k = Some w'
             /\ Wheel.x w' = Wheel.x w /\ Wheel.y w' = Wheel.y w
             /\ Wheel.radius w' = Wheel.radius w.
Proof.
  intros Hw. induction n as [|n (w' & Hw' & Hx & Hy & Hr)].
  - exists w. auto.
  - exists (Wheel.updateAlpha w'). rewrite Nat.iter_succ.
    rewrite draw_wheels, Hw'. split; [reflexivity|].
    destruct (updateAlpha_place w') as (Hx' & Hy' & Hr'). repeat split; congruence.
Qed.

Lemma rngPi_ok : rng_ok rngPi.
Proof.
  intros n. simpl. pose proof PI_pos. pose proof PI_4.
  destruct (Nat.eqb n 2); lra.
Qed.

Lemma turningSpoke_fields :
  P.type turningSpoke = "spoke" /\ P.isReturning turningSpoke = false
  /\ P.alpha turningSpoke = 255
  /\ P.targetX turningSpoke = 220 /\ P.targetY turningSpoke = 100
  /\ P.rotation turningSpoke = 0
  /\ P.rotationSpeed turningSpoke = PI / 100
  /\ ringPoint wheelB 0.8 spokeCount 0
       (P.targetX turningSpoke) (P.targetY turningSpoke).
Proof.
  unfold turningSpoke, ringPoint. rewrite spokeParticle_eq.
  cbn [P.type P.isReturning P.alpha P.targetX P.targetY P.rotation
       P.rotationSpeed Wheel.x Wheel.y Wheel.radius blow wheelB
       Wheel.set_innerAlpha Wheel.set_isBlownAway rngPi src pos].
  assert (E : p5map (INR 0) 0 (INR spokeCount) 0 TWO_PI = 0).
  { unfold p5map. simpl INR at 1. unfold Rdiv. ring. }
  rewrite E, cos_0, sin_0. simpl Nat.eqb. cbv iota.
  repeat split; try reflexivity; lra.
Qed.

Lemma turningSpoke_spawned :
  exists ps,
    dandelionParticles (fst (mousePressed start 180 100 rngPi))
    = turningSpoke :: ps.
Proof.
  rewrite (mousePressed_clicked _ _ _ rngPi _ _ clicked_start_B).
  rewrite (disperse_single start wheelB rngPi 1 wheelB affected_start_B eq_refl).
  apply wheelParticles_head.
Qed.

(** The test of the filter for a spoke particle. *)
Lemma returnsTo_spoke w p :
  P.type p = "spoke" ->
  returnsTo w p
  = bool_decide
      (dist (P.targetX p) (P.targetY p)
            (Wheel.x w + cos (P.rotation p) * Wheel.radius w * 0.8)
            (Wheel.y w + sin (P.rotation p) * Wheel.radius w * 0.8) < 10).
Proof.
  intros H. unfold returnsTo. rewrite H. simpl. apply orb_false_r.
Qed.

(** X10. The test on a spoke particle whose target is the ring point at angle
    [a] and whose [rotation] has turned by [delta] since: it compares the chord
    between the two ring points with 10, so it depends on how far the
    particle has turned. *)
Lemma returnsTo_turned_spoke w p a delta :
  P.type p = "spoke" ->
  P.targetX p = Wheel.x w + cos a * (Wheel.radius w * 0.8) ->
  P.targetY p = Wheel.y w + sin a * (Wheel.radius w * 0.8) ->
  P.rotation p = a + delta ->
  returnsTo w p = true
  <-> 2 * (0.8 * Wheel.radius w * (0.8 * Wheel.radius w)) * (1 - cos delta) < 100.
Proof.
  intros Ht Hx Hy Hrot. rewrite (returnsTo_spoke w p Ht), bool_decide_eq_true.
  rewrite dist_lt_iff by lra. rewrite Hx, Hy, Hrot, cos_plus, sin_plus.
  pose proof (sin2_cos2 a) as Ha. pose proof (sin2_cos2 delta) as Hd.
  unfold Rsqr in Ha, Hd.
  set (c := cos a) in *. set (sn := sin a) in *.
  set (C := cos delta) in *. set (S := sin delta) in *.
  set (k := Wheel.radius w).
  match goal with
  | |- ?l < _ <-> _ =>
      replace l with (0.8 * k * (0.8 * k)
                      * ((sn * sn + c * c) * (S * S + C * C + 1 - 2 * C)))
        by ring
  end.
  rewrite Ha, Hd. split; intros H; lra.
Qed.

(** C7 fails on the code.  The first click of the example disperses
    [wheelB]; its first spoke particle turns by [PI / 100] a frame; after 100
    frames it is still live and drifting, its return target still the point
    of index 0 of the spoke ring of [wheelB], computed as the dispersal
    computed it.  The space bar then restores [wheelB], but the test of the
    filter recomputes the ring point from the current [rotation], which is
    now [PI]: the point found is across the ring, 80 away from the target,
    and the particle is left drifting. *)
Theorem rotated_spoke_left_behind :
  let s := Nat.iter 100 draw (fst (mousePressed start 180 100 rngPi)) in
  let p := Nat.iter 100 P.update turningSpoke in
  reachable s
  /\ blownAwayHistory s = [[1%nat]]
  /\ p ∈ dandelionParticles s
  /\ P.type p = "spoke" /\ P.isReturning p = false /\ P.rotation p = PI
  /\ ringPoint wheelB 0.8 spokeCount 0 (P.targetX p) (P.targetY p)
  /\ (exists w, wheels (keyPressed 32 s) !! 1%nat = Some w
                /\ Wheel.isBlownAway w = false
                /\ Wheel.x w = Wheel.x wheelB /\ Wheel.y w = Wheel.y wheelB
                /\ Wheel.radius w = Wheel.radius wheelB)
  /\ blownAwayHistory (keyPressed 32 s) = []
  /\ dandelionParticles (keyPressed 32 s)
     = recall (wheels s) [1%nat] <$> dandelionParticles s
  /\ recall (wheels s) [1%nat] p = p.
Proof.
  intros s p.
  assert (E100 : INR 100 = 100) by (rewrite INR_IZR_INZ; reflexivity).
  destruct turningSpoke_fields as (Ht0 & Hr0 & Ha0 & Hx0 & Hy0 & Hrot0 & Hrs0 & Hring0).
  assert (Hs1 : reachable (fst (mousePressed start 180 100 rngPi))).
  { eapply reach_step; [apply reach_init, start_initial|].
    apply step_mouse, rngPi_ok. }
  assert (Hin : p ∈ dandelionParticles s).
  { unfold s, p. rewrite iter_draw_drifting.
    - destruct turningSpoke_spawned as [ps ->]. rewrite fmap_cons.
      apply list_elem_of_here.
    - intros q Hq.
      destruct (mousePressed_particles start 180 100 rngPi) as (new & Hps & Hnew).
      rewrite Hps in Hq. rewrite app_nil_l in Hq.
      destruct (Hnew q Hq) as [w Hw].
      destruct (spawnedBy_fields _ _ _ Hw) as (Hqa & Hqr & _).
      split; [exact Hqr|]. rewrite Hqa, E100. lra. }
  assert (Hh : blownAwayHistory s = [[1%nat]]).
  { unfold s. rewrite iter_draw_history.
    rewrite (clicked_grows _ _ _ rngPi _ _ clicked_start_B). reflexivity. }
  assert (Hw1 : exists w1, wheels s !! 1%nat = Some w1
                  /\ Wheel.x w1 = 180 /\ Wheel.y w1 = 100 /\ Wheel.radius w1 = 50).
  { assert (Hb : wheels (fst (mousePressed start 180 100 rngPi)) !! 1%nat
                 = Some (blow wheelB)).
    { rewrite (mousePressed_clicked _ _ _ rngPi _ _ clicked_start_B).
      destruct (disperse_spec start wheelB rngPi) as (_ & _ & Hw & _).
      { rewrite affected_start_B. discriminate. }
      rewrite Hw. reflexivity. }
    destruct (iter_draw_place 100 _ _ _ Hb) as (w1 & Hw1 & Hx & Hy & Hr).
    exists w1. split; [exact Hw1|]. simpl in Hx, Hy, Hr. auto. }
  destruct Hw1 as (w1 & Hw1 & Hx1 & Hy1 & Hrad1).
  destruct (iter_update_drift 100 turningSpoke Hr0)
    as (Hr & Ha & Hrot & Hrs & Hx & Hy & Ht).
  fold p in Hr, Ha, Hrot, Hrs, Hx, Hy, Ht.
  destruct (keyPressed_spec s [] [1%nat] Hh) as (Hh' & Hw' & Hps').
  assert (Hrot' : P.rotation p = PI) by (rewrite Hrot, Hrot0, Hrs0, E100; lra).
  split; [apply reachable_iter_draw, Hs1|]. split; [exact Hh|].
  split; [exact Hin|]. clear Hin.
  split; [congruence|]. split; [exact Hr|]. split; [exact Hrot'|].
  split; [rewrite Hx, Hy; exact Hring0|]. split.
  { exists (restore w1). rewrite Hw', Hw1. simpl. repeat split; assumption. }
  split; [exact Hh'|]. split; [exact Hps'|].
  unfold recall. rewrite matched_cons, Hw1.
  rewrite returnsTo_spoke by congruence.
  rewrite Hx, Hy, Hx0, Hy0, Hrot', Hx1, Hy1, Hrad1, cos_PI, sin_PI.
  rewrite bool_decide_eq_false_2; [reflexivity|].
  intros Hd. apply dist_lt_iff in Hd; lra.
Qed.

(** * Further properties of the sketch *)

(** ** The frame loop as a whole *)

(** X1. The particle loop of [draw], which goes down the array, updates each
    particle in place and splices it out when a removal test fires, leaves
    exactly the updated particles on which neither test fires, in their
    order: no particle is skipped, none is removed for another's test.  The
    wheels are all faded one step, the history is left alone. *)
Theorem draw_updates_then_filters s :
  dandelionParticles (draw s)
  = List.filter (fun q => negb (P.faded q) && negb (P.arrived q))
      (P.update <$> dandelionParticles s)
  /\ wheels (draw s) = Wheel.updateAlpha <$> wheels s
  /\ blownAwayHistory (draw s) = blownAwayHistory s
  /\ (length (dandelionParticles (draw s)) <= length (dandelionParticles s))%nat.
Proof.
  assert (E : dandelionParticles (draw s)
              = List.filter (fun q => negb (P.faded q) && negb (P.arrived q))
                  (P.update <$> dandelionParticles s)).
  { unfold draw; simpl. rewrite draw_particles_filter.
    apply List.filter_ext. intros q. unfold survives. apply negb_orb. }
  split; [exact E|]. split; [reflexivity|]. split; [reflexivity|].
  rewrite E. etransitivity; [apply List.filter_length_le|].
  rewrite length_fmap. reflexivity.
Qed.

(** ** The flight of a particle *)

(** X2. [n] frames of drift in closed form: the velocity gains the wind each
    frame, so the position follows a parabola; the size shrinks by 1% a
    frame, the opacity drops by 2 a frame, the rotation turns at constant
    speed; the target, the origin, the kind and the colour never change. *)
Theorem drift_closed_form p n :
  P.isReturning p = false ->
  let q := Nat.iter n P.update p in
  P.x q = P.x p + INR n * Vector.x (P.vel p)
          + P.windX p * (INR n * (INR n - 1) / 2)
  /\ P.y q = P.y p + INR n * Vector.y (P.vel p)
             + P.windY p * (INR n * (INR n - 1) / 2)
  /\ P.vel q = Vector.mk (Vector.x (P.vel p) + INR n * P.windX p)
                         (Vector.y (P.vel p) + INR n * P.windY p)
  /\ P.size q = P.size p * 0.99 ^ n
  /\ P.alpha q = P.alpha p - 2 * INR n
  /\ P.rotation q = P.rotation p + INR n * P.rotationSpeed p
  /\ P.targetX q = P.targetX p /\ P.targetY q = P.targetY p
  /\ P.originalX q = P.originalX p /\ P.originalY q = P.originalY p
  /\ P.type q = P.type p /\ P.color q = P.color p
  /\ P.windX q = P.windX p /\ P.windY q = P.windY p
  /\ P.rotationSpeed q = P.rotationSpeed p
  /\ P.isReturning q = false.
Proof.
  intros H. induction n as [|n IH].
  - simpl. destruct (P.vel p) as [vx vy]. simpl.
    repeat split; try reflexivity; try exact H; try lra.
    f_equal; lra.
  - destruct IH as (Hx & Hy & Hv & Hs & Ha & Hrot & Htx & Hty & Hox & Hoy
                    & Hty' & Hc & Hwx & Hwy & Hrs & Hr).
    rewrite Nat.iter_succ. rewrite (update_drift _ Hr).
    cbn [P.x P.y P.vel P.size P.alpha P.rotation P.targetX P.targetY
         P.originalX P.originalY P.type P.color P.windX P.windY
         P.rotationSpeed P.isReturning].
    rewrite Hx, Hy, Hv, Hs, Ha, Hrot, Hwx, Hwy, Hrs, S_INR.
    unfold Vector.add. cbn [Vector.x Vector.y].
    repeat split; try assumption; try reflexivity; try (simpl; lra).
    + f_equal; lra.
Qed.

(** X2 on the first particle of the example, over two frames. *)
Lemma drift_closed_form_witness :
  P.isReturning firstSpoke = false
  /\ P.alpha (Nat.iter 2 P.update firstSpoke) = P.alpha firstSpoke - 2 * INR 2.
Proof.
  assert (H : P.isReturning firstSpoke = false).
  { unfold firstSpoke. rewrite spokeParticle_eq. reflexivity. }
  split; [exact H|].
  destruct (drift_closed_form firstSpoke 2 H) as (_ & _ & _ & _ & Ha & _).
  exact Ha.
Defined.

Lemma update_return p :
  P.isReturning p = true ->
  P.update p
  = P.mk (lerp (P.x p) (P.targetX p) (P.returnSpeed p))
         (lerp (P.y p) (P.targetY p) (P.returnSpeed p)) (P.type p) (P.color p)
         (lerp (P.size p)
               (if String.eqb (P.type p) "spoke" then P.size p / 5 else P.size p)
               (P.returnSpeed p * 2))
         (lerp (P.alpha p) 0 (P.returnSpeed p * 2)) (P.originalX p)
         (P.originalY p) (P.targetX p) (P.targetY p) (P.vel p) (P.rotation p)
         (lerp (P.rotationSpeed p) 0 0.05) (P.windX p) (P.windY p) true
         (P.returnSpeed p).
Proof. intros H. unfold P.update. rewrite H. reflexivity. Qed.

Lemma dist_scale k x1 y1 x2 y2 x1' y1' :
  0 <= k -> x2 - x1' = k * (x2 - x1) -> y2 - y1' = k * (y2 - y1) ->
  dist x1' y1' x2 y2 = k * dist x1 y1 x2 y2.
Proof.
  intros Hk Hx Hy. unfold dist. rewrite Hx, Hy.
  replace (k * (x2 - x1) * (k * (x2 - x1)) + k * (y2 - y1) * (k * (y2 - y1)))
    with (k * k * ((x2 - x1) * (x2 - x1) + (y2 - y1) * (y2 - y1))) by ring.
  rewrite sqrt_mult.
  - rewrite (sqrt_square k Hk). reflexivity.
  - nra.
  - pose proof (Rle_0_sqr (x2 - x1)). pose proof (Rle_0_sqr (y2 - y1)).
    unfold Rsqr in *. lra.
Qed.

(** X3. [n] frames of return in closed form: the offset from the target
    shrinks by the factor 0.95 each frame, and so does the distance, which
    therefore stays positive when it starts positive; the rotation speed eases
    the same way, but the rotation itself is frozen; a spoke shrinks by the
    factor 0.92 each frame and an outer dot keeps its size; the velocity and
    the wind are left alone. *)
Theorem return_closed_form p n :
  P.isReturning p = true -> P.returnSpeed p = 0.05 ->
  let q := Nat.iter n P.update p in
  P.x q - P.targetX q = 0.95 ^ n * (P.x p - P.targetX p)
  /\ P.y q - P.targetY q = 0.95 ^ n * (P.y p - P.targetY p)
  /\ dist (P.x q) (P.y q) (P.targetX q) (P.targetY q)
     = 0.95 ^ n * dist (P.x p) (P.y p) (P.targetX p) (P.targetY p)
  /\ P.rotationSpeed q = 0.95 ^ n * P.rotationSpeed p
  /\ P.rotation q = P.rotation p
  /\ P.size q
     = (if String.eqb (P.type p) "spoke" then 0.92 ^ n else 1) * P.size p
  /\ P.vel q = P.vel p
  /\ P.targetX q = P.targetX p /\ P.targetY q = P.targetY p
  /\ P.type q = P.type p
  /\ P.isReturning q = true /\ P.returnSpeed q = 0.05.
Proof.
  intros H Hr q.
  assert (Hall : P.x q - P.targetX q = 0.95 ^ n * (P.x p - P.targetX p)
    /\ P.y q - P.targetY q = 0.95 ^ n * (P.y p - P.targetY p)
    /\ P.rotationSpeed q = 0.95 ^ n * P.rotationSpeed p
    /\ P.rotation q = P.rotation p
    /\ P.size q
       = (if String.eqb (P.type p) "spoke" then 0.92 ^ n else 1) * P.size p
    /\ P.vel q = P.vel p
    /\ P.targetX q = P.targetX p /\ P.targetY q = P.targetY p
    /\ P.type q = P.type p
    /\ P.isReturning q = true /\ P.returnSpeed q = 0.05).
  { subst q. induction n as [|n IH].
    - simpl. destruct (String.eqb (P.type p) "spoke");
        repeat split; try reflexivity; try assumption; lra.
    - destruct IH as (Hx & Hy & Hrs & Hrot & Hs & Hv & Htx & Hty & Hty'
                      & Hq & Hqr).
      rewrite Nat.iter_succ. rewrite (update_return _ Hq).
      cbn [P.x P.y P.vel P.size P.rotation P.targetX P.targetY P.type
           P.rotationSpeed P.isReturning P.returnSpeed].
      rewrite Hqr, Hty', Hrs, Hs. unfold lerp.
      repeat split; try assumption; try reflexivity.
      + simpl. lra.
      + simpl. lra.
      + simpl. lra.
      + destruct (String.eqb (P.type p) "spoke"); simpl; lra. }
  destruct Hall as (Hx & Hy & Hrs & Hrot & Hs & Hv & Htx & Hty & Hty' & Hq & Hqr).
  repeat split; try assumption.
  rewrite Htx, Hty in *. apply dist_scale.
  - apply pow_le. lra.
  - lra.
  - lra.
Qed.

(** X3 on the first particle of the example once sent back, over three
    frames. *)
Lemma return_closed_form_witness :
  let p := P.startReturn firstSpoke in
  P.rotation (Nat.iter 3 P.update p) = P.rotation p.
Proof.
  intros p.
  assert (H1 : P.isReturning p = true) by reflexivity.
  assert (H2 : P.returnSpeed p = 0.05).
  { unfold p, firstSpoke. rewrite spokeParticle_eq. reflexivity. }
  destruct (return_closed_form p 3 H1 H2) as (_ & _ & _ & _ & Hrot & _).
  exact Hrot.
Defined.

(** ** The lifetime of a drifting particle *)

Lemma elem_of_iter_draw n s q :
  q ∈ dandelionParticles (Nat.iter n draw s) ->
  exists p, p ∈ dandelionParticles s /\ q = Nat.iter n P.update p
            /\ ((0 < n)%nat -> survives q = true).
Proof.
  revert q. induction n as [|n IH]; intros q Hq.
  - exists q. split; [exact Hq|]. split; [reflexivity|]. lia.
  - rewrite Nat.iter_succ in Hq. apply elem_of_draw in Hq as (p' & Hp' & -> & Hs).
    destruct (IH p' Hp') as (p & Hp & -> & _).
    exists p. split; [exact Hp|]. split; [reflexivity|]. intros _. exact Hs.
Qed.

Lemma reachable_alpha_le s p :
  reachable s -> p ∈ dandelionParticles s -> P.alpha p <= 255.
Proof.
  intros Hs Hp.
  assert (Hall : Forall (fun q => P.alpha q <= 255 /\ P.returnSpeed q = 0.05
                                  /\ 0 < P.alpha q)
                        (dandelionParticles s)).
  { clear Hp. revert s Hs. apply reachable_particles.
    - intros f w q _ Hq. destruct (spawnedBy_fields f w q Hq) as (Ha & _ & Hr).
      rewrite Ha. repeat split; [lra|exact Hr|lra].
    - intros q (Ha & Hr & Hpos) Hsv.
      destruct (particleInv_update q) as [[H1 H2] H3];
        [split; [lra|exact Hr]|exact Hsv|]. repeat split; assumption.
    - intros q H. exact H. }
  rewrite Forall_forall in Hall. apply (Hall p Hp).
Qed.

Lemma iter_update_isReturning n p :
  P.isReturning (Nat.iter n P.update p) = P.isReturning p.
Proof.
  induction n as [|n IH]; [reflexivity|].
  rewrite Nat.iter_succ, update_isReturning. exact IH.
Qed.

(** X4. A drifting particle lives as long as its opacity lasts at 2 a frame,
    and no longer: while [2 * n] is below its [alpha], it is still live, [n]
    times updated, after [n] frames; and 128 frames after any reachable
    state, every particle still live is a returning one, so that if none was
    returning the particle array is empty. *)
Theorem drifting_particle_lifetime s n :
  reachable s ->
  (forall p, p ∈ dandelionParticles s -> P.isReturning p = false ->
             2 * INR n < P.alpha p ->
             Nat.iter n P.update p ∈ dandelionParticles (Nat.iter n draw s))
  /\ ((128 <= n)%nat ->
      (forall q, q ∈ dandelionParticles (Nat.iter n draw s) ->
                 P.isReturning q = true)
      /\ ((forall p, p ∈ dandelionParticles s -> P.isReturning p = false) ->
          dandelionParticles (Nat.iter n draw s) = [])).
Proof.
  intros Hs. split.
  - intros p Hp Hr. induction n as [|n IH]; intros Ha; [exact Hp|].
    rewrite !Nat.iter_succ. apply elem_of_draw.
    exists (Nat.iter n P.update p). rewrite S_INR in Ha.
    split; [apply IH; lra|]. split; [reflexivity|].
    destruct (iter_update_drift (S n) p Hr) as (Hr' & Ha' & _).
    rewrite Nat.iter_succ in Hr', Ha'.
    unfold survives, P.faded, P.arrived. rewrite Hr'. cbn [negb andb].
    rewrite andb_true_r, orb_false_r. apply negb_true_iff, bool_decide_eq_false.
    rewrite Ha', S_INR. lra.
  - intros Hn.
    assert (E128 : INR 128 = 128) by (rewrite INR_IZR_INZ; reflexivity).
    assert (Hret : forall q, q ∈ dandelionParticles (Nat.iter n draw s) ->
                             P.isReturning q = true).
    { intros q Hq. destruct (elem_of_iter_draw n s q Hq) as (p & Hp & -> & Hsv).
      rewrite iter_update_isReturning.
      destruct (P.isReturning p) eqn:Hr; [reflexivity|exfalso].
      destruct (iter_update_drift n p Hr) as (Hr' & Ha' & _).
      pose proof (survives_drift_pos _ Hr' (Hsv ltac:(lia))) as Hpos.
      pose proof (reachable_alpha_le s p Hs Hp) as Hle.
      apply le_INR in Hn. lra. }
    split; [exact Hret|]. intros Hall.
    destruct (dandelionParticles (Nat.iter n draw s)) as [|q l] eqn:E;
      [reflexivity|exfalso].
    assert (Hq : q ∈ q :: l) by left.
    pose proof (Hret q Hq) as Hr. rewrite <- E in Hq.
    destruct (elem_of_iter_draw n s q Hq) as (p & Hp & -> & _).
    rewrite iter_update_isReturning, (Hall p Hp) in Hr. discriminate.
Qed.

(** X4 on the first click of the example: its first particle is live after
    100 frames, and no particle is left after 128. *)
Lemma drifting_particle_lifetime_witness :
  Nat.iter 100 P.update firstSpoke
    ∈ dandelionParticles (Nat.iter 100 draw (fst (mousePressed start 180 100 rng0)))
  /\ dandelionParticles (Nat.iter 128 draw (fst (mousePressed start 180 100 rng0)))
     = [].
Proof.
  assert (Hnew : forall p,
            p ∈ dandelionParticles (fst (mousePressed start 180 100 rng0)) ->
            P.isReturning p = false /\ P.alpha p = 255).
  { intros p Hp.
    destruct (mousePressed_particles start 180 100 rng0) as (new & Hps & Hnew).
    rewrite Hps, app_nil_l in Hp. destruct (Hnew p Hp) as [w Hw].
    destruct (spawnedBy_fields _ _ _ Hw) as (Ha & Hr & _). auto. }
  assert (Hin : firstSpoke
                ∈ dandelionParticles (fst (mousePressed start 180 100 rng0))).
  { destruct firstSpoke_spawned as [ps ->]. left. }
  split.
  - apply (proj1 (drifting_particle_lifetime _ 100 reachable_after_click_B));
      [exact Hin|apply Hnew, Hin|].
    destruct (Hnew _ Hin) as [_ ->].
    replace (INR 100) with 100 by (rewrite INR_IZR_INZ; reflexivity). lra.
  - apply (proj2 (drifting_particle_lifetime _ 128 reachable_after_click_B));
      [lia|]. intros p Hp. apply Hnew, Hp.
Defined.

(** ** The fade-in of a wheel *)

Lemma iter_draw_wheels n s k :
  wheels (Nat.iter n draw s) !! k = Nat.iter n Wheel.updateAlpha <$> wheels s !! k.
Proof.
  induction n as [|n IH].
  - simpl. destruct (wheels s !! k); reflexivity.
  - rewrite Nat.iter_succ, draw_wheels, IH.
    destruct (wheels s !! k); reflexivity.
Qed.

Lemma iter_updateAlpha n w :
  wheelInv w -> Wheel.isBlownAway w = false ->
  let w' := Nat.iter n Wheel.updateAlpha w in
  wheelInv w' /\ Wheel.isBlownAway w' = false
  /\ Wheel.innerAlpha w' = Rmin (Wheel.innerAlpha w + 5 * INR n) 255.
Proof.
  intros Hw Hb. induction n as [|n (Hw' & Hb' & Ha)].
  - simpl. split; [exact Hw|]. split; [exact Hb|].
    destruct Hw as (_ & _ & (k & Hk & Ha) & _). apply le_INR in Hk.
    assert (INR 51 = 51) as E51 by (rewrite INR_IZR_INZ; reflexivity).
    rewrite Rmin_left; lra.
  - rewrite Nat.iter_succ.
    split; [apply wheelInv_updateAlpha, Hw'|].
    split; [rewrite updateAlpha_isBlownAway; exact Hb'|].
    destruct (updateAlpha_step _ Hw' Hb') as (Hstep & _).
    rewrite Hstep, Ha, S_INR. pose proof (pos_INR n).
    unfold Rmin. repeat destruct (Rle_dec _ _); lra.
Qed.

(** X5. A wheel that is not blown away fades in by 5 a frame up to 255:
    [n] frames after any reachable state its [innerAlpha] is
    [min(innerAlpha + 5 n, 255)].  So after 51 frames without a click every
    such wheel is fully opaque, and from then on [updateAlpha] leaves it
    exactly as it is. *)
Theorem fade_in_completes s k w n :
  reachable s -> wheels s !! k = Some w -> Wheel.isBlownAway w = false ->
  exists w',
    wheels (Nat.iter n draw s) !! k = Some w'
    /\ Wheel.isBlownAway w' = false
    /\ Wheel.innerAlpha w' = Rmin (Wheel.innerAlpha w + 5 * INR n) 255
    /\ ((51 <= n)%nat ->
        Wheel.innerAlpha w' = 255 /\ Wheel.updateAlpha w' = w').
Proof.
  intros Hs Hk Hb.
  pose proof (reachable_wheelInv s Hs) as Hall. rewrite Forall_lookup in Hall.
  pose proof (Hall k w Hk) as Hw.
  destruct (iter_updateAlpha n w Hw Hb) as (Hw' & Hb' & Ha).
  exists (Nat.iter n Wheel.updateAlpha w).
  split; [rewrite iter_draw_wheels, Hk; reflexivity|].
  split; [exact Hb'|]. split; [exact Ha|]. intros Hn.
  assert (E : Wheel.innerAlpha (Nat.iter n Wheel.updateAlpha w) = 255).
  { rewrite Ha. destruct Hw as (_ & _ & (j & _ & Hj) & _).
    pose proof (pos_INR j). apply le_INR in Hn.
    assert (INR 51 = 51) as E51 by (rewrite INR_IZR_INZ; reflexivity).
    rewrite Rmin_right; lra. }
  split; [exact E|].
  destruct Hw' as (Ht & _). set (w' := Nat.iter n Wheel.updateAlpha w) in *.
  unfold Wheel.updateAlpha.
  rewrite Hb', E, Ht. rewrite decide_False by lra. reflexivity.
Qed.

(** X5 on [wheelA] in the start state, over 51 frames. *)
Lemma fade_in_completes_witness :
  exists w', wheels (Nat.iter 51 draw start) !! 0%nat = Some w'
             /\ Wheel.innerAlpha w' = 255.
Proof.
  destruct (fade_in_completes start 0 wheelA 51
              (reach_init _ start_initial) eq_refl eq_refl)
    as (w' & Hk & _ & _ & H).
  exists w'. split; [exact Hk|]. apply H. lia.
Defined.

(** ** The history and the blown wheels *)

Lemma undoInv_initial s : initial s -> undoInv s.
Proof.
  intros (Hf & _ & Hh). unfold undoInv. rewrite Hh. simpl.
  split; [constructor|]. split; [constructor|].
  intros k. split; [intros H; inversion H|].
  intros (w & Hw & Hb). rewrite Forall_lookup in Hf.
  destruct (Hf k w Hw) as (Hnb & _). congruence.
Qed.

Lemma undoInv_draw s : undoInv s -> undoInv (draw s).
Proof.
  intros (H1 & H2 & H3). split; [exact H1|]. split; [exact H2|].
  intros k. change (blownAwayHistory (draw s)) with (blownAwayHistory s).
  rewrite H3, draw_wheels. split.
  - intros (w & Hw & Hb). exists (Wheel.updateAlpha w). rewrite Hw.
    split; [reflexivity|]. rewrite updateAlpha_isBlownAway. exact Hb.
  - intros (w' & Hw' & Hb). destruct (wheels s !! k) as [w|]; [|discriminate].
    inversion Hw'; subst w'. exists w. split; [reflexivity|].
    rewrite updateAlpha_isBlownAway in Hb. exact Hb.
Qed.

Lemma undoInv_mousePressed s mx my g :
  undoInv s -> undoInv (fst (mousePressed s mx my g)).
Proof.
  intros (H1 & H2 & H3).
  destruct (mousePressed_cases s mx my g) as [[E _]|(i & wheel & Hc & E)]; rewrite E.
  - split; [exact H1|split; [exact H2|exact H3]].
  - pose proof (clicked_nonempty _ _ _ _ _ Hc) as Hne.
    destruct (disperse_spec s wheel g Hne) as (Hh & _ & Hw & _).
    unfold undoInv. rewrite Hh, concat_app. simpl. rewrite app_nil_r.
    split; [|split].
    + apply NoDup_app. split; [exact H1|]. split; [|apply NoDup_indicesOf].
      intros k Hk Hin. apply H3 in Hk as (w & Hkw & Hb).
      apply elem_of_affected in Hin as (w' & Hkw' & _ & Hnb). congruence.
    + apply Forall_app. split; [exact H2|]. repeat constructor. exact Hne.
    + intros k. rewrite elem_of_app, H3, Hw. split.
      * intros [(w & Hkw & Hb)|Hin].
        -- rewrite Hkw. case_decide; [exists (blow w)|exists w]; auto.
        -- rewrite decide_True by exact Hin.
           apply elem_of_affected in Hin as (w & Hkw & _). rewrite Hkw.
           exists (blow w). auto.
      * intros (w' & Hw' & Hb). destruct (decide (k ∈ affected s wheel)) as [Hin|Hnin];
          [right; exact Hin|left; eauto].
Qed.

Lemma undoInv_keyPressed keyCode s : undoInv s -> undoInv (keyPressed keyCode s).
Proof.
  intros (H1 & H2 & H3).
  destruct (keyPressed_cases keyCode s) as [E|(rest & batch & H & E)]; rewrite E.
  - split; [exact H1|split; [exact H2|exact H3]].
  - destruct (keyPressed_spec s rest batch H) as (Hh & Hw & _).
    rewrite H, concat_app in H1, H3. simpl in H1, H3. rewrite app_nil_r in H1, H3.
    apply NoDup_app in H1 as (Hnd & Hdisj & _).
    rewrite H in H2. apply Forall_app in H2 as [H2 _].
    unfold undoInv. rewrite Hh. split; [exact Hnd|]. split; [exact H2|].
    intros k. rewrite Hw. split.
    + intros Hk. rewrite decide_False by (apply Hdisj, Hk).
      apply H3, elem_of_app. left. exact Hk.
    + intros (w' & Hw' & Hb). destruct (decide (k ∈ batch)) as [Hin|Hnin].
      * destruct (wheels s !! k) as [w|]; [|discriminate].
        inversion Hw'; subst w'. discriminate Hb.
      * assert (Hk : k ∈ concat rest ++ batch) by (apply H3; eauto).
        apply elem_of_app in Hk as [Hk|Hk]; [exact Hk|contradiction].
Qed.

Lemma reachable_undoInv s : reachable s -> undoInv s.
Proof.
  intros Hs. induction Hs as [s Hi|s s' _ IH Hst].
  - apply undoInv_initial, Hi.
  - destruct Hst as [s|s mx my g _|s keyCode|s s' Hi].
    + apply undoInv_draw, IH.
    + apply undoInv_mousePressed, IH.
    + apply undoInv_keyPressed, IH.
    + apply undoInv_initial, Hi.
Qed.

Lemma elem_of_concat {A} (x : A) (ls : list (list A)) :
  x ∈ concat ls <-> exists l, l ∈ ls /\ x ∈ l.
Proof.
  induction ls as [|l ls IH]; simpl.
  - split; [intros H; inversion H|intros (l & H & _); inversion H].
  - rewrite elem_of_app, IH. split.
    + intros [H|(l' & H1 & H2)]; [exists l; split; [left|exact H]|].
      exists l'. split; [right; exact H1|exact H2].
    + intros (l' & H1 & H2). apply elem_of_cons in H1 as [->|H1]; [left; exact H2|].
      right. eauto.
Qed.

(** X6. In every reachable state a wheel is blown away exactly when some
    batch of the history lists it: a dispersed wheel is never lost to the
    undo, and it is listed once only, so one press of the space bar at the
    right depth brings it back. *)
Theorem blown_iff_in_history s k w :
  reachable s -> wheels s !! k = Some w ->
  (Wheel.isBlownAway w = true
   <-> exists b, b ∈ blownAwayHistory s /\ k ∈ b)
  /\ NoDup (concat (blownAwayHistory s)).
Proof.
  intros Hs Hk. destruct (reachable_undoInv s Hs) as (H1 & _ & H3).
  split; [|exact H1]. rewrite <- elem_of_concat, H3. split.
  - intros Hb. eauto.
  - intros (w' & Hw' & Hb). congruence.
Qed.

(** X6 after the first click of the example: [wheelB] is in the history,
    [wheelA] is not. *)
Lemma blown_iff_in_history_witness :
  (exists b, b ∈ blownAwayHistory (fst (mousePressed start 180 100 rng0))
             /\ 1%nat ∈ b)
  /\ ~ (exists b, b ∈ blownAwayHistory (fst (mousePressed start 180 100 rng0))
                  /\ 0%nat ∈ b).
Proof.
  destruct after_click_B as (H0 & H1 & _).
  split.
  - apply (proj1 (blown_iff_in_history _ 1 (blow wheelB) reachable_after_click_B H1)).
    reflexivity.
  - intros H.
    apply (proj1 (blown_iff_in_history _ 0 wheelA reachable_after_click_B H0)) in H.
    discriminate H.
Defined.

Lemma keyPressed_history_length s :
  length (blownAwayHistory (keyPressed 32 s))
  = Nat.pred (length (blownAwayHistory s)).
Proof.
  destruct (list_snoc_cases (blownAwayHistory s)) as [E|(rest & batch & E)].
  - rewrite (keyPressed_empty s E), E. reflexivity.
  - destruct (keyPressed_spec s rest batch E) as (-> & _).
    rewrite E, length_app. simpl. lia.
Qed.

Lemma reachable_iter_keyPressed n s :
  reachable s -> reachable (Nat.iter n (keyPressed 32) s).
Proof.
  intros H. induction n as [|n IH]; [exact H|].
  rewrite Nat.iter_succ. eapply reach_step; [exact IH|apply step_key].
Qed.

Lemma keyPressed_place keyCode s k w :
  wheels s !! k = Some w ->
  exists w', wheels (keyPressed keyCode s) !! k = Some w'
             /\ Wheel.x w' = Wheel.x w /\ Wheel.y w' = Wheel.y w
             /\ Wheel.radius w' = Wheel.radius w
             /\ Wheel.colors w' = Wheel.colors w
             /\ Wheel.stemAngle w' = Wheel.stemAngle w.
Proof.
  intros Hw. destruct (keyPressed_wheels keyCode s k) as [E|E]; rewrite E, Hw.
  - exists w. repeat split.
  - exists (restore w). repeat split.
Qed.

(** X7. Pressing the space bar as many times as the history is deep undoes
    everything: the history is empty, no wheel is blown away, and every wheel
    is where it was, with its radius and colours. *)
Theorem undo_all s :
  reachable s ->
  let s' := Nat.iter (length (blownAwayHistory s)) (keyPressed 32) s in
  blownAwayHistory s' = []
  /\ (forall w, w ∈ wheels s' -> Wheel.isBlownAway w = false)
  /\ (forall k w, wheels s !! k = Some w ->
        exists w', wheels s' !! k = Some w'
                   /\ Wheel.x w' = Wheel.x w /\ Wheel.y w' = Wheel.y w
                   /\ Wheel.radius w' = Wheel.radius w
                   /\ Wheel.colors w' = Wheel.colors w).
Proof.
  intros Hs s'.
  assert (Hlen : forall n, length (blownAwayHistory (Nat.iter n (keyPressed 32) s))
                           = (length (blownAwayHistory s) - n)%nat).
  { intros n. induction n as [|n IH]; [simpl; lia|].
    rewrite Nat.iter_succ, keyPressed_history_length, IH. lia. }
  assert (Hh : blownAwayHistory s' = []).
  { apply length_zero_iff_nil. unfold s'. rewrite Hlen. lia. }
  split; [exact Hh|]. split.
  - intros w Hw. apply list_elem_of_lookup in Hw as [k Hk].
    destruct (reachable_undoInv s' (reachable_iter_keyPressed _ s Hs))
      as (_ & _ & H3).
    destruct (Wheel.isBlownAway w) eqn:Hb; [exfalso|reflexivity].
    assert (Hin : k ∈ concat (blownAwayHistory s')) by (apply H3; eauto).
    rewrite Hh in Hin. inversion Hin.
  - intros k w Hk. unfold s'. clear Hh Hlen s'.
    induction (length (blownAwayHistory s)) as [|n (w' & Hw' & Hx & Hy & Hr & Hc)].
    + exists w. auto.
    + rewrite Nat.iter_succ.
      destruct (keyPressed_place 32 _ k w' Hw') as (w'' & Hw'' & Hx' & Hy' & Hr' & Hc' & _).
      exists w''. repeat split; congruence.
Qed.

(** X7 after the first click of the example. *)
Lemma undo_all_witness :
  blownAwayHistory
    (Nat.iter (length (blownAwayHistory (fst (mousePressed start 180 100 rng0))))
       (keyPressed 32) (fst (mousePressed start 180 100 rng0))) = [].
Proof.
  apply (undo_all _ reachable_after_click_B).
Defined.

(** X8. The history is never deeper than there are wheels, and never deeper
    than there are blown wheels: every batch lists at least one wheel, no
    wheel is listed twice in the whole history, and every listed wheel is a
    wheel of the array. *)
Theorem history_depth_bounded s :
  reachable s ->
  (length (blownAwayHistory s) <= length (concat (blownAwayHistory s)))%nat
  /\ (length (concat (blownAwayHistory s)) <= length (wheels s))%nat
  /\ (length (blownAwayHistory s) <= length (wheels s))%nat.
Proof.
  intros Hs. destruct (reachable_undoInv s Hs) as (H1 & H2 & H3).
  assert (Ha : (length (blownAwayHistory s)
                <= length (concat (blownAwayHistory s)))%nat).
  { clear H1 H3. induction H2 as [|b h Hb _ IH]; simpl; [lia|].
    rewrite length_app. destruct b; [congruence|simpl; lia]. }
  assert (Hb : (length (concat (blownAwayHistory s)) <= length (wheels s))%nat).
  { transitivity (length (seq 0 (length (wheels s))));
      [|rewrite length_seq; reflexivity].
    apply submseteq_length, NoDup_submseteq; [exact H1|].
    intros k Hk. apply H3 in Hk as (w & Hw & _).
    apply elem_of_seq. apply lookup_lt_Some in Hw. lia. }
  split; [exact Ha|]. split; [exact Hb|lia].
Qed.

(** X8 after the first click of the example. *)
Lemma history_depth_bounded_witness :
  (length (blownAwayHistory (fst (mousePressed start 180 100 rng0)))
   <= length (wheels (fst (mousePressed start 180 100 rng0))))%nat.
Proof.
  apply (history_depth_bounded _ reachable_after_click_B).
Defined.

(** ** What the restoration test measures *)

Lemma sqrt_sum_sqr_pos x y : x <> 0 \/ y <> 0 -> 0 < sqrt (x * x + y * y).
Proof. intros H. apply sqrt_lt_R0. nra. Qed.

Lemma sqrt_scale x t : 0 < x -> sqrt (x * x + x * t * (x * t)) = x * sqrt (1 + t * t).
Proof.
  intros Hx. replace (x * x + x * t * (x * t)) with (x * x * (1 + t * t)) by ring.
  rewrite sqrt_mult; [|nra|nra]. rewrite sqrt_square by lra. reflexivity.
Qed.

(** The angle [atan2] returns points along [(x, y)]. *)
Lemma atan2_direction y x :
  cos (atan2 y x) * sqrt (x * x + y * y) = x
  /\ sin (atan2 y x) * sqrt (x * x + y * y) = y.
Proof.
  unfold atan2.
  assert (Hs : forall t, 0 < sqrt (1 + t * t)) by (intros t; apply sqrt_lt_R0; nra).
  assert (Hc : forall t, cos (atan t) = 1 / sqrt (1 + t * t))
    by (intros t; rewrite cos_atan; unfold Rsqr; reflexivity).
  assert (Hsn : forall t, sin (atan t) = t / sqrt (1 + t * t))
    by (intros t; rewrite sin_atan; unfold Rsqr; reflexivity).
  destruct (decide (0 < x)) as [Hx|Hx].
  - replace (x * x + y * y) with (x * x + x * (y / x) * (x * (y / x)))
      by (field; lra).
    rewrite (sqrt_scale x (y / x) Hx), Hc, Hsn.
    pose proof (Hs (y / x)). split; field; lra.
  - destruct (decide (x < 0)) as [Hx'|Hx'].
    + assert (E : sqrt (x * x + y * y) = - x * sqrt (1 + y / x * (y / x))).
      { replace (x * x + y * y)
          with (- x * - x + - x * (- (y / x)) * (- x * (- (y / x))))
          by (field; lra).
        rewrite (sqrt_scale (- x) (- (y / x))) by lra.
        f_equal. f_equal. ring. }
      pose proof (Hs (y / x)).
      destruct (decide (0 <= y)).
      * rewrite neg_cos, neg_sin, Hc, Hsn, E. split; field; lra.
      * replace (atan (y / x) - PI) with (- (- atan (y / x) + PI)) by ring.
        rewrite cos_neg, sin_neg, neg_cos, neg_sin, cos_neg, sin_neg, Hc, Hsn, E.
        split; field; lra.
    + assert (x = 0) by lra. subst x.
      replace (0 * 0 + y * y) with (y * y) by ring.
      destruct (decide (0 < y)) as [Hy|Hy].
      * rewrite cos_PI2, sin_PI2, sqrt_square by lra. split; ring.
      * destruct (decide (y < 0)) as [Hy'|Hy'].
        -- rewrite cos_neg, sin_neg, cos_PI2, sin_PI2.
           replace (y * y) with (- y * - y) by ring.
           rewrite sqrt_square by lra. split; ring.
        -- assert (y = 0) by lra. subst y.
           replace (0 * 0) with 0 by ring. rewrite sqrt_0. split; ring.
Qed.

Lemma returnsTo_outerDot w p :
  P.type p = "outerDot" ->
  returnsTo w p
  = bool_decide
      (dist (P.targetX p) (P.targetY p)
            (Wheel.x w
             + cos (atan2 (P.targetY p - Wheel.y w) (P.targetX p - Wheel.x w))
               * Wheel.radius w * 0.9)
            (Wheel.y w
             + sin (atan2 (P.targetY p - Wheel.y w) (P.targetX p - Wheel.x w))
               * Wheel.radius w * 0.9) < 10).
Proof. intros H. unfold returnsTo. rewrite H. reflexivity. Qed.

(** X9. For an outer-dot particle the test of the restoration filter holds
    exactly when the distance from the particle's return target to the centre
    of the wheel differs from 0.9 times the radius by less than 10: it
    measures how far the target is from the outer-dot ring, and nothing about
    which wheel the particle came from. *)
Theorem outerDot_test_is_ring_distance w p :
  P.type p = "outerDot" ->
  returnsTo w p = true
  <-> Rabs (dist (P.targetX p) (P.targetY p) (Wheel.x w) (Wheel.y w)
            - 0.9 * Wheel.radius w) < 10.
Proof.
  intros Ht. rewrite (returnsTo_outerDot w p Ht), bool_decide_eq_true.
  rewrite dist_lt_iff by lra.
  set (dx := P.targetX p - Wheel.x w). set (dy := P.targetY p - Wheel.y w).
  destruct (atan2_direction dy dx) as [Hc Hs].
  set (c := cos (atan2 dy dx)) in *. set (sn := sin (atan2 dy dx)) in *.
  pose proof (sin2_cos2 (atan2 dy dx)) as Hone. unfold Rsqr in Hone.
  fold c sn in Hone.
  assert (Ed : dist (P.targetX p) (P.targetY p) (Wheel.x w) (Wheel.y w)
               = sqrt (dx * dx + dy * dy)).
  { unfold dist, dx, dy. f_equal. ring. }
  rewrite Ed. set (d := sqrt (dx * dx + dy * dy)) in *.
  set (k := Wheel.radius w).
  match goal with
  | |- ?l < _ <-> _ =>
      replace l with ((sn * sn + c * c) * ((0.9 * k - d) * (0.9 * k - d)))
  end.
  - rewrite Hone. split; intros H.
    + apply Rabs_def1; nra.
    + apply Rabs_def2 in H. nra.
  - replace (Wheel.x w + c * k * 0.9 - P.targetX p) with (c * k * 0.9 - c * d)
      by (rewrite Hc; unfold dx; ring).
    replace (Wheel.y w + sn * k * 0.9 - P.targetY p) with (sn * k * 0.9 - sn * d)
      by (rewrite Hs; unfold dy; ring).
    ring.
Qed.

Lemma firstDot_fields :
  P.type firstDot = "outerDot"
  /\ P.targetX firstDot = 225 /\ P.targetY firstDot = 100.
Proof.
  unfold firstDot. rewrite dotParticle_eq.
  cbn [P.type P.targetX P.targetY Wheel.x Wheel.y Wheel.radius blow wheelB
       Wheel.set_innerAlpha Wheel.set_isBlownAway].
  assert (E : p5map (INR 0) 0 (INR dotCount) 0 TWO_PI = 0).
  { unfold p5map. simpl INR at 1. unfold Rdiv. ring. }
  rewrite E, cos_0, sin_0. repeat split; lra.
Qed.

(** X9 on the first outer dot of [wheelB]: its target is on the ring, so the
    test holds. *)
Lemma outerDot_test_is_ring_distance_witness :
  P.type firstDot = "outerDot" /\ returnsTo wheelB firstDot = true.
Proof.
  destruct firstDot_fields as (Ht & Hx & Hy).
  split; [exact Ht|].
  apply (proj2 (outerDot_test_is_ring_distance wheelB firstDot Ht)).
  rewrite Hx, Hy. unfold dist. simpl.
  replace ((180 - 225) * (180 - 225) + (100 - 100) * (100 - 100))
    with (45 * 45) by ring.
  rewrite sqrt_square by lra.
  replace (45 - 0.9 * 50) with 0 by lra. rewrite Rabs_R0. lra.
Defined.

(** The spoke test on the first spoke of [wheelB] before it has turned. *)
Lemma returnsTo_turned_spoke_witness : returnsTo wheelB turningSpoke = true.
Proof.
  destruct turningSpoke_fields as (Ht & _ & _ & _ & _ & Hrot & _ & [Hx Hy]).
  set (a := p5map (INR 0) 0 (INR spokeCount) 0 TWO_PI) in *.
  assert (Ea : a = 0).
  { unfold a, p5map. simpl INR at 1. unfold Rdiv. ring. }
  apply (proj2 (returnsTo_turned_spoke wheelB turningSpoke a (0 - a) Ht Hx Hy
                  ltac:(rewrite Hrot; ring))).
  rewrite Ea. replace (0 - 0) with 0 by ring. rewrite cos_0. lra.
Defined.

(** ** A click followed by the space bar *)

Lemma dist_self x y x' y' : x' = x -> y' = y -> dist x y x' y' = 0.
Proof.
  intros -> ->. unfold dist.
  replace ((x - x) * (x - x) + (y - y) * (y - y)) with 0 by ring. apply sqrt_0.
Qed.

(** A particle just spawned from a wheel passes the test for that wheel. *)
Lemma returnsTo_spawned f w p :
  0 <= Wheel.radius w -> spawnedBy f w p -> returnsTo w p = true.
Proof.
  intros Hr (j & g & _ & [[_ ->]|[_ ->]]).
  - rewrite returnsTo_spoke by (rewrite spokeParticle_eq; reflexivity).
    rewrite spokeParticle_eq. cbn [P.targetX P.targetY P.rotation].
    apply bool_decide_eq_true. rewrite dist_self; [lra|ring|ring].
  - rewrite returnsTo_outerDot by (rewrite dotParticle_eq; reflexivity).
    rewrite dotParticle_eq. cbn [P.targetX P.targetY].
    set (a := p5map _ _ _ _ _). set (k := Wheel.radius w * 0.9).
    replace (Wheel.y w + sin a * k - Wheel.y w) with (k * sin a) by ring.
    replace (Wheel.x w + cos a * k - Wheel.x w) with (k * cos a) by ring.
    destruct (atan2_direction (k * sin a) (k * cos a)) as [Hc Hs].
    pose proof (sin2_cos2 a) as Hone. unfold Rsqr in Hone.
    assert (Ed : sqrt (k * cos a * (k * cos a) + k * sin a * (k * sin a)) = k).
    { replace (k * cos a * (k * cos a) + k * sin a * (k * sin a))
        with (k * k * (sin a * sin a + cos a * cos a)) by ring.
      rewrite Hone, Rmult_1_r. apply sqrt_square. unfold k. lra. }
    rewrite Ed in Hc, Hs.
    apply bool_decide_eq_true. rewrite dist_self; [lra| |].
    + transitivity (Wheel.x w
                    + cos (atan2 (k * sin a) (k * cos a)) * k); [unfold k; ring|].
      rewrite Hc. ring.
    + transitivity (Wheel.y w
                    + sin (atan2 (k * sin a) (k * cos a)) * k); [unfold k; ring|].
      rewrite Hs. ring.
Qed.

Lemma matched_intro ws batch p k w :
  k ∈ batch -> ws !! k = Some w -> returnsTo w p = true ->
  matched ws batch p = true.
Proof.
  intros Hk Hw Hr. unfold matched. apply existsb_exists.
  exists k. split; [apply list_elem_of_In, Hk|]. rewrite Hw. exact Hr.
Qed.

(** X11. A click that disperses a colour group, followed at once by the
    space bar, gives back the history as it was and the blown flags as they
    were; the wheels of the group restart their fade at 0 and no other wheel
    changes; and, the radii being non-negative, every one of the [N * 64]
    particles the click spawned is sent back (older particles are sent back
    or left as the test decides). *)
Theorem click_then_undo s mouseX mouseY g i wheel :
  clicked s mouseX mouseY i wheel ->
  (forall k w, k ∈ affected s wheel -> wheels s !! k = Some w ->
               0 <= Wheel.radius w) ->
  let s1 := fst (mousePressed s mouseX mouseY g) in
  let s2 := keyPressed 32 s1 in
  blownAwayHistory s2 = blownAwayHistory s
  /\ (forall k, wheels s2 !! k
                = if decide (k ∈ affected s wheel)
                  then Wheel.set_innerAlpha 0 <$> wheels s !! k
                  else wheels s !! k)
  /\ exists new,
       dandelionParticles s1 = dandelionParticles s ++ new
       /\ length new = (length (affected s wheel) * 64)%nat
       /\ dandelionParticles s2
          = (recall (wheels s1) (affected s wheel) <$> dandelionParticles s)
            ++ (P.startReturn <$> new).
Proof.
  intros Hc Hrad s1 s2.
  pose proof (clicked_nonempty _ _ _ _ _ Hc) as Hne.
  assert (E1 : mousePressed s mouseX mouseY g = disperse s wheel g)
    by apply (mousePressed_clicked _ _ _ g _ _ Hc).
  destruct (disperse_spec s wheel g Hne) as (Hh & _ & Hw & new & Hps & Hlen & Hnew).
  rewrite <- E1 in Hh, Hw, Hps. fold s1 in Hh, Hw, Hps.
  destruct (keyPressed_spec s1 _ _ Hh) as (Hh2 & Hw2 & Hps2). fold s2 in Hh2, Hw2, Hps2.
  split; [exact Hh2|]. split.
  - intros k. rewrite Hw2, Hw. case_decide as Hk; [|reflexivity].
    apply elem_of_affected in Hk as (w & Hkw & _ & Hb). rewrite Hkw. simpl.
    f_equal. destruct w; simpl in *. subst. reflexivity.
  - exists new. split; [exact Hps|]. split; [exact Hlen|].
    rewrite Hps2, Hps, fmap_app. f_equal.
    apply list_fmap_ext. intros n p Hp. apply list_elem_of_lookup_2 in Hp.
    destruct (Hnew p Hp) as (k & w & Hk & Hkw & Hsp).
    unfold recall. rewrite (matched_intro _ _ p k (blow w)); [reflexivity|exact Hk| |].
    + rewrite Hw, decide_True, Hkw by exact Hk. reflexivity.
    + apply (returnsTo_spawned (src g)); [apply (Hrad k w Hk Hkw)|exact Hsp].
Qed.

(** X11 on the first click of the example. *)
Lemma click_then_undo_witness :
  blownAwayHistory (keyPressed 32 (fst (mousePressed start 180 100 rng0))) = []
  /\ wheels (keyPressed 32 (fst (mousePressed start 180 100 rng0))) !! 1%nat
     = Some wheelB.
Proof.
  destruct (click_then_undo start 180 100 rng0 1 wheelB clicked_start_B)
    as (Hh & Hw & _).
  - intros k w Hk Hkw. rewrite affected_start_B in Hk.
    apply list_elem_of_singleton in Hk. subst k. inversion Hkw. simpl. lra.
  - split; [exact Hh|]. rewrite Hw. reflexivity.
Defined.

(** ** The layout: placing the wheels *)

Lemma random2_range lo hi g :
  rng_ok g ->
  Rmin lo hi <= fst (random2 lo hi g) <= Rmax lo hi
  /\ (lo < hi -> lo <= fst (random2 lo hi g) < hi).
Proof.
  intros Hg. pose proof (Hg (pos g)) as Hu. unfold random2, uniform.
  unfold Rmin, Rmax. case_decide; destruct (Rle_dec lo hi); simpl;
    split; try split; try (intros; split); nra.
Qed.

Lemma randomOf_src {A} (l : list A) g : src (snd (randomOf l g)) = src g.
Proof. reflexivity. Qed.

(** With draws in [0,1), [random(array)] returns an entry of a non-empty
    array. *)
Lemma randomOf_elem {A} (l : list A) g :
  rng_ok g -> l <> [] -> exists a, fst (randomOf l g) = Some a /\ a ∈ l.
Proof.
  intros Hg Hl. pose proof (Hg (pos g)) as Hu. unfold randomOf, uniform. simpl.
  set (r := src g (pos g) * INR (length l)).
  assert (Hn : 0 < INR (length l)).
  { apply lt_0_INR. destruct l; [congruence|simpl; lia]. }
  destruct (base_Int_part r) as [H1 H2].
  assert (Hr : 0 <= r < INR (length l)) by (unfold r; nra).
  assert (Hlo : (0 <= Int_part r)%Z).
  { assert (IZR (-1) < IZR (Int_part r)) by (simpl; lra).
    apply lt_IZR in H. lia. }
  assert (Hhi : (Int_part r < Z.of_nat (length l))%Z).
  { apply lt_IZR. rewrite <- INR_IZR_INZ. lra. }
  rewrite decide_True by exact Hlo.
  destruct (lookup_lt_is_Some_2 l (Z.to_nat (Int_part r))) as [a Ha]; [lia|].
  exists a. split; [exact Ha|]. eapply list_elem_of_lookup_2, Ha.
Qed.

(** What the scan of the wheels already placed reports. *)
Lemma scanOthers_spec cx cy cr others b :
  let r := scanOthers cx cy cr others b in
  (fst r = false ->
   (forall o, o ∈ others ->
      ~ dist cx cy (Wheel.x o) (Wheel.y o)
        < cr + Wheel.radius o - Rmin cr (Wheel.radius o) * 0.4)
   /\ (snd r = true
       <-> b = true
           \/ exists o, o ∈ others
                /\ dist cx cy (Wheel.x o) (Wheel.y o) < (cr + Wheel.radius o) * 1.5))
  /\ (fst r = true ->
      exists o, o ∈ others
        /\ dist cx cy (Wheel.x o) (Wheel.y o)
           < cr + Wheel.radius o - Rmin cr (Wheel.radius o) * 0.4).
Proof.
  revert b. induction others as [|o rest IH]; intros b; simpl.
  - split; [|discriminate]. intros _. split.
    + intros o Ho. inversion Ho.
    + split; [auto|]. intros [H|(o & Ho & _)]; [exact H|inversion Ho].
  - case_decide as Hov; simpl.
    + split; [discriminate|]. intros _. exists o. split; [left|exact Hov].
    + case_decide as Hnear.
      * destruct (IH true) as [IH1 IH2]. split.
        -- intros Hf. destruct (IH1 Hf) as [Ha Hb]. split.
           ++ intros o' Ho'. apply elem_of_cons in Ho' as [->|Ho']; auto.
           ++ rewrite Hb. split; [|auto].
              intros _. right. exists o. split; [left|exact Hnear].
        -- intros Ht. destruct (IH2 Ht) as (o' & Ho' & H). exists o'.
           split; [right; exact Ho'|exact H].
      * destruct (IH b) as [IH1 IH2]. split.
        -- intros Hf. destruct (IH1 Hf) as [Ha Hb]. split.
           ++ intros o' Ho'. apply elem_of_cons in Ho' as [->|Ho']; auto.
           ++ rewrite Hb. split.
              ** intros [H|(o' & Ho' & H)]; [left; exact H|].
                 right. exists o'. split; [right; exact Ho'|exact H].
              ** intros [H|(o' & Ho' & H)]; [left; exact H|].
                 apply elem_of_cons in Ho' as [->|Ho']; [contradiction|].
                 right. eauto.
        -- intros Ht. destruct (IH2 Ht) as (o' & Ho' & H). exists o'.
           split; [right; exact Ho'|exact H].
Qed.

Lemma colorPalettes_spare pal :
  List.filter (fun q => negb (bool_decide (q = pal))) colorPalettes <> [].
Proof.
  set (p0 := ["#45206A"; "#FFD700"; "#FF8C00"; "#B0E0E6"; "#8A2BE2"]%string).
  set (p1 := ["#D90429"; "#F4D35E"; "#F7B267"; "#0A796F"; "#2E4057"]%string).
  assert (Hin : forall q, q ∈ colorPalettes -> q <> pal ->
                  q ∈ List.filter (fun q => negb (bool_decide (q = pal)))
                                  colorPalettes).
  { intros q Hq Hne. apply list_elem_of_In, List.filter_In.
    split; [apply list_elem_of_In, Hq|].
    apply negb_true_iff, bool_decide_eq_false, Hne. }
  intros E. destruct (decide (p0 = pal)) as [<-|Hne].
  - assert (H : p1 ∈ @nil (list string)).
    { rewrite <- E. apply Hin; [right; left|discriminate]. }
    inversion H.
  - assert (H : p0 ∈ @nil (list string)).
    { rewrite <- E. apply Hin; [left|exact Hne]. }
    inversion H.
Qed.

(** With draws in [0,1) a palette of the table is selected, and not the one
    of the last wheel. *)
Lemma selectPalette_spec ws g :
  rng_ok g ->
  src (snd (selectPalette ws g)) = src g
  /\ exists pal, fst (selectPalette ws g) = Some pal
       /\ pal ∈ colorPalettes
       /\ forall lastWheel, last ws = Some lastWheel ->
                            pal <> Wheel.colors lastWheel.
Proof.
  intros Hg. unfold selectPalette.
  destruct (randomOf_elem colorPalettes g Hg) as (pal & Hpal & Hin); [discriminate|].
  pose proof (randomOf_src colorPalettes g) as Hs.
  destruct (randomOf colorPalettes g) as [sel g1]. simpl in Hpal, Hs. subst sel.
  destruct (last ws) as [lastWheel|].
  - case_decide as E.
    + assert (Hg1 : rng_ok g1) by (unfold rng_ok; rewrite Hs; exact Hg).
      destruct (randomOf_elem _ g1 Hg1 (colorPalettes_spare pal))
        as (pal' & Hpal' & Hin').
      split; [rewrite randomOf_src; exact Hs|].
      exists pal'. split; [exact Hpal'|].
      apply list_elem_of_In, List.filter_In in Hin' as [Hin' Hne].
      apply negb_true_iff, bool_decide_eq_false in Hne.
      split; [apply list_elem_of_In, Hin'|].
      intros lw Hlw. inversion Hlw; subst lw. congruence.
    + split; [exact Hs|]. exists pal. split; [reflexivity|]. split; [exact Hin|].
      intros lw Hlw. inversion Hlw; subst lw. exact E.
  - split; [exact Hs|]. exists pal. split; [reflexivity|]. split; [exact Hin|].
    intros lw Hlw. discriminate.
Qed.

Lemma uniform_src g : src (snd (uniform g)) = src g.
Proof. reflexivity. Qed.

Lemma ok_of_src g g' : src g' = src g -> rng_ok g -> rng_ok g'.
Proof. intros E H n. rewrite E. apply H. Qed.

(** One attempt: either the wheels are left as they are, or one wheel is
    pushed, fresh, with a palette of the table other than the last wheel's,
    not overlapping any wheel too much, near some wheel unless it is the
    first, and drawn within the ranges of the three calls of [random]. *)
Lemma tryPlace_cases width height ws g :
  rng_ok g ->
  src (snd (tryPlace width height ws g)) = src g
  /\ (fst (tryPlace width height ws g) = Some ws
      \/ exists w,
           fst (tryPlace width height ws g) = Some (ws ++ [w])
           /\ fresh w
           /\ Wheel.colors w ∈ colorPalettes
           /\ (forall lastWheel, last ws = Some lastWheel ->
                 Wheel.colors w <> Wheel.colors lastWheel)
           /\ (forall o, o ∈ ws ->
                 ~ dist (Wheel.x w) (Wheel.y w) (Wheel.x o) (Wheel.y o)
                   < Wheel.radius w + Wheel.radius o
                     - Rmin (Wheel.radius w) (Wheel.radius o) * 0.4)
           /\ (ws <> [] ->
               exists o, o ∈ ws
                 /\ dist (Wheel.x w) (Wheel.y w) (Wheel.x o) (Wheel.y o)
                    < (Wheel.radius w + Wheel.radius o) * 1.5)
           /\ (width * 0.04 < width * 0.12 ->
               width * 0.04 <= Wheel.radius w < width * 0.12)
           /\ (Wheel.radius w < width - Wheel.radius w ->
               Wheel.radius w <= Wheel.x w < width - Wheel.radius w)
           /\ (Wheel.radius w < height - Wheel.radius w ->
               Wheel.radius w <= Wheel.y w < height - Wheel.radius w)).
Proof.
  intros Hg. unfold tryPlace.
  pose proof (random2_range (width * 0.04) (width * 0.12) g Hg) as [_ Hr].
  pose proof (random2_src (width * 0.04) (width * 0.12) g) as S1.
  destruct (random2 (width * 0.04) (width * 0.12) g) as [cr g1]. simpl in Hr, S1.
  assert (Hg1 : rng_ok g1) by (apply (ok_of_src g); assumption).
  pose proof (random2_range cr (width - cr) g1 Hg1) as [_ Hx].
  pose proof (random2_src cr (width - cr) g1) as S2.
  destruct (random2 cr (width - cr) g1) as [cx g2]. simpl in Hx, S2.
  assert (Hg2 : rng_ok g2) by (apply (ok_of_src g1); assumption).
  pose proof (random2_range cr (height - cr) g2 Hg2) as [_ Hy].
  pose proof (random2_src cr (height - cr) g2) as S3.
  destruct (random2 cr (height - cr) g2) as [cy g3]. simpl in Hy, S3.
  assert (Hg3 : rng_ok g3) by (apply (ok_of_src g2); assumption).
  pose proof (scanOthers_spec cx cy cr ws false) as Hscan.
  destruct (scanOthers cx cy cr ws false) as [over near]. simpl in Hscan.
  destruct Hscan as [Hok _].
  assert (S123 : src g3 = src g) by (rewrite S3, S2; exact S1).
  destruct over; simpl.
  { split; [exact S123|]. left. reflexivity. }
  destruct (Hok eq_refl) as [Hno Hnear]. clear Hok.
  destruct (if decide (length ws = 0%nat) then true else near) eqn:Hhas.
  2:{ split; [exact S123|]. left. reflexivity. }
  destruct (selectPalette_spec ws g3 Hg3) as (S4 & pal & Hpal & Hin & Hlast).
  destruct (selectPalette ws g3) as [sel g4]. simpl in Hpal, S4. subst sel.
  unfold Wheel.new, random1, uniform. simpl.
  split; [rewrite S4; exact S123|]. right.
  eexists. split; [reflexivity|]. simpl.
  split; [repeat split|]. split; [exact Hin|]. split; [exact Hlast|].
  split; [exact Hno|]. split; [|auto].
  intros Hne. case_decide as Hlen.
  - destruct ws; [congruence|discriminate].
  - apply Hnear in Hhas as [?|H]; [discriminate|exact H].
Qed.

(** The loop keeps whatever one attempt keeps; it always returns, with at
    most 25 wheels, and with no attempt left when it placed fewer. *)
Lemma placeWheels_inv (I : list Wheel.t -> Prop) width height :
  (forall ws g ws', rng_ok g -> I ws ->
     fst (tryPlace width height ws g) = Some ws' -> I ws') ->
  forall n ws g, rng_ok g -> I ws -> (length ws <= numWheels)%nat ->
    exists ws' left,
      fst (placeWheels n width height ws g) = Some (ws', left)
      /\ I ws' /\ src (snd (placeWheels n width height ws g)) = src g
      /\ (left <= n)%nat /\ (length ws' <= numWheels)%nat
      /\ ((length ws' < numWheels)%nat -> left = 0%nat).
Proof.
  intros Hstep n. induction n as [|n IH]; intros ws g Hg Hi Hlen; simpl.
  - exists ws, 0%nat. repeat split; auto.
  - case_decide as Hlt.
    + destruct (tryPlace_cases width height ws g Hg) as (Hs & Hcase).
      pose proof (Hstep ws g) as Hstep'.
      destruct (tryPlace width height ws g) as [[ws'|] g'] eqn:E; simpl in *.
      * destruct (IH ws' g') as (ws'' & left & H1 & H2 & H3 & H4 & H5 & H6).
        -- apply (ok_of_src g); assumption.
        -- apply Hstep'; auto.
        -- destruct Hcase as [Hc|(w & Hc & _)]; inversion Hc; subst ws';
             [lia|rewrite length_app; simpl; lia].
        -- exists ws'', left. split; [exact H1|]. split; [exact H2|].
           split; [rewrite H3; exact Hs|]. split; [lia|].
           split; [exact H5|exact H6].
      * destruct Hcase as [Hc|(w & Hc & _)]; discriminate.
    + exists ws, (S n). repeat split; auto. lia.
Qed.

(** ** The layout: the connectors *)

Lemma elem_of_wheelPairs n i j :
  (i, j) ∈ wheelPairs n <-> (i < j < n)%nat.
Proof.
  unfold wheelPairs. rewrite list_elem_of_In, in_flat_map. split.
  - intros (a & Ha & Hin). apply in_seq in Ha.
    apply list_elem_of_In, list_elem_of_fmap in Hin as (b & E & Hb).
    inversion E; subst a b. apply elem_of_seq in Hb. lia.
  - intros H. exists i. split; [apply in_seq; lia|].
    apply list_elem_of_In, list_elem_of_fmap. exists j.
    split; [reflexivity|]. apply elem_of_seq. lia.
Qed.

Lemma connectPair_far ws cs g ij :
  closePair ws ij = false -> connectPair ws (Some cs, g) ij = (Some cs, g).
Proof.
  unfold closePair, connectPair. intros H.
  destruct (ws !! ij.1); [|reflexivity]. destruct (ws !! ij.2); [|reflexivity].
  rewrite H. reflexivity.
Qed.

Lemma connectPair_close ws cs g ij :
  closePair ws ij = true ->
  exists wa wb,
    ws !! ij.1 = Some wa /\ ws !! ij.2 = Some wb
    /\ connectPair ws (Some cs, g) ij
       = (match fst (randomOf colorPalettes g) with
          | Some pal =>
              Some (cs ++ [Connector.new ij.1 ij.2 wa wb (pal !! 0%nat)])
          | None => None
          end, snd (randomOf colorPalettes g)).
Proof.
  unfold closePair, connectPair. intros H.
  destruct (ws !! ij.1) as [wa|]; [|discriminate].
  destruct (ws !! ij.2) as [wb|]; [|discriminate].
  exists wa, wb. rewrite H. split; [reflexivity|]. split; [reflexivity|].
  destruct (randomOf colorPalettes g) as [[pal|] g']; reflexivity.
Qed.

(** The connector loops: they always return, and push one connector for each
    pair that passes the test, in the order of the pairs. *)
Lemma foldl_connectPair ws ps : forall cs g,
  rng_ok g ->
  exists cs',
    fst (foldl (connectPair ws) (Some cs, g) ps) = Some (cs ++ cs')
    /\ src (snd (foldl (connectPair ws) (Some cs, g) ps)) = src g
    /\ (fun c => (Connector.w1 c, Connector.w2 c)) <$> cs'
       = List.filter (closePair ws) ps
    /\ Forall (connects ws) cs'.
Proof.
  induction ps as [|ij ps IH]; intros cs g Hg; cbn [foldl List.filter].
  - exists []. rewrite app_nil_r. repeat split. constructor.
  - destruct (closePair ws ij) eqn:Hclose.
    + destruct (connectPair_close ws cs g ij Hclose) as (wa & wb & Ha & Hb & ->).
      destruct (randomOf_elem colorPalettes g Hg) as (pal & Hpal & Hin);
        [discriminate|].
      rewrite Hpal.
      destruct (IH (cs ++ [Connector.new ij.1 ij.2 wa wb (pal !! 0%nat)])
                   (snd (randomOf colorPalettes g)))
        as (cs' & H1 & H2 & H3 & H4);
        [apply (ok_of_src g); [apply randomOf_src|exact Hg]|].
      exists (Connector.new ij.1 ij.2 wa wb (pal !! 0%nat) :: cs').
      split; [rewrite H1, <- app_assoc; reflexivity|].
      split; [rewrite H2; apply randomOf_src|].
      split; [rewrite fmap_cons, H3; destruct ij; reflexivity|].
      constructor; [|exact H4]. exists wa, wb, pal. auto.
    + rewrite (connectPair_far ws cs g ij Hclose).
      destruct (IH cs g Hg) as (cs' & H1 & H2 & H3 & H4). exists cs'. auto.
Qed.

(** What a property of wheel lists that each attempt keeps gives for the
    whole of [initializeArtwork]: with draws in [0,1) it returns an artwork
    whose wheels have the property. *)
Lemma initializeArtwork_inv (I : list Wheel.t -> Prop) width height g :
  (forall ws g0 ws', rng_ok g0 -> I ws ->
     fst (tryPlace width height ws g0) = Some ws' -> I ws') ->
  I [] -> rng_ok g ->
  exists art,
    fst (initializeArtwork width height g) = Some art
    /\ I (wheels (artState art))
    /\ dandelionParticles (artState art) = []
    /\ blownAwayHistory (artState art) = []
    /\ (length (wheels (artState art)) <= numWheels)%nat
    /\ ((length (wheels (artState art)) < numWheels)%nat -> logged art = true)
    /\ (fun c => (Connector.w1 c, Connector.w2 c)) <$> connectors art
       = List.filter (closePair (wheels (artState art)))
           (wheelPairs (length (wheels (artState art))))
    /\ Forall (connects (wheels (artState art))) (connectors art)
    /\ src (snd (initializeArtwork width height g)) = src g.
Proof.
  intros Hstep H0 Hg. unfold initializeArtwork.
  destruct (placeWheels_inv I width height Hstep maxAttempts [] g Hg H0)
    as (ws & left & H1 & H2 & H3 & H4 & H5 & H6); [simpl; lia|].
  destruct (placeWheels maxAttempts width height [] g) as [r g1].
  simpl in H1, H3. subst r.
  destruct (foldl_connectPair ws (wheelPairs (length ws)) [] g1)
    as (cs & C1 & C2 & C3 & C4); [apply (ok_of_src g); assumption|].
  unfold connectWheels.
  destruct (foldl (connectPair ws) (Some [], g1) (wheelPairs (length ws)))
    as [r g2]. simpl in C1, C2. subst r. simpl.
  eexists. split; [reflexivity|]. simpl.
  split; [exact H2|]. split; [reflexivity|]. split; [reflexivity|].
  split; [exact H5|]. split.
  - intros Hlt. apply bool_decide_eq_true, H6, Hlt.
  - split; [exact C3|]. split; [exact C4|]. rewrite C2. exact H3.
Qed.

(** ** What the layout guarantees *)

Lemma lookup_snoc_cases {A} (l : list A) (a : A) j x :
  (l ++ [a]) !! j = Some x ->
  (l !! j = Some x /\ (j < length l)%nat) \/ (j = length l /\ x = a).
Proof.
  intros H. apply lookup_app_Some in H as [H|[Hj H]].
  - left. split; [exact H|eapply lookup_lt_Some, H].
  - right. apply list_lookup_singleton_Some in H as [H ->]. split; [lia|reflexivity].
Qed.

(** X12. With draws in [0,1), [initializeArtwork] (and so [windowResized])
    always returns: at most 25 wheels, all fresh from the constructor, no
    particle, no history, whatever was there before; the result is a state
    every execution may start from or be reset to.  When fewer than 25
    wheels could be placed in the 5000 attempts, the message is logged. *)
Theorem initializeArtwork_resets windowWidth windowHeight g :
  rng_ok g ->
  exists art,
    fst (windowResized windowWidth windowHeight g) = Some art
    /\ initial (artState art)
    /\ reachable (artState art)
    /\ (forall s, step s (artState art))
    /\ (length (wheels (artState art)) <= 25)%nat
    /\ ((length (wheels (artState art)) < 25)%nat -> logged art = true)
    /\ rng_ok (snd (windowResized windowWidth windowHeight g)).
Proof.
  intros Hg. unfold windowResized.
  destruct (initializeArtwork_inv (Forall fresh) windowWidth windowHeight g)
    as (art & H1 & H2 & H3 & H4 & H5 & H6 & _ & _ & H7).
  - intros ws g0 ws' Hg0 Hws E.
    destruct (tryPlace_cases windowWidth windowHeight ws g0 Hg0)
      as (_ & [Hc|(w & Hc & Hf & _)]); rewrite Hc in E; inversion E; subst ws'.
    + exact Hws.
    + apply Forall_app. split; [exact Hws|]. repeat constructor; apply Hf.
  - constructor.
  - exact Hg.
  - assert (Hi : initial (artState art)) by (split; [exact H2|split; assumption]).
    exists art. split; [exact H1|]. split; [exact Hi|].
    split; [apply reach_init, Hi|]. split; [intros s; apply step_resize, Hi|].
    split; [exact H5|]. split; [exact H6|]. apply (ok_of_src g); assumption.
Qed.

(** X12 with every draw 0 on a canvas of 1000 by 800. *)
Lemma initializeArtwork_resets_witness :
  exists art, fst (windowResized 1000 800 rng0) = Some art
              /\ dandelionParticles (artState art) = [].
Proof.
  destruct (initializeArtwork_resets 1000 800 rng0 rng0_ok)
    as (art & H1 & (_ & H2 & _) & _).
  exists art. split; [exact H1|exact H2].
Defined.

(** *** A layout of two wheels *)

Lemma rngPair_ok : rng_ok rngPair.
Proof. intros n. simpl. destruct (Nat.eqb n 6); lra. Qed.

Lemma random2_at lo hi g :
  ~ hi < lo ->
  random2 lo hi g = (src g (pos g) * (hi - lo) + lo, mkRng (S (pos g)) (src g)).
Proof. intros H. unfold random2, uniform. rewrite decide_False by exact H. reflexivity. Qed.

(** An attempt whose candidate passes the two tests pushes the candidate. *)
Lemma tryPlace_places width height ws g cr cx cy near :
  rng_ok g ->
  ~ width * 0.12 < width * 0.04 ->
  cr = src g (pos g) * (width * 0.12 - width * 0.04) + width * 0.04 ->
  ~ width - cr < cr ->
  cx = src g (S (pos g)) * (width - cr - cr) + cr ->
  ~ height - cr < cr ->
  cy = src g (S (S (pos g))) * (height - cr - cr) + cr ->
  scanOthers cx cy cr ws false = (false, near) ->
  ws = [] \/ near = true ->
  exists w g',
    tryPlace width height ws g = (Some (ws ++ [w]), g')
    /\ (Wheel.x w = cx /\ Wheel.y w = cy /\ Wheel.radius w = cr)
    /\ src g' = src g
    /\ (ws = [] -> pos g' = (5 + pos g)%nat).
Proof.
  intros Hg Hr -> Hx -> Hy -> Hscan Hnear. unfold tryPlace.
  rewrite (random2_at _ _ g Hr). cbn [pos src].
  rewrite (random2_at _ _ _ Hx). cbn [pos src].
  rewrite (random2_at _ _ _ Hy). cbn [pos src].
  rewrite Hscan.
  assert (Hhas : (if decide (length ws = 0%nat) then true else near) = true).
  { case_decide as Hl; [reflexivity|]. destruct Hnear as [-> | ->];
      [exfalso; apply Hl; reflexivity|reflexivity]. }
  rewrite Hhas. cbn [negb andb].
  set (g3 := mkRng (S (S (S (pos g)))) (src g)).
  assert (Hg3 : rng_ok g3) by exact Hg.
  destruct (selectPalette_spec ws g3 Hg3) as (S4 & pal & Hpal & _).
  assert (Hpos : ws = [] -> pos (snd (selectPalette ws g3)) = (4 + pos g)%nat).
  { intros ->. unfold selectPalette.
    assert (Hp : pos (snd (randomOf colorPalettes g3)) = (4 + pos g)%nat)
      by reflexivity.
    destruct (randomOf colorPalettes g3) as [[sel|] g4]; exact Hp. }
  destruct (selectPalette ws g3) as [sel g4]. cbn [fst snd] in *. subst sel.
  unfold Wheel.new, random1, uniform.
  eexists _, _. split; [reflexivity|]. cbn [Wheel.x Wheel.y Wheel.radius src pos].
  split; [repeat split|]. split; [exact S4|].
  intros Hws. rewrite (Hpos Hws). reflexivity.
Qed.

Lemma placeWheels_S n width height ws g :
  placeWheels (S n) width height ws g
  = if decide (length ws < numWheels)%nat then
      match tryPlace width height ws g with
      | (Some ws', g') => placeWheels n width height ws' g'
      | (None, g') => (None, g')
      end
    else (Some (ws, S n), g).
Proof. reflexivity. Qed.

(** The loop never drops a wheel it has placed. *)
Lemma placeWheels_keeps ws0 width height n ws g :
  rng_ok g -> ws0 `prefix_of` ws -> (length ws <= numWheels)%nat ->
  exists ws' left,
    fst (placeWheels n width height ws g) = Some (ws', left)
    /\ ws0 `prefix_of` ws'.
Proof.
  intros Hg Hpre Hlen.
  destruct (placeWheels_inv (fun l => ws0 `prefix_of` l) width height)
    with (n := n) (ws := ws) (g := g) as (ws' & left & H1 & H2 & _); auto.
  - intros l g0 l' Hg0 Hl E.
    destruct (tryPlace_cases width height l g0 Hg0) as (_ & [Hc|(w & Hc & _)]);
      rewrite Hc in E; inversion E; subst l'; [exact Hl|].
    etransitivity; [exact Hl|]. apply prefix_app_r. reflexivity.
  - exists ws', left. split; assumption.
Qed.

(** The wheels of the artwork are those the loop returns. *)
Lemma initializeArtwork_wheels width height g ws left :
  rng_ok g ->
  src (snd (placeWheels maxAttempts width height [] g)) = src g ->
  fst (placeWheels maxAttempts width height [] g) = Some (ws, left) ->
  exists art,
    fst (initializeArtwork width height g) = Some art
    /\ wheels (artState art) = ws.
Proof.
  intros Hg Hs E. unfold initializeArtwork.
  destruct (placeWheels maxAttempts width height [] g) as [r g1].
  cbn [fst snd] in E, Hs. subst r.
  destruct (foldl_connectPair ws (wheelPairs (length ws)) [] g1)
    as (cs & C1 & _); [apply (ok_of_src g); assumption|].
  unfold connectWheels.
  destruct (foldl (connectPair ws) (Some [], g1) (wheelPairs (length ws)))
    as [r g2]. cbn [fst] in C1. subst r.
  eexists. split; reflexivity.
Qed.

(** With the draws of [rngPair] on a canvas of 1000 by 800 the layout starts
    with a wheel of radius 40 at (40, 40) and one of radius 40 at (132, 40). *)
Lemma layout_pair :
  exists art w0 w1,
    fst (initializeArtwork 1000 800 rngPair) = Some art
    /\ wheels (artState art) !! 0%nat = Some w0
    /\ wheels (artState art) !! 1%nat = Some w1
    /\ (Wheel.x w0 = 40 /\ Wheel.y w0 = 40 /\ Wheel.radius w0 = 40)
    /\ (Wheel.x w1 = 132 /\ Wheel.y w1 = 40 /\ Wheel.radius w1 = 40).
Proof.
  destruct (tryPlace_places 1000 800 [] rngPair 40 40 40 false rngPair_ok)
    as (w0 & g1 & E1 & F0 & S1 & P1);
    try (cbn [src pos rngPair Nat.eqb]; lra); [reflexivity|left; reflexivity|].
  specialize (P1 eq_refl). cbn [pos rngPair] in P1.
  assert (Hg1 : rng_ok g1) by (apply (ok_of_src rngPair); [exact S1|apply rngPair_ok]).
  destruct F0 as (X0 & Y0 & R0).
  assert (Hd : dist 132 40 (Wheel.x w0) (Wheel.y w0) = 92).
  { rewrite X0, Y0. unfold dist.
    replace ((40 - 132) * (40 - 132) + (40 - 40) * (40 - 40)) with (92 * 92)
      by ring.
    apply sqrt_square. lra. }
  destruct (tryPlace_places 1000 800 [w0] g1 40 132 40 true Hg1)
    as (w1 & g2 & E2 & F1 & S2 & _);
    try (rewrite ?S1, ?P1; cbn [src rngPair Nat.eqb Nat.add]; lra).
  { cbn [scanOthers]. rewrite Hd, R0. unfold Rmin.
    destruct (Rle_dec 40 40); [|lra].
    rewrite decide_False by lra. rewrite decide_True by lra. reflexivity. }
  assert (Hg2 : rng_ok g2) by (apply (ok_of_src g1); assumption).
  assert (Hrest : forall n, exists ws left,
            fst (placeWheels (S (S n)) 1000 800 [] rngPair) = Some (ws, left)
            /\ [w0; w1] `prefix_of` ws).
  { intros n.
    destruct (placeWheels_keeps [w0; w1] 1000 800 n [w0; w1] g2 Hg2)
      as (ws & left & E3 & Hpre); [reflexivity|unfold numWheels; simpl; lia|].
    exists ws, left. split; [|exact Hpre].
    rewrite placeWheels_S, decide_True by (unfold numWheels; simpl; lia).
    cbn [app] in E1, E2. rewrite E1. cbv beta iota.
    rewrite placeWheels_S, decide_True by (unfold numWheels; simpl; lia).
    rewrite E2. exact E3. }
  destruct (Hrest 4998%nat) as (ws & left & E3 & Hpre). clear Hrest.
  change (S (S 4998)) with maxAttempts in E3.
  destruct (initializeArtwork_wheels 1000 800 rngPair ws left rngPair_ok)
    as (art & Ha & Hws).
  - destruct (placeWheels_inv (fun _ => True) 1000 800) with
      (n := maxAttempts) (ws := @nil Wheel.t) (g := rngPair)
      as (? & ? & _ & _ & Hs & _); auto using rngPair_ok.
    apply Nat.le_0_l.
  - exact E3.
  - exists art, w0, w1. split; [exact Ha|]. rewrite Hws.
    destruct Hpre as [rest ->].
    split; [reflexivity|]. split; [reflexivity|].
    split; [auto|exact F1].
Qed.

(** X13. With draws in [0,1), no two wheels of the layout overlap by more
    than 40% of the smaller radius: the distance between their centres is at
    least the sum of the radii less 0.4 times the smaller one. *)
Theorem layout_not_too_close width height g :
  rng_ok g ->
  exists art,
    fst (initializeArtwork width height g) = Some art
    /\ notTooClose (wheels (artState art)).
Proof.
  intros Hg.
  destruct (initializeArtwork_inv notTooClose width height g)
    as (art & H1 & H2 & _).
  - intros ws g0 ws' Hg0 Hws E.
    destruct (tryPlace_cases width height ws g0 Hg0)
      as (_ & [Hc|(w & Hc & _ & _ & _ & Hno & _)]);
      rewrite Hc in E; inversion E; subst ws'; [exact Hws|].
    intros i j wi wj Hij Hi Hj.
    apply lookup_snoc_cases in Hj as [[Hj Hlt]|[-> ->]].
    + apply lookup_snoc_cases in Hi as [[Hi _]|[-> _]]; [|lia].
      apply (Hws i j wi wj Hij Hi Hj).
    + apply lookup_snoc_cases in Hi as [[Hi _]|[Hi _]]; [|lia].
      apply Rnot_lt_le, Hno. eapply list_elem_of_lookup_2, Hi.
  - intros i j wi wj _ Hi. rewrite lookup_nil in Hi. discriminate.
  - exact Hg.
  - exists art. split; assumption.
Qed.

(** X13 on a canvas of 1000 by 800 where the first two attempts place a
    wheel: the two wheels, both of radius 40, are at least 64 apart. *)
Lemma layout_not_too_close_witness :
  exists art w0 w1,
    fst (initializeArtwork 1000 800 rngPair) = Some art
    /\ wheels (artState art) !! 0%nat = Some w0
    /\ wheels (artState art) !! 1%nat = Some w1
    /\ Wheel.radius w0 = 40 /\ Wheel.radius w1 = 40
    /\ 64 <= dist (Wheel.x w1) (Wheel.y w1) (Wheel.x w0) (Wheel.y w0).
Proof.
  destruct (layout_not_too_close 1000 800 rngPair rngPair_ok) as (art & H1 & H2).
  destruct layout_pair as (art' & w0 & w1 & E & Hw0 & Hw1 & F0 & F1).
  assert (art' = art) by congruence. subst art'.
  exists art, w0, w1. split; [exact H1|]. split; [exact Hw0|].
  split; [exact Hw1|].
  destruct F0 as (_ & _ & R0). destruct F1 as (_ & _ & R1).
  split; [exact R0|]. split; [exact R1|].
  pose proof (H2 0%nat 1%nat w0 w1 ltac:(lia) Hw0 Hw1) as Hd.
  rewrite R0, R1 in Hd. unfold Rmin in Hd.
  destruct (Rle_dec 40 40); lra.
Defined.

(** X14. With draws in [0,1), every wheel of the layout but the first has an
    earlier wheel within 1.5 times their combined radius. *)
Theorem layout_chained width height g :
  rng_ok g ->
  exists art,
    fst (initializeArtwork width height g) = Some art
    /\ chained (wheels (artState art)).
Proof.
  intros Hg.
  destruct (initializeArtwork_inv chained width height g) as (art & H1 & H2 & _).
  - intros ws g0 ws' Hg0 Hws E.
    destruct (tryPlace_cases width height ws g0 Hg0)
      as (_ & [Hc|(w & Hc & _ & _ & _ & _ & Hnear & _)]);
      rewrite Hc in E; inversion E; subst ws'; [exact Hws|].
    intros j wj Hpos Hj.
    apply lookup_snoc_cases in Hj as [[Hj Hlt]|[-> ->]].
    + destruct (Hws j wj Hpos Hj) as (i & wi & Hij & Hi & Hd).
      exists i, wi. split; [exact Hij|]. split; [|exact Hd].
      apply lookup_app_l_Some, Hi.
    + destruct Hnear as (o & Ho & Hd).
      { intros ->. simpl in Hpos. lia. }
      apply list_elem_of_lookup in Ho as [i Hi]. exists i, o.
      split; [eapply lookup_lt_Some, Hi|]. split; [|exact Hd].
      apply lookup_app_l_Some, Hi.
  - intros j wj _ Hj. rewrite lookup_nil in Hj. discriminate.
  - exact Hg.
  - exists art. split; assumption.
Qed.

(** X14 on a canvas of 1000 by 800 where the first two attempts place a
    wheel: the second wheel has an earlier wheel within 120. *)
Lemma layout_chained_witness :
  exists art w1,
    fst (initializeArtwork 1000 800 rngPair) = Some art
    /\ wheels (artState art) !! 1%nat = Some w1
    /\ Wheel.radius w1 = 40
    /\ exists i wi,
         (i < 1)%nat /\ wheels (artState art) !! i = Some wi
         /\ dist (Wheel.x w1) (Wheel.y w1) (Wheel.x wi) (Wheel.y wi)
            < (Wheel.radius w1 + Wheel.radius wi) * 1.5.
Proof.
  destruct (layout_chained 1000 800 rngPair rngPair_ok) as (art & H1 & H2).
  destruct layout_pair as (art' & w0 & w1 & E & Hw0 & Hw1 & F0 & F1).
  assert (art' = art) by congruence. subst art'.
  exists art, w1. split; [exact H1|]. split; [exact Hw1|].
  split; [apply F1|]. apply (H2 1%nat w1); [lia|exact Hw1].
Defined.

Lemma colorPalettes_full p i :
  p ∈ colorPalettes -> (i < 5)%nat -> is_Some (p !! i).
Proof.
  intros Hp Hi. unfold colorPalettes in Hp.
  repeat (apply elem_of_cons in Hp as [->|Hp]);
    try (inversion Hp; fail);
    (do 5 (destruct i as [|i]; [eexists; reflexivity|])); lia.
Qed.

(** The palettes of the table have different base colours. *)
Lemma colorPalettes_base_inj p q :
  p ∈ colorPalettes -> q ∈ colorPalettes -> p !! 0%nat = q !! 0%nat -> p = q.
Proof.
  intros Hp Hq. unfold colorPalettes in Hp, Hq.
  repeat (apply elem_of_cons in Hp as [->|Hp]); try (inversion Hp; fail);
    repeat (apply elem_of_cons in Hq as [->|Hq]); try (inversion Hq; fail);
    intros E; first [reflexivity|discriminate E].
Qed.

(** X15. With draws in [0,1), every wheel of the layout has one of the six
    palettes of the table, so its five colours are defined, and never the
    palette of the wheel placed just before it: two wheels next to each other
    in the array differ in base colour, and a click on one never disperses
    the other. *)
Theorem layout_palettes width height g :
  rng_ok g ->
  exists art,
    fst (initializeArtwork width height g) = Some art
    /\ (forall w, w ∈ wheels (artState art) ->
          Wheel.colors w ∈ colorPalettes
          /\ forall i, (i < 5)%nat -> is_Some (Wheel.colors w !! i))
    /\ (forall j wj wj',
          wheels (artState art) !! j = Some wj ->
          wheels (artState art) !! S j = Some wj' ->
          Wheel.colors wj' <> Wheel.colors wj
          /\ Wheel.colors wj' !! 0%nat <> Wheel.colors wj !! 0%nat
          /\ ~ (S j ∈ affected (artState art) wj)
          /\ ~ (j ∈ affected (artState art) wj')).
Proof.
  intros Hg.
  destruct (initializeArtwork_inv palettesAlternate width height g)
    as (art & H1 & [H2 H3] & _).
  - intros ws g0 ws' Hg0 [Hall Halt] E.
    destruct (tryPlace_cases width height ws g0 Hg0)
      as (_ & [Hc|(w & Hc & _ & Hin & Hlast & _)]);
      rewrite Hc in E; inversion E; subst ws'; [split; assumption|].
    split.
    + apply Forall_app. split; [exact Hall|]. apply Forall_singleton, Hin.
    + intros j wj wj' Hj Hj'.
      apply lookup_snoc_cases in Hj' as [[Hj' Hlt]|[Hlen ->]].
      * apply lookup_snoc_cases in Hj as [[Hj _]|[-> _]]; [|lia].
        apply (Halt j wj wj' Hj Hj').
      * apply lookup_snoc_cases in Hj as [[Hj _]|[-> _]]; [|lia].
        apply Hlast. rewrite last_lookup, <- Hlen. exact Hj.
  - split; [constructor|]. intros j wj wj' Hj. rewrite lookup_nil in Hj.
    discriminate.
  - exact Hg.
  - rewrite Forall_forall in H2.
    exists art. split; [exact H1|]. split.
    + intros w Hw. split; [apply H2, Hw|]. intros i Hi.
      apply colorPalettes_full; [apply H2, Hw|exact Hi].
    + intros j wj wj' Hj Hj'. pose proof (H3 j wj wj' Hj Hj') as Hne.
      assert (Hbase : Wheel.colors wj' !! 0%nat <> Wheel.colors wj !! 0%nat).
      { intros E. apply Hne. apply colorPalettes_base_inj; [| |exact E];
          apply H2; eapply list_elem_of_lookup_2; eassumption. }
      split; [exact Hne|]. split; [exact Hbase|]. split.
      * intros Hin. apply elem_of_affected in Hin as (w & Hw & E & _).
        rewrite Hj' in Hw. inversion Hw; subst w. contradiction.
      * intros Hin. apply elem_of_affected in Hin as (w & Hw & E & _).
        rewrite Hj in Hw. inversion Hw; subst w. symmetry in E. contradiction.
Qed.

(** X15 with every draw 0 on a canvas of 1000 by 800. *)
Lemma layout_palettes_witness :
  exists art, fst (initializeArtwork 1000 800 rng0) = Some art
              /\ forall w, w ∈ wheels (artState art) ->
                           Wheel.colors w ∈ colorPalettes.
Proof.
  destruct (layout_palettes 1000 800 rng0 rng0_ok) as (art & H1 & H2 & _).
  exists art. split; [exact H1|]. intros w Hw. apply (H2 w Hw).
Defined.

(** X16. With draws in [0,1) and a canvas of positive width, every wheel of
    the layout has a radius between 4% and 12% of the width and lies within
    the canvas from left to right; it lies within the canvas from top to
    bottom as well when the height is at least 24% of the width. *)
Theorem layout_in_canvas width height g :
  rng_ok g -> 0 < width ->
  exists art,
    fst (initializeArtwork width height g) = Some art
    /\ forall w, w ∈ wheels (artState art) ->
         width * 0.04 <= Wheel.radius w < width * 0.12
         /\ 0 <= Wheel.x w - Wheel.radius w
         /\ Wheel.x w + Wheel.radius w < width
         /\ (width * 0.24 <= height ->
             0 <= Wheel.y w - Wheel.radius w
             /\ Wheel.y w + Wheel.radius w < height).
Proof.
  intros Hg Hw.
  destruct (initializeArtwork_inv (Forall (inCanvas width height)) width height g)
    as (art & H1 & H2 & _).
  - intros ws g0 ws' Hg0 Hall E.
    destruct (tryPlace_cases width height ws g0 Hg0)
      as (_ & [Hc|(w & Hc & _ & _ & _ & _ & _ & Hr & Hx & Hy)]);
      rewrite Hc in E; inversion E; subst ws'; [exact Hall|].
    apply Forall_app. split; [exact Hall|]. apply Forall_singleton.
    assert (Hr' : width * 0.04 <= Wheel.radius w < width * 0.12)
      by (apply Hr; lra).
    split; [exact Hr'|]. split; [apply Hx; lra|].
    intros Hh. apply Hy. lra.
  - constructor.
  - exact Hg.
  - rewrite Forall_forall in H2. exists art. split; [exact H1|].
    intros w Hin. destruct (H2 w Hin) as (Hr & Hx & Hy).
    split; [exact Hr|]. split; [lra|]. split; [lra|].
    intros Hh. specialize (Hy Hh). lra.
Qed.

(** X16 with every draw 0 on a canvas of 1000 by 800. *)
Lemma layout_in_canvas_witness :
  exists art, fst (initializeArtwork 1000 800 rng0) = Some art
              /\ forall w, w ∈ wheels (artState art) ->
                           Wheel.x w + Wheel.radius w < 1000.
Proof.
  destruct (layout_in_canvas 1000 800 rng0 rng0_ok ltac:(lra)) as (art & H1 & H2).
  exists art. split; [exact H1|]. intros w Hw. apply (H2 w Hw).
Defined.

Lemma NoDup_wheelPairs n : NoDup (wheelPairs n).
Proof.
  unfold wheelPairs.
  assert (H : forall l : list nat, NoDup l ->
            NoDup (flat_map (fun i => (fun j => (i, j)) <$> seq (S i) (n - S i)) l)).
  { induction l as [|a l IH]; intros Hl; simpl; [constructor|].
    apply NoDup_cons in Hl as [Ha Hl]. apply NoDup_app. split; [|split].
    - apply NoDup_fmap_2; [intros x y E; congruence|apply NoDup_seq].
    - intros [i j] Hin Hin'.
      apply list_elem_of_fmap in Hin as (b & E & _). inversion E; subst i b.
      apply list_elem_of_In, in_flat_map in Hin' as (a' & Ha' & Hin').
      apply list_elem_of_In, list_elem_of_fmap in Hin' as (b & E' & _).
      inversion E'; subst a'. apply Ha, list_elem_of_In, Ha'.
    - apply IH, Hl. }
  apply H, NoDup_seq.
Qed.

(** X17. With draws in [0,1), the layout has exactly one connector for each
    pair of wheels [i < j] whose centres are closer than 1.3 times the sum of
    their radii, none for any other pair, none from a wheel to itself, in the
    order of the pairs; each connector is the one the constructor builds on
    its two wheels, coloured with the base colour of a palette of the table. *)
Theorem layout_connectors width height g :
  rng_ok g ->
  exists art,
    fst (initializeArtwork width height g) = Some art
    /\ (fun c => (Connector.w1 c, Connector.w2 c)) <$> connectors art
       = List.filter (closePair (wheels (artState art)))
           (wheelPairs (length (wheels (artState art))))
    /\ NoDup ((fun c => (Connector.w1 c, Connector.w2 c)) <$> connectors art)
    /\ (forall i j wa wb,
          wheels (artState art) !! i = Some wa ->
          wheels (artState art) !! j = Some wb ->
          ((exists c, c ∈ connectors art
                      /\ Connector.w1 c = i /\ Connector.w2 c = j)
           <-> (i < j)%nat
               /\ dist (Wheel.x wa) (Wheel.y wa) (Wheel.x wb) (Wheel.y wb)
                  < (Wheel.radius wa + Wheel.radius wb) * 1.3))
    /\ (forall c, c ∈ connectors art ->
          (Connector.w1 c < Connector.w2 c)%nat
          /\ connects (wheels (artState art)) c
          /\ is_Some (Connector.color c)).
Proof.
  intros Hg.
  destruct (initializeArtwork_inv (fun _ => True) width height g)
    as (art & H1 & _ & _ & _ & _ & _ & Hpairs & Hcon & _); auto.
  set (ws := wheels (artState art)) in *.
  assert (Hmem : forall i j,
            (i, j) ∈ (fun c => (Connector.w1 c, Connector.w2 c)) <$> connectors art
            <-> (i < j < length ws)%nat /\ closePair ws (i, j) = true).
  { intros i j. rewrite Hpairs, list_elem_of_In, List.filter_In,
      <- list_elem_of_In, elem_of_wheelPairs. reflexivity. }
  exists art. split; [exact H1|]. split; [exact Hpairs|]. split; [|split].
  - rewrite Hpairs. apply NoDup_ListNoDup, List.NoDup_filter, NoDup_ListNoDup,
      NoDup_wheelPairs.
  - intros i j wa wb Ha Hb. fold ws in Ha, Hb.
    assert (Hclose : closePair ws (i, j) = true
                     <-> dist (Wheel.x wa) (Wheel.y wa) (Wheel.x wb) (Wheel.y wb)
                         < (Wheel.radius wa + Wheel.radius wb) * 1.3).
    { unfold closePair. simpl. rewrite Ha, Hb. unfold closeEnough.
      apply bool_decide_eq_true. }
    split.
    + intros (c & Hc & <- & <-).
      assert (Hin : (Connector.w1 c, Connector.w2 c)
                    ∈ (fun c => (Connector.w1 c, Connector.w2 c)) <$> connectors art).
      { apply list_elem_of_fmap. exists c. split; [reflexivity|exact Hc]. }
      apply Hmem in Hin as [Hlt Hcl]. split; [lia|]. apply Hclose, Hcl.
    + intros [Hlt Hd].
      assert (Hin : (i, j)
                    ∈ (fun c => (Connector.w1 c, Connector.w2 c)) <$> connectors art).
      { apply Hmem. split; [|apply Hclose, Hd].
        apply lookup_lt_Some in Hb. lia. }
      apply list_elem_of_fmap in Hin as (c & E & Hc). inversion E.
      exists c. auto.
  - intros c Hc. rewrite Forall_forall in Hcon.
    pose proof (Hcon c Hc) as Hcc.
    assert (Hin : (Connector.w1 c, Connector.w2 c)
                  ∈ (fun c => (Connector.w1 c, Connector.w2 c)) <$> connectors art).
    { apply list_elem_of_fmap. exists c. split; [reflexivity|exact Hc]. }
    apply Hmem in Hin as [Hlt _]. split; [lia|]. fold ws. split; [exact Hcc|].
    destruct Hcc as (wa & wb & pal & _ & _ & Hpal & ->). simpl.
    apply colorPalettes_full; [exact Hpal|lia].
Qed.

(** X17 on a canvas of 1000 by 800 where the first two attempts place a
    wheel: the two wheels are 92 apart, closer than 104, and a connector
    joins them. *)
Lemma layout_connectors_witness :
  exists art c,
    fst (initializeArtwork 1000 800 rngPair) = Some art
    /\ c ∈ connectors art
    /\ Connector.w1 c = 0%nat /\ Connector.w2 c = 1%nat
    /\ connects (wheels (artState art)) c
    /\ is_Some (Connector.color c).
Proof.
  destruct (layout_connectors 1000 800 rngPair rngPair_ok)
    as (art & H1 & _ & _ & Hiff & Hall).
  destruct layout_pair as (art' & w0 & w1 & E & Hw0 & Hw1 & F0 & F1).
  assert (art' = art) by congruence. subst art'.
  destruct (proj2 (Hiff 0%nat 1%nat w0 w1 Hw0 Hw1)) as (c & Hc & C1 & C2).
  { split; [lia|].
    destruct F0 as (X0 & Y0 & R0). destruct F1 as (X1 & Y1 & R1).
    rewrite X0, Y0, R0, X1, Y1, R1. apply dist_lt_iff; lra. }
  exists art, c. split; [exact H1|]. split; [exact Hc|].
  split; [exact C1|]. split; [exact C2|]. apply (Hall c Hc).
Defined.

(** ** The geometry of a connector *)

(** X18. The connector the constructor builds runs along the line of the two
    centres: its start point is on the rim of the first wheel and its end
    point on the rim of the second, each displaced from its centre towards
    the other wheel, so that the length of the line drawn is the distance
    between the centres less the two radii, in absolute value. *)
Theorem connector_rim_to_rim i j wa wb col :
  let c := Connector.new i j wa wb col in
  let d := dist (Wheel.x wa) (Wheel.y wa) (Wheel.x wb) (Wheel.y wb) in
  let sx := Vector.x (Connector.startPoint c) in
  let sy := Vector.y (Connector.startPoint c) in
  let ex := Vector.x (Connector.endPoint c) in
  let ey := Vector.y (Connector.endPoint c) in
  (sx - Wheel.x wa) * (sx - Wheel.x wa) + (sy - Wheel.y wa) * (sy - Wheel.y wa)
  = Wheel.radius wa * Wheel.radius wa
  /\ (ex - Wheel.x wb) * (ex - Wheel.x wb) + (ey - Wheel.y wb) * (ey - Wheel.y wb)
     = Wheel.radius wb * Wheel.radius wb
  /\ (sx - Wheel.x wa) * d = Wheel.radius wa * (Wheel.x wb - Wheel.x wa)
  /\ (sy - Wheel.y wa) * d = Wheel.radius wa * (Wheel.y wb - Wheel.y wa)
  /\ (ex - Wheel.x wb) * d = Wheel.radius wb * (Wheel.x wa - Wheel.x wb)
  /\ (ey - Wheel.y wb) * d = Wheel.radius wb * (Wheel.y wa - Wheel.y wb)
  /\ dist sx sy ex ey = Rabs (d - Wheel.radius wa - Wheel.radius wb).
Proof.
  intros c d sx sy ex ey. subst c sx sy ex ey. unfold Connector.new. simpl.
  set (dx := Wheel.x wb - Wheel.x wa). set (dy := Wheel.y wb - Wheel.y wa).
  destruct (atan2_direction dy dx) as [Hc Hs].
  rewrite neg_cos, neg_sin.
  pose proof (sin2_cos2 (atan2 dy dx)) as Hone. unfold Rsqr in Hone.
  set (cs := cos (atan2 dy dx)) in *. set (sn := sin (atan2 dy dx)) in *.
  assert (Ed : d = sqrt (dx * dx + dy * dy)) by reflexivity.
  rewrite <- Ed in Hc, Hs.
  set (ra := Wheel.radius wa). set (rb := Wheel.radius wb).
  split; [|split; [|split; [|split; [|split; [|split]]]]].
  - transitivity ((sn * sn + cs * cs) * (ra * ra)); [ring|rewrite Hone; ring].
  - transitivity ((sn * sn + cs * cs) * (rb * rb)); [ring|rewrite Hone; ring].
  - transitivity (ra * (cs * d)); [ring|rewrite Hc; reflexivity].
  - transitivity (ra * (sn * d)); [ring|rewrite Hs; reflexivity].
  - transitivity (- rb * (cs * d)); [ring|rewrite Hc; unfold dx; ring].
  - transitivity (- rb * (sn * d)); [ring|rewrite Hs; unfold dy; ring].
  - unfold dist at 1.
    replace (Wheel.x wb + - cs * rb - (Wheel.x wa + cs * ra))
      with (cs * (d - ra - rb)) by (rewrite Rmult_minus_distr_l, Rmult_minus_distr_l, Hc; unfold dx; ring).
    replace (Wheel.y wb + - sn * rb - (Wheel.y wa + sn * ra))
      with (sn * (d - ra - rb)) by (rewrite Rmult_minus_distr_l, Rmult_minus_distr_l, Hs; unfold dy; ring).
    replace (cs * (d - ra - rb) * (cs * (d - ra - rb))
             + sn * (d - ra - rb) * (sn * (d - ra - rb)))
      with ((sn * sn + cs * cs) * Rsqr (d - ra - rb)) by (unfold Rsqr; ring).
    rewrite Hone, Rmult_1_l. apply sqrt_Rsqr_abs.
Qed.

Lemma dist_parallel k x1 y1 x2 y2 x1' y1' x2' y2' :
  0 <= k -> x2' - x1' = k * (x2 - x1) -> y2' - y1' = k * (y2 - y1) ->
  dist x1' y1' x2' y2' = k * dist x1 y1 x2 y2.
Proof.
  intros Hk Hx Hy. unfold dist. rewrite Hx, Hy.
  replace (k * (x2 - x1) * (k * (x2 - x1)) + k * (y2 - y1) * (k * (y2 - y1)))
    with (k * k * ((x2 - x1) * (x2 - x1) + (y2 - y1) * (y2 - y1))) by ring.
  rewrite sqrt_mult.
  - rewrite (sqrt_square k Hk). reflexivity.
  - nra.
  - pose proof (Rle_0_sqr (x2 - x1)). pose proof (Rle_0_sqr (y2 - y1)).
    unfold Rsqr in *. lra.
Qed.

(** X19. The chain links [display] draws along a connector: none when the
    line is shorter than 15; otherwise [numLinks + 1] of them, with
    [numLinks] the integer part of the length over 15, the first centred on
    the start point, the last on the end point, and each next one at the
    same distance from the one before, the length over [numLinks], which is
    at least 15: links of size 10 never touch. *)
Theorem link_centres_spaced c :
  let sx := Vector.x (Connector.startPoint c) in
  let sy := Vector.y (Connector.startPoint c) in
  let ex := Vector.x (Connector.endPoint c) in
  let ey := Vector.y (Connector.endPoint c) in
  let d := dist sx sy ex ey in
  let numLinks := Int_part (d / (10 * 1.5)) in
  (d < 15 -> Connector.linkCentres c = [])
  /\ (15 <= d ->
      (0 < numLinks)%Z
      /\ length (Connector.linkCentres c) = S (Z.to_nat numLinks)
      /\ Connector.linkCentres c !! 0%nat = Some (sx, sy)
      /\ Connector.linkCentres c !! Z.to_nat numLinks = Some (ex, ey)
      /\ forall i a b,
           Connector.linkCentres c !! i = Some a ->
           Connector.linkCentres c !! S i = Some b ->
           dist a.1 a.2 b.1 b.2 = d / IZR numLinks
           /\ 15 <= dist a.1 a.2 b.1 b.2).
Proof.
  intros sx sy ex ey d numLinks.
  destruct (base_Int_part (d / (10 * 1.5))) as [Hlo Hhi]. fold numLinks in Hlo, Hhi.
  assert (Hd : d / (10 * 1.5) * 15 = d) by lra.
  unfold Connector.linkCentres. fold sx sy ex ey. fold d. fold numLinks.
  assert (Ed : d = dist sx sy ex ey) by reflexivity.
  clearbody numLinks d. clearbody sx sy ex ey.
  split.
  - intros Hlt. rewrite decide_False; [reflexivity|].
    intros Hpos. apply IZR_lt in Hpos.
    assert (1 <= IZR numLinks).
    { apply IZR_le. apply lt_IZR in Hpos. lia. }
    lra.
  - intros Hge.
    assert (Hpos : (0 < numLinks)%Z).
    { apply lt_IZR. lra. }
    assert (HposR : 0 < IZR numLinks) by (apply IZR_lt in Hpos; exact Hpos).
    rewrite decide_True by exact Hpos.
    set (n := Z.to_nat numLinks).
    assert (En : INR n = IZR numLinks).
    { unfold n. rewrite INR_IZR_INZ, Z2Nat.id by lia. reflexivity. }
    assert (Hamt : forall i, p5map (INR i) 0 (IZR numLinks) 0 1
                             = INR i / IZR numLinks).
    { intros i. unfold p5map. field. lra. }
    split; [exact Hpos|]. split; [rewrite length_fmap, length_seq; reflexivity|].
    split; [|split].
    + rewrite list_lookup_fmap, lookup_seq_lt by lia. cbn [fmap option_fmap option_map Nat.add].
      rewrite Hamt. unfold lerp. simpl INR. f_equal. f_equal; field; lra.
    + rewrite list_lookup_fmap, lookup_seq_lt by lia. cbn [fmap option_fmap option_map Nat.add].
      rewrite Hamt, En. unfold lerp. f_equal. f_equal; field; lra.
    + intros i a b Ha Hb.
      rewrite list_lookup_fmap in Ha, Hb.
      destruct (seq 0 (S n) !! i) as [i'|] eqn:Ei; [|discriminate].
      destruct (seq 0 (S n) !! S i) as [i''|] eqn:Ei'; [|discriminate].
      apply lookup_seq in Ei as [-> _]. apply lookup_seq in Ei' as [-> _].
      cbn [fmap option_fmap option_map Nat.add] in Ha, Hb.
      assert (Ea : a = (lerp sx ex (INR i / IZR numLinks),
                        lerp sy ey (INR i / IZR numLinks)))
        by (rewrite <- Hamt; congruence).
      assert (Eb : b = (lerp sx ex (INR (S i) / IZR numLinks),
                        lerp sy ey (INR (S i) / IZR numLinks)))
        by (rewrite <- Hamt; congruence).
      rewrite Ea, Eb. cbn [fst snd].
      assert (E : dist (lerp sx ex (INR i / IZR numLinks))
                       (lerp sy ey (INR i / IZR numLinks))
                       (lerp sx ex (INR (S i) / IZR numLinks))
                       (lerp sy ey (INR (S i) / IZR numLinks))
                  = / IZR numLinks * d).
      { rewrite Ed. apply dist_parallel.
        - apply Rlt_le, Rinv_0_lt_compat, HposR.
        - unfold lerp. rewrite S_INR. field. lra.
        - unfold lerp. rewrite S_INR. field. lra. }
      rewrite E. split; [unfold Rdiv; ring|].
      assert (Hinv : / IZR numLinks * d * IZR numLinks = d) by (field; lra).
      apply (Rmult_le_reg_r (IZR numLinks)); [exact HposR|]. rewrite Hinv. lra.
Qed.

(** X19 on a connector of length 30: three links. *)
Lemma link_centres_spaced_witness :
  length (Connector.linkCentres shortConnector) = 3%nat.
Proof.
  assert (Ed : dist 0 0 30 0 = 30).
  { unfold dist. replace ((30 - 0) * (30 - 0) + (0 - 0) * (0 - 0)) with (30 * 30) by ring.
    apply sqrt_square. lra. }
  assert (En : Int_part (dist 0 0 30 0 / (10 * 1.5)) = 2%Z).
  { symmetry. apply Int_part_spec. rewrite Ed. simpl. split; lra. }
  destruct (proj2 (link_centres_spaced shortConnector)) as (_ & Hlen & _).
  - simpl. rewrite Ed. lra.
  - rewrite Hlen. simpl. rewrite En. reflexivity.
Defined.

(** ** Colour groups *)

Lemma draw_colors s k w' :
  wheels (draw s) !! k = Some w' ->
  exists w, wheels s !! k = Some w /\ Wheel.colors w' = Wheel.colors w
            /\ Wheel.isBlownAway w' = Wheel.isBlownAway w.
Proof.
  rewrite draw_wheels. destruct (wheels s !! k) as [w|]; [|discriminate].
  intros E. inversion E. exists w. split; [reflexivity|].
  split; [|apply updateAlpha_isBlownAway].
  unfold Wheel.updateAlpha. destruct (Wheel.isBlownAway w); [reflexivity|].
  case_decide; reflexivity.
Qed.

Lemma groupInv_step s s' :
  undoInv s -> groupInv s -> step s s' -> groupInv s'.
Proof.
  intros Hu Hgr Hst. destruct Hst as [s|s mx my g _|s keyCode|s s' (_ & _ & Hh)].
  - intros b Hb. destruct (Hgr b Hb) as [c Hc]. exists c. intros k w' Hw'.
    destruct (draw_colors s k w' Hw') as (w & Hw & -> & _). apply Hc, Hw.
  - destruct (mousePressed_cases s mx my g) as [[E _]|(i & wheel & Hc & E)];
      rewrite E; [exact Hgr|].
    pose proof (clicked_nonempty _ _ _ _ _ Hc) as Hne.
    destruct (disperse_spec s wheel g Hne) as (Hh & _ & Hw & _).
    assert (Hcol : forall k w', wheels (fst (disperse s wheel g)) !! k = Some w' ->
                     exists w, wheels s !! k = Some w
                               /\ Wheel.colors w' = Wheel.colors w).
    { intros k w'. rewrite Hw. destruct (wheels s !! k) as [w|]; [|case_decide; discriminate].
      intros E'. exists w. split; [reflexivity|].
      case_decide; inversion E'; reflexivity. }
    intros b Hb. rewrite Hh in Hb. apply elem_of_app in Hb as [Hb|Hb].
    + destruct (Hgr b Hb) as [c Hcb]. exists c. intros k w' Hw'.
      destruct (Hcol k w' Hw') as (w & Hkw & ->). apply Hcb, Hkw.
    + apply list_elem_of_singleton in Hb. subst b.
      exists (Wheel.colors wheel !! 0%nat). intros k w' Hw'.
      destruct (Hcol k w' Hw') as (w & Hkw & ->).
      rewrite elem_of_affected. split.
      * intros (w0 & Hw0 & Hc0 & _). congruence.
      * intros Hc0. exists w. split; [exact Hkw|]. split; [exact Hc0|].
        destruct (Wheel.isBlownAway w) eqn:Hbl; [exfalso|reflexivity].
        destruct Hu as (_ & _ & H3).
        assert (Hin : k ∈ concat (blownAwayHistory s)) by (apply H3; eauto).
        apply elem_of_concat in Hin as (b & Hb & Hkb).
        destruct (Hgr b Hb) as [c Hcb].
        destruct Hc as (Hi & Hhit & _).
        assert (Hib : i ∈ b).
        { apply (Hcb i wheel Hi). rewrite <- Hc0. apply (Hcb k w Hkw), Hkb. }
        assert (Hi' : i ∈ concat (blownAwayHistory s))
          by (apply elem_of_concat; eauto).
        apply H3 in Hi' as (w0 & Hw0 & Hb0). rewrite Hi in Hw0.
        inversion Hw0; subst w0. unfold hit in Hhit. rewrite Hb0 in Hhit.
        rewrite andb_false_r in Hhit. discriminate.
  - destruct (keyPressed_cases keyCode s) as [E|(rest & batch & H & E)];
      rewrite E; [exact Hgr|].
    destruct (keyPressed_spec s rest batch H) as (Hh & Hw & _).
    intros b Hb. rewrite Hh in Hb.
    destruct (Hgr b) as [c Hcb]; [rewrite H; apply elem_of_app; left; exact Hb|].
    exists c. intros k w'. rewrite Hw.
    destruct (wheels s !! k) as [w|] eqn:Hkw; [|case_decide; discriminate].
    intros E'.
    assert (Ec : Wheel.colors w' = Wheel.colors w)
      by (case_decide; inversion E'; reflexivity).
    rewrite Ec. apply (Hcb k w Hkw).
  - intros b Hb. rewrite Hh in Hb. inversion Hb.
Qed.

Lemma reachable_groupInv s : reachable s -> groupInv s.
Proof.
  intros Hs. induction Hs as [s (_ & _ & Hh)|s s' Hs IH Hst].
  - intros b Hb. rewrite Hh in Hb. inversion Hb.
  - apply (groupInv_step s s' (reachable_undoInv s Hs) IH Hst).
Qed.

(** X20. Colour groups are blown and restored as a whole: in every reachable
    state two wheels of the same base colour are both blown away or both
    not, and every batch of the history lists all the wheels of one base
    colour and no other wheel. *)
Theorem colour_groups_whole s :
  reachable s ->
  (forall k1 k2 w1 w2,
     wheels s !! k1 = Some w1 -> wheels s !! k2 = Some w2 ->
     Wheel.colors w1 !! 0%nat = Wheel.colors w2 !! 0%nat ->
     Wheel.isBlownAway w1 = Wheel.isBlownAway w2)
  /\ (forall b, b ∈ blownAwayHistory s ->
        exists c, forall k w, wheels s !! k = Some w ->
                    (k ∈ b <-> Wheel.colors w !! 0%nat = c)).
Proof.
  intros Hs. pose proof (reachable_groupInv s Hs) as Hgr.
  destruct (reachable_undoInv s Hs) as (_ & _ & H3).
  split; [|exact Hgr].
  assert (Himp : forall k1 k2 w1 w2,
            wheels s !! k1 = Some w1 -> wheels s !! k2 = Some w2 ->
            Wheel.colors w1 !! 0%nat = Wheel.colors w2 !! 0%nat ->
            Wheel.isBlownAway w1 = true -> Wheel.isBlownAway w2 = true).
  { intros k1 k2 w1 w2 H1 H2 Hc Hb.
    assert (Hin : k1 ∈ concat (blownAwayHistory s)) by (apply H3; eauto).
    apply elem_of_concat in Hin as (b & Hbh & Hk1).
    destruct (Hgr b Hbh) as [c Hcb].
    assert (Hk2 : k2 ∈ b).
    { apply (Hcb k2 w2 H2). rewrite <- Hc. apply (Hcb k1 w1 H1), Hk1. }
    assert (Hin2 : k2 ∈ concat (blownAwayHistory s))
      by (apply elem_of_concat; eauto).
    apply H3 in Hin2 as (w & Hw & Hbw). congruence. }
  intros k1 k2 w1 w2 H1 H2 Hc.
  destruct (Wheel.isBlownAway w1) eqn:E1, (Wheel.isBlownAway w2) eqn:E2;
    try reflexivity.
  - rewrite (Himp k1 k2 w1 w2 H1 H2 Hc E1) in E2. discriminate.
  - rewrite (Himp k2 k1 w2 w1 H2 H1 (eq_sym Hc) E2) in E1. discriminate.
Qed.

(** X20 after the first click of the example. *)
Lemma colour_groups_whole_witness :
  exists c, forall k w,
    wheels (fst (mousePressed start 180 100 rng0)) !! k = Some w ->
    (k ∈ [1%nat] <-> Wheel.colors w !! 0%nat = c).
Proof.
  destruct (colour_groups_whole _ reachable_after_click_B) as [_ H].
  apply H. destruct after_click_B as (_ & _ & _ & -> & _). left.
Defined.

(** ** The pattern drawn and the particles spawned *)




